(** * MiskOS kernel core: scheduler, descriptor table, path traversal,
      system-call return path, ELF loader and Ext2 directory scan.

    A shallow embedding of the C++ sources under [kernel/src] and the
    properties of them that the kernel specification states. *)

From Stdlib Require Import String Ascii.
From Stdlib Require Import ZArith List Bool Lia Permutation.
From Stdlib Require Import Init.Byte.
Import ListNotations.

Local Open Scope Z_scope.

(** ** Machine arithmetic *)

Module Machine.

(** [uint64_t] arithmetic wraps modulo 2^64. *)
Definition wrap64 (x : Z) : Z := x mod 2 ^ 64.

(** The value of a 64-bit pattern read as [int64_t]. *)
Definition signed64 (x : Z) : Z := if x <? 2 ^ 63 then x else x - 2 ^ 64.

Definition uint64 (x : Z) : Prop := 0 <= x < 2 ^ 64.

End Machine.

(** ** Kernel control flow: [Panic()] and a failed [Assert] halt the core *)

Module Halting.

(** [None] is a halted kernel ([Panic()], or an [Assert]/[KAssert] whose
    condition is false). *)
Definition Assert (c : bool) : option unit := if c then Some tt else None.

Definition bind {A B} (m : option A) (k : A -> option B) : option B :=
  match m with
  | Some a => k a
  | None => None
  end.

End Halting.

Notation "x <- m ;; k" := (Halting.bind m (fun x => k))
  (at level 61, m at next level, right associativity).
Notation "m ;;; k" := (Halting.bind m (fun _ => k))
  (at level 61, right associativity).

(** ** Vector *)

Module Vector.

Section Ops.
Context {A : Type}.

(** Modelled from the spec: [Vector.h] is not part of the sources.  The
    run queue is "an ordered sequence"; [Push] appends at the tail, [Get i]
    reads slot [i], and [Pop i] takes slot [i] out, the later slots moving
    down by one (the timer loop walks its vector from the last index to the
    first for that reason). *)
Definition Push (v : list A) (x : A) : list A := v ++ [x].

Definition GetLength (v : list A) : nat := length v.

Definition Get (d : A) (v : list A) (i : nat) : A := nth i v d.

Fixpoint Remove (i : nat) (v : list A) : list A :=
  match v with
  | [] => []
  | x :: v' =>
      match i with
      | O => v'
      | S i' => x :: Remove i' v'
      end
  end.

Definition Pop (d : A) (v : list A) (i : nat) : A * list A :=
  (Get d v i, Remove i v).

(** [v[i] = x] through the reference that [Get] returns. *)
Fixpoint Put (i : nat) (x : A) (v : list A) : list A :=
  match v with
  | [] => []
  | y :: v' =>
      match i with
      | O => x :: v'
      | S i' => y :: Put i' x v'
      end
  end.

End Ops.

End Vector.

(** ** Bytes *)

Module Bytes.

Definition byteValue (b : byte) : Z := Z.of_N (Byte.to_N b).

(** A little-endian field. *)
Definition littleEndian (bs : list byte) : Z :=
  fold_right (fun b acc => byteValue b + 256 * acc) 0 bs.

Definition byteOf (v : Z) : byte :=
  match Byte.of_N (Z.to_N (v mod 256)) with
  | Some b => b
  | None => Byte.x00
  end.

(** The characters of a [char] buffer before the first NUL: what the
    [String] and [VNode] constructors take from it. *)
Fixpoint beforeNul (bs : list byte) : list byte :=
  match bs with
  | [] => []
  | b :: bs' => if Byte.eqb b Byte.x00 then [] else b :: beforeNul bs'
  end.

End Bytes.

(** ** Memory.cpp *)

Module Mem.
Import Machine.


Definition Memory := Z -> byte.

Definition store (m : Memory) (a : Z) (b : byte) : Memory :=
  fun a' => if a' =? a then b else m a'.

(** [for (uint64_t i = 0; i < count; ++i) dest[i] = src[i];] *)
Fixpoint MemCopy_loop (n : nat) (i : Z) (destination source : Z)
  (m : Memory) : Memory :=
  match n with
  | O => m
  | S n' =>
      MemCopy_loop n' (i + 1) destination source
        (store m (destination + i) (m (source + i)))
  end.

Definition MemCopy (destination source count : Z) (m : Memory) : Memory :=
  MemCopy_loop (Z.to_nat count) 0 destination source m.

Definition HigherHalf (physAddr : Z) : Z :=
  wrap64 (physAddr + 0xffff800000000000).

(** [for (uint64_t i = 0; i < size; ++i) ptr[i] = value;] *)
Fixpoint Memset_loop (n : nat) (i : Z) (addr : Z) (value : byte)
  (m : Memory) : Memory :=
  match n with
  | O => m
  | S n' => Memset_loop n' (i + 1) addr value (store m (addr + i) value)
  end.

Definition Memset (addr : Z) (value : byte) (size : Z) (m : Memory) : Memory :=
  Memset_loop (Z.to_nat size) 0 addr value m.

(** [MemCompare]: [false] at the first index where the two ranges
    differ. *)
Fixpoint MemCompare_loop (n : nat) (i : Z) (left right : Z) (m : Memory)
  : bool :=
  match n with
  | O => true
  | S n' =>
      if negb (Byte.eqb (m (left + i)) (m (right + i))) then false
      else MemCompare_loop n' (i + 1) left right m
  end.

Definition MemCompare (left right count : Z) (m : Memory) : bool :=
  MemCompare_loop (Z.to_nat count) 0 left right m.

End Mem.

(** ** Scheduler.cpp *)

Module Sched.
Import Machine Halting Mem.

(** [TaskState], with the states that the specification lists (the
    Task.h that declares it is not part of the sources); a
    value-initialised [Task] is [Normal]. *)
Inductive TaskState := Normal | Blocked | WaitingForChild | Zombie.

Definition TaskState_eqb (a b : TaskState) : bool :=
  match a, b with
  | Normal, Normal | Blocked, Blocked
  | WaitingForChild, WaitingForChild | Zombie, Zombie => true
  | _, _ => false
  end.

(** [struct InterruptFrame] of Task.h, every field a [uint64_t]. *)
Record InterruptFrame := mkInterruptFrame {
  es : Z; ds : Z;
  r15 : Z; r14 : Z; r13 : Z; r12 : Z; r11 : Z; r10 : Z; r9 : Z; r8 : Z;
  rdi : Z; rsi : Z; rbp : Z; rdx : Z; rcx : Z; rbx : Z; rax : Z;
  interruptNumber : Z; errorCode : Z;
  rip : Z; cs : Z; rflags : Z; rsp : Z; ss : Z
}.

(** [frame.rax = v]. *)
Definition set_rax (v : Z) (f : InterruptFrame) : InterruptFrame :=
  mkInterruptFrame (es f) (ds f)
    (r15 f) (r14 f) (r13 f) (r12 f) (r11 f) (r10 f) (r9 f) (r8 f)
    (rdi f) (rsi f) (rbp f) (rdx f) (rcx f) (rbx f) v
    (interruptNumber f) (errorCode f)
    (rip f) (cs f) (rflags f) (rsp f) (ss f).

(** [InterruptFrame frame {}]. *)
Definition zeroFrame : InterruptFrame :=
  mkInterruptFrame 0 0 0 0 0 0 0 0 0 0 0 0 0 0 0 0 0 0 0 0 0 0 0 0.

(** [struct Task] as Scheduler.cpp uses it: the three owned objects are
    held by pointer, and the system-call stack by its top address
    ([syscallStackAddr]) and its lowest address ([syscallStackBottom]). *)
Record Task := mkTask {
  pid : Z;
  frame : InterruptFrame;
  state : TaskState;
  vfs : Z;
  pagingManager : Z;
  userspaceAllocator : Z;
  syscallStackAddr : Z;
  syscallStackBottom : Z
}.

Definition set_frame (f : InterruptFrame) (t : Task) : Task :=
  mkTask (pid t) f (state t) (vfs t) (pagingManager t) (userspaceAllocator t)
    (syscallStackAddr t) (syscallStackBottom t).

Definition set_state (st : TaskState) (t : Task) : Task :=
  mkTask (pid t) (frame t) st (vfs t) (pagingManager t) (userspaceAllocator t)
    (syscallStackAddr t) (syscallStackBottom t).

Definition set_pid (p : Z) (t : Task) : Task :=
  mkTask p (frame t) (state t) (vfs t) (pagingManager t) (userspaceAllocator t)
    (syscallStackAddr t) (syscallStackBottom t).

Definition set_syscallStackAddr (a : Z) (t : Task) : Task :=
  mkTask (pid t) (frame t) (state t) (vfs t) (pagingManager t)
    (userspaceAllocator t) a (syscallStackBottom t).

(** [Task task {}]. *)
Definition zeroTask : Task := mkTask 0 zeroFrame Normal 0 0 0 0 0.

Module TimerEntry.
Record t := mk {
  milliseconds : Z;
  unblockOnExpire : bool;
  pid : Z
}.
Definition zero : t := mk 0 false 0.
End TimerEntry.

(** The global [taskQueue] together with the state of one core's
    [Scheduler] object and what it drives: the value last given to
    [lapic->SetTimeBetweenTimerFires], the stack last given to
    [tss->SetSystemCallStack], and the paging manager whose [SetCR3] ran
    last. *)
Record Scheduler := mkScheduler {
  taskQueue : list Task;
  currentTask : Task;
  idleTask : Task;
  restoreFrame : bool;
  timerEntries : list TimerEntry.t;
  currentTimerTime : Z;
  lapicTimeBetweenTimerFires : Z;
  tssSystemCallStack : Z;
  cr3 : Z
}.

Definition set_taskQueue (q : list Task) (s : Scheduler) : Scheduler :=
  mkScheduler q (currentTask s) (idleTask s) (restoreFrame s) (timerEntries s)
    (currentTimerTime s) (lapicTimeBetweenTimerFires s) (tssSystemCallStack s)
    (cr3 s).

Definition set_timerEntries (l : list TimerEntry.t) (s : Scheduler) : Scheduler :=
  mkScheduler (taskQueue s) (currentTask s) (idleTask s) (restoreFrame s) l
    (currentTimerTime s) (lapicTimeBetweenTimerFires s) (tssSystemCallStack s)
    (cr3 s).

(** *** GetTask, Unblock, Unsuspend *)

(** [GetTask] returns a reference to the first task of the queue with the
    given PID, here its index; [None] is [Panic()]. *)
Fixpoint GetTask (p : Z) (q : list Task) : option nat :=
  match q with
  | [] => None
  | task :: q' =>
      if pid task =? p then Some O
      else match GetTask p q' with
           | Some i => Some (S i)
           | None => None
           end
  end.

Definition Unblock (p : Z) (q : list Task) : option (list Task) :=
  i <- GetTask p q ;;
  let task := Vector.Get zeroTask q i in
  Assert (TaskState_eqb (state task) Blocked) ;;;
  Some (Vector.Put i (set_state Normal task) q).

Definition Unsuspend (p : Z) (returnValue : Z) (q : list Task)
  : option (list Task) :=
  i <- GetTask p q ;;
  let task := Vector.Get zeroTask q i in
  Assert (TaskState_eqb (state task) Blocked
          || TaskState_eqb (state task) WaitingForChild) ;;;
  Some (Vector.Put i
          (set_state Normal (set_frame (set_rax returnValue (frame task)) task))
          q).

(** *** Timer entries *)

(** The body of [for (uint64_t i = timerEntries.GetLength(); i-- > 0; )],
    run for the indices [i-1], ..., [0]. *)
Fixpoint UpdateTimerEntries_loop (i : nat) (deltaTime : Z)
  (timers : list TimerEntry.t) (q : list Task)
  : option (list TimerEntry.t * list Task) :=
  match i with
  | O => Some (timers, q)
  | S i' =>
      let timerEntry := Vector.Get TimerEntry.zero timers i' in
      if TimerEntry.milliseconds timerEntry <=? deltaTime then
        q' <- (if TimerEntry.unblockOnExpire timerEntry then
                 Assert (negb (TimerEntry.pid timerEntry =? 0)) ;;;
                 Unblock (TimerEntry.pid timerEntry) q
               else Some q) ;;
        UpdateTimerEntries_loop i' deltaTime (Vector.Remove i' timers) q'
      else
        UpdateTimerEntries_loop i' deltaTime
          (Vector.Put i'
             (TimerEntry.mk
                (wrap64 (TimerEntry.milliseconds timerEntry - deltaTime))
                (TimerEntry.unblockOnExpire timerEntry)
                (TimerEntry.pid timerEntry))
             timers)
          q
  end.

(** [remainingTime] is what [lapic->GetTimeRemainingMilliseconds()]
    answers. *)
Definition UpdateTimerEntries (remainingTime : Z) (s : Scheduler)
  : option Scheduler :=
  Assert (remainingTime <? currentTimerTime s) ;;;
  let deltaTime := wrap64 (currentTimerTime s - remainingTime) in
  r <- UpdateTimerEntries_loop (Vector.GetLength (timerEntries s)) deltaTime
         (timerEntries s) (taskQueue s) ;;
  Some (set_timerEntries (fst r) (set_taskQueue (snd r) s)).

(** The loop of [ConfigureTimerClosestExpiry], from [closestTime = 100]. *)
Definition closestExpiry (timers : list TimerEntry.t) : Z :=
  fold_left
    (fun closestTime time =>
       if TimerEntry.milliseconds time <? closestTime
       then TimerEntry.milliseconds time else closestTime)
    timers 100.

Definition ConfigureTimerClosestExpiry (s : Scheduler) : Scheduler :=
  let closestTime := closestExpiry (timerEntries s) in
  mkScheduler (taskQueue s) (currentTask s) (idleTask s) (restoreFrame s)
    (timerEntries s) closestTime closestTime (tssSystemCallStack s) (cr3 s).

(** *** SwitchToNextTask *)

(** [for (uint64_t i = 0; i < taskQueue->GetLength(); ++i)]: the length is
    read again on every round, and the loop has no [break].  Every round
    moves [i] up and never lengthens the queue, so [fuel] rounds are enough
    when [fuel] is the length of the queue on entry
    (see [SelectLoop_fuel]). *)
Fixpoint SelectLoop (fuel i : nat) (q : list Task) (current : Task)
  (foundNewTask : bool) : list Task * Task * bool :=
  match fuel with
  | O => (q, current, foundNewTask)
  | S fuel' =>
      if (i <? Vector.GetLength q)%nat then
        if TaskState_eqb (state (Vector.Get zeroTask q i)) Normal then
          let popped := Vector.Pop zeroTask q i in
          SelectLoop fuel' (S i) (snd popped) (fst popped) true
        else SelectLoop fuel' (S i) q current foundNewTask
      else (q, current, foundNewTask)
  end.

Definition SwitchToNextTask (remainingTime : Z)
  (interruptFrame : InterruptFrame) (s0 : Scheduler)
  : option (Scheduler * InterruptFrame) :=
  s <- UpdateTimerEntries remainingTime s0 ;;
  (* if (restoreFrame) { save the frame; Push } else restoreFrame = true *)
  let current1 :=
    if restoreFrame s then set_frame interruptFrame (currentTask s)
    else currentTask s in
  let q1 :=
    if restoreFrame s then Vector.Push (taskQueue s) current1
    else taskQueue s in
  let restore1 := true in
  let sel := SelectLoop (Vector.GetLength q1) O q1 current1 false in
  let q2 := fst (fst sel) in
  let foundNewTask := snd sel in
  (* if (!foundNewTask) { restoreFrame = false; currentTask = idleTask; } *)
  let restore2 := if foundNewTask then restore1 else false in
  let current2 := if foundNewTask then snd (fst sel) else idleTask s in
  let s' :=
    ConfigureTimerClosestExpiry
      (mkScheduler q2 current2 (idleTask s) restore2 (timerEntries s)
         (currentTimerTime s) (lapicTimeBetweenTimerFires s)
         (tssSystemCallStack s) (cr3 s)) in
  Some (mkScheduler (taskQueue s') (currentTask s') (idleTask s')
          (restoreFrame s') (timerEntries s') (currentTimerTime s')
          (lapicTimeBetweenTimerFires s')
          (syscallStackAddr (currentTask s'))
          (pagingManager (currentTask s')),
        frame (currentTask s')).

(** [ExitCurrentTask]: the frame of the exiting task is not saved. *)
Definition ExitCurrentTask (remainingTime : Z)
  (interruptFrame : InterruptFrame) (s : Scheduler)
  : option (Scheduler * InterruptFrame) :=
  SwitchToNextTask remainingTime interruptFrame
    (mkScheduler (taskQueue s) (currentTask s) (idleTask s) false
       (timerEntries s) (currentTimerTime s) (lapicTimeBetweenTimerFires s)
       (tssSystemCallStack s) (cr3 s)).

(** *** CreateTask and ForkCurrentTask *)

Definition SYSCALL_STACK_PAGE_COUNT : Z := 3.

(** The constants of SegmentSelectors.h, which is not part of the
    sources, are taken as given. *)
Record Selectors := mkSelectors {
  USER_CODE_SEGMENT : Z;
  KERNEL_CODE_SEGMENT : Z;
  USER_DATA_SEGMENT : Z;
  KERNEL_DATA_SEGMENT : Z;
  INITIAL_RFLAGS : Z
}.

(** [pageFrames] is the physical address that
    [RequestPageFrames(SYSCALL_STACK_PAGE_COUNT)] hands out, and [pidCounter]
    the function's [static uint64_t pid]; the result carries the counter
    after the call. *)
Definition CreateTask (c : Selectors)
  (pagingManager_ vfs_ userspaceAllocator_ entry stackPtr : Z)
  (userTask setPid : bool) (pageFrames pidCounter : Z) : Task * Z :=
  let codeSeg := if userTask then USER_CODE_SEGMENT c else KERNEL_CODE_SEGMENT c in
  let dataSeg := if userTask then USER_DATA_SEGMENT c else KERNEL_DATA_SEGMENT c in
  let frame_ :=
    mkInterruptFrame dataSeg dataSeg 0 0 0 0 0 0 0 0 0 0 0 0 0 0 0 0 0
      entry codeSeg (INITIAL_RFLAGS c) stackPtr dataSeg in
  let syscallStackSize := SYSCALL_STACK_PAGE_COUNT * 0x1000 in
  let syscallStack := HigherHalf (wrap64 (pageFrames + syscallStackSize)) in
  let task :=
    mkTask 0 frame_ Normal vfs_ pagingManager_ userspaceAllocator_
      syscallStack (wrap64 (syscallStack - syscallStackSize)) in
  if setPid then (set_pid pidCounter task, wrap64 (pidCounter + 1))
  else (task, pidCounter).

(** The scheduler with the memory that holds the system-call stacks and
    the PID counter. *)
Record Kernel := mkKernel {
  scheduler : Scheduler;
  memory : Memory;
  pidCounter : Z
}.

(** What the allocators hand to one [ForkCurrentTask]: the three objects
    made with [new] (their classes are not part of the sources; the copies
    are held by pointer only) and the page frames of the child's
    system-call stack. *)
Record ForkAllocation := mkForkAllocation {
  newPagingManager : Z;
  newVFS : Z;
  newUserspaceAllocator : Z;
  newPageFrames : Z
}.

(** [memory] follows the system-call stacks only: what [new],
    [InitializePaging] and [CopyUserspace] write elsewhere is not part of
    it. *)
Definition ForkCurrentTask (c : Selectors) (a : ForkAllocation)
  (interruptFrame : InterruptFrame) (k : Kernel) : Kernel * Z :=
  let s := scheduler k in
  let created :=
    CreateTask c (newPagingManager a) (newVFS a) (newUserspaceAllocator a)
      0 0 true true (newPageFrames a) (pidCounter k) in
  let child := fst created in
  (* child.frame = *interruptFrame; child.frame.rax = 0; *)
  let child := set_frame (set_rax 0 interruptFrame) child in
  (* Clone system call stack *)
  let memory' :=
    MemCopy (syscallStackBottom child) (syscallStackBottom (currentTask s))
      (SYSCALL_STACK_PAGE_COUNT * 0x1000) (memory k) in
  let child := set_syscallStackAddr (syscallStackAddr (currentTask s)) child in
  (mkKernel (set_taskQueue (Vector.Push (taskQueue s) child) s) memory'
     (snd created),
   pid child).

(** *** SleepCurrentTask *)

Definition set_currentTask (t : Task) (s : Scheduler) : Scheduler :=
  mkScheduler (taskQueue s) t (idleTask s) (restoreFrame s) (timerEntries s)
    (currentTimerTime s) (lapicTimeBetweenTimerFires s) (tssSystemCallStack s)
    (cr3 s).

(** [SleepCurrentTask] with [SuspendSystemCall(TaskState::Blocked)] up to
    the switch that its [int $0x81] causes ([ISRHandler], case 0x81):
    [interruptFrame] is the frame of that interrupt and [remainingTime] what
    the LAPIC reports then.  What follows in [SuspendSystemCall] runs when
    the task is resumed. *)
Definition SleepCurrentTask (remainingTime : Z)
  (interruptFrame : InterruptFrame) (milliseconds : Z) (s : Scheduler)
  : option (Scheduler * InterruptFrame) :=
  Assert (negb (pid (currentTask s) =? 0)) ;;;
  Assert (0 <? milliseconds) ;;;
  let s :=
    set_timerEntries
      (Vector.Push (timerEntries s)
         (TimerEntry.mk milliseconds true (pid (currentTask s)))) s in
  Assert (TaskState_eqb (state (currentTask s)) Normal) ;;;
  let s := set_currentTask (set_state Blocked (currentTask s)) s in
  SwitchToNextTask remainingTime interruptFrame s.

End Sched.

(** ** VFS.cpp *)

Module VFS.
Import Machine Halting.

(** A NUL-terminated [char*] is the string of its characters before the
    terminator, so [String::Length] is the length and [String::Equals] is
    equality. *)

(** Modelled from the spec: StringUtilities.h is not part of the sources.
    "Split at [/]": [String::Split(s, c, &rest)] returns the characters of
    [s] before the first [c] and leaves in [rest] what follows that [c] (the
    empty string when [s] has no [c]); [String::Count(s, c)] counts the
    [c]s of [s]. *)
Fixpoint Split (s : string) (c : ascii) : string * string :=
  match s with
  | EmptyString => (EmptyString, EmptyString)
  | String a s' =>
      if Ascii.eqb a c then (EmptyString, s')
      else (String a (fst (Split s' c)), snd (Split s' c))
  end.

Fixpoint Count (s : string) (c : ascii) : nat :=
  match s with
  | EmptyString => O
  | String a s' => if Ascii.eqb a c then S (Count s' c) else Count s' c
  end.

Record VNode := mkVNode {
  name : string;
  inodeNum : Z
}.

(** [{present, offset, vNode}]; [vNode] is a pointer, [None] is
    [nullptr]. *)
Record FileDescriptor := mkFileDescriptor {
  present : bool;
  offset : Z;
  vNode : option VNode
}.

Definition zeroDescriptor : FileDescriptor := mkFileDescriptor false 0 None.

(** Of [struct Process] (Process.h is not part of the sources) VFS.cpp
    uses the descriptor table only. *)
Record Process := mkProcess {
  fileDescriptors : list FileDescriptor
}.

Inductive VFSSeekType := SeekSet | SeekCursor | SeekEnd.

(** The fields of [Ext2::Ext2Inode] that VFS.cpp reads and writes, and the
    bytes of the file. *)
Record Ext2Inode := mkExt2Inode {
  typePermissions : Z;
  size0 : Z;
  contents : Z -> byte
}.

(** [Ext2::GetInode] is address arithmetic on the RAM disk: every inode
    number names an inode. *)
Definition Disk := Z -> Ext2Inode.

Definition setInode (disk : Disk) (n : Z) (ino : Ext2Inode) : Disk :=
  fun n' => if n' =? n then ino else disk n'.

Definition wrap32 (x : Z) : Z := x mod 2 ^ 32.

(** Modelled from the spec: [Ext2Inode::Read] is not part of the sources.
    "[read(vnode, buf, count, offset)] iterates logical bytes ... stopping at
    inode size"; "on read past end, the call returns fewer bytes (possibly
    0)".  The result is the bytes placed in the buffer; its length is the
    count that the call returns. *)
Definition InodeRead (ino : Ext2Inode) (count readPos : Z) : list byte :=
  let stop := Z.min (readPos + count) (size0 ino) in
  map (fun k => contents ino (readPos + Z.of_nat k))
    (seq 0 (Z.to_nat (stop - readPos))).

(** Modelled from the spec: [Ext2Inode::Write] is not part of the sources.
    "If the new offset exceeds the inode size on write, the file is
    extended"; "Seek past end ... does not grow the file; on writable file
    the gap is zero-filled on next write (observed via [size0] extension)".
    The call stores [count] bytes at [writePos], zeros when the buffer is
    null, and returns [count].  Its fourth argument, which only
    [RepositionOffset] passes (as [false]), says whether [size0] follows the
    end of the written range; [size0] is a [uint32_t]. *)
Definition InodeWrite (ino : Ext2Inode) (buffer : option (Z -> byte))
  (count writePos : Z) (updateSize : bool) : Ext2Inode * Z :=
  let data := fun p =>
    if (writePos <=? p) && (p <? writePos + count) then
      match buffer with
      | Some b => b (p - writePos)
      | None => Byte.x00
      end
    else contents ino p in
  let size := if updateSize && (size0 ino <? writePos + count)
              then wrap32 (writePos + count) else size0 ino in
  (mkExt2Inode (typePermissions ino) size data, count).

Section WithExt2.

(** [Ext2Inode::GetDirectoryListing()] of the inode with a given number,
    and [Ext2Inode::Create(name)] on a directory inode, which returns the
    number of the new inode: Ext2Inode.cpp is not part of the sources. *)
Variable GetDirectoryListing : Disk -> Z -> list VNode.
Variable InodeCreate : Disk -> Z -> string -> Disk * Z.

(** The values of [VFSOpenFlag] (VFS.h) and of
    [Ext2::InodeTypePermissions::RegularFile] (Ext2Inode.h). *)
Variables OCreate OTruncate OAppend RegularFile : Z.

Definition setOffset (o : Z) (fd : FileDescriptor) : FileDescriptor :=
  mkFileDescriptor (present fd) o (vNode fd).

Definition setPresent (b : bool) (fd : FileDescriptor) : FileDescriptor :=
  mkFileDescriptor b (offset fd) (vNode fd).

Definition setVNode (v : option VNode) (fd : FileDescriptor) : FileDescriptor :=
  mkFileDescriptor (present fd) (offset fd) v.

(** *** TraversePath *)

(** The range-for over the listing with its [break]. *)
Definition FindInListing (listing : list VNode) (pathToken : string)
  : option VNode :=
  find (fun nodeInDirectory => String.eqb (name nodeInDirectory) pathToken)
    listing.

(** [while (remainingPathDepth > 0)]; [currentInode] is the number of the
    inode that the pointer names.  A failed [KAssert] is [None]. *)
Fixpoint TraversePath_loop (disk : Disk) (remainingPathDepth : nat)
  (remainingPath : string) (currentInode : Z) (lastVNode : VNode)
  (pathToken : string) (foundNextInode : bool)
  : option (VNode * bool * string) :=
  match remainingPathDepth with
  | O => Some (lastVNode, foundNextInode, pathToken)
  | S depth' =>
      let pathToken := fst (Split remainingPath "/"%char) in
      let remainingPath := snd (Split remainingPath "/"%char) in
      let hit := FindInListing (GetDirectoryListing disk currentInode) pathToken in
      let foundNextInode := match hit with Some _ => true | None => false end in
      let lastVNode := match hit with Some n => n | None => lastVNode end in
      let currentInode :=
        match hit with Some n => inodeNum n | None => currentInode end in
      Assert (foundNextInode || (depth' =? 0)%nat) ;;;
      TraversePath_loop disk depth' remainingPath currentInode lastVNode
        pathToken foundNextInode
  end.

(** The result is the returned [VNode], [exists] and [finalPathToken]. *)
Definition TraversePath (disk : Disk) (absolutePath : string)
  : option (VNode * bool * string) :=
  let pathToken := fst (Split absolutePath "/"%char) in
  let remainingPath := snd (Split absolutePath "/"%char) in
  Assert (String.eqb pathToken ""%string) ;;;
  let remainingPathDepth := S (Count remainingPath "/"%char) in
  TraversePath_loop disk remainingPathDepth remainingPath 2 (mkVNode ""%string 2)
    pathToken false.

(** *** RepositionOffset *)

Definition RepositionOffset (fileDescriptor : FileDescriptor) (disk : Disk)
  (inode : Z) (offset_ : Z) (seekType : VFSSeekType)
  : FileDescriptor * Disk * Z :=
  let newOffset :=
    match seekType with
    | SeekSet => offset_
    | SeekCursor => wrap64 (offset fileDescriptor + offset_)
    | SeekEnd => wrap64 (size0 (disk inode) + offset_)
    end in
  let disk' :=
    if size0 (disk inode) <? newOffset then
      setInode disk inode
        (fst (InodeWrite (disk inode) None
                (wrap64 (newOffset - size0 (disk inode)))
                (size0 (disk inode)) false))
    else disk in
  (setOffset newOffset fileDescriptor, disk', newOffset).

(** A descriptor number that is no index of the table is outside what
    the model describes ([None]). *)
Definition descriptorAt (process : Process) (descriptor : Z)
  : option (nat * FileDescriptor) :=
  if (0 <=? descriptor)
     && (descriptor <? Z.of_nat (length (fileDescriptors process))) then
    Some (Z.to_nat descriptor,
          Vector.Get zeroDescriptor (fileDescriptors process)
            (Z.to_nat descriptor))
  else None.

Definition inodeOf (fd : FileDescriptor) : option Z :=
  match vNode fd with
  | Some v => Some (inodeNum v)
  | None => None
  end.

Definition RepositionOffset_descriptor (descriptor : Z) (offset_ : Z)
  (seekType : VFSSeekType) (process : Process) (disk : Disk)
  : option (Process * Disk * Z) :=
  d <- descriptorAt process descriptor ;;
  inode <- inodeOf (snd d) ;;
  let r := RepositionOffset (snd d) disk inode offset_ seekType in
  Some (mkProcess (Vector.Put (fst d) (fst (fst r)) (fileDescriptors process)),
        snd (fst r), snd r).

(** *** Close, Read, Write *)

Definition Close (descriptor : Z) (process : Process) : option Process :=
  d <- descriptorAt process descriptor ;;
  Some (mkProcess
          (Vector.Put (fst d) (setOffset 0 (setPresent false (snd d)))
             (fileDescriptors process))).

(** The result carries the bytes read; their number is what [Read]
    returns. *)
Definition Read (descriptor : Z) (count : Z) (process : Process) (disk : Disk)
  : option (list byte * Process * Disk) :=
  d <- descriptorAt process descriptor ;;
  inode <- inodeOf (snd d) ;;
  let data := InodeRead (disk inode) count (offset (snd d)) in
  let readCount := Z.of_nat (length data) in
  let r := RepositionOffset (snd d) disk inode readCount SeekCursor in
  Some (data,
        mkProcess (Vector.Put (fst d) (fst (fst r)) (fileDescriptors process)),
        snd (fst r)).

Definition Write (descriptor : Z) (buffer : Z -> byte) (count : Z)
  (process : Process) (disk : Disk) : option (Z * Process * Disk) :=
  d <- descriptorAt process descriptor ;;
  inode <- inodeOf (snd d) ;;
  let w := InodeWrite (disk inode) (Some buffer) count (offset (snd d)) true in
  let disk1 := setInode disk inode (fst w) in
  let wroteCount := snd w in
  let r := RepositionOffset (snd d) disk1 inode wroteCount SeekCursor in
  Some (wroteCount,
        mkProcess (Vector.Put (fst d) (fst (fst r)) (fileDescriptors process)),
        snd (fst r)).

(** *** Open *)

(** "Find descriptor int": [for (int i = 0; i < GetLength(); ++i)], run for
    the indices [i], ..., [i + n - 1]; the loop has no [break]. *)
Fixpoint FindDescriptor_loop (n i : nat) (fds : list FileDescriptor)
  (descriptorIndex : Z) : list FileDescriptor * Z :=
  match n with
  | O => (fds, descriptorIndex)
  | S n' =>
      if negb (present (Vector.Get zeroDescriptor fds i)) then
        FindDescriptor_loop n' (S i)
          (Vector.Put i (setPresent true (Vector.Get zeroDescriptor fds i)) fds)
          (Z.of_nat i)
      else FindDescriptor_loop n' (S i) fds descriptorIndex
  end.

Definition FindDescriptor (fds : list FileDescriptor)
  : list FileDescriptor * Z :=
  let r := FindDescriptor_loop (Vector.GetLength fds) O fds (-1) in
  if snd r =? -1 then
    (Vector.Push (fst r) (mkFileDescriptor true 0 None),
     Z.of_nat (Vector.GetLength (fst r)))
  else r.

Definition Open (path : string) (flags : Z) (process : Process) (disk : Disk)
  : option (Z * Process * Disk) :=
  let found := FindDescriptor (fileDescriptors process) in
  let descriptorIndex := snd found in
  let i := Z.to_nat descriptorIndex in
  let descriptor := Vector.Get zeroDescriptor (fst found) i in
  (* Find file in ext2 *)
  t <- TraversePath disk path ;;
  let exists_ := snd (fst t) in
  let filename := snd t in
  let descriptor := setVNode (Some (fst (fst t))) descriptor in
  let inode := inodeNum (fst (fst t)) in
  let created :=
    if negb (Z.land flags OCreate =? 0) && negb exists_ then
      let c := InodeCreate disk inode filename in
      (setVNode (Some (mkVNode filename (snd c))) descriptor, fst c)
    else (descriptor, disk) in
  let descriptor := fst created in
  let disk := snd created in
  let disk :=
    if negb (Z.land flags OTruncate =? 0)
       && negb (Z.land (typePermissions (disk inode)) RegularFile =? 0) then
      setInode disk inode
        (mkExt2Inode (typePermissions (disk inode)) 0 (contents (disk inode)))
    else disk in
  let appended :=
    if negb (Z.land flags OAppend =? 0) then
      fst (RepositionOffset descriptor disk inode 0 SeekEnd)
    else (descriptor, disk) in
  Some (descriptorIndex,
        mkProcess (Vector.Put i (fst appended) (fst found)),
        snd appended).

End WithExt2.

End VFS.

(** ** Reference description of path resolution *)

Module VFSSpec.
Import Machine VFS.

(** The runs of characters between the [/]s of the part of an absolute
    path after its leading [/], empty runs included: the tokens that
    [String::Split] cuts off one after the other in [TraversePath]. *)
Fixpoint runs (s : string) : list string :=
  match s with
  | EmptyString => [EmptyString]
  | String a s' =>
      if Ascii.eqb a "/"%char then EmptyString :: runs s'
      else match runs s' with
           | tok :: toks => String a tok :: toks
           | [] => [String a EmptyString]
           end
  end.

(** "Split at [/] into non-empty components": the components of the part
    of an absolute path after its leading [/].  They are all the runs when
    the path has no doubled [/], does not end in [/] and is not [/]
    itself. *)
Definition components (s : string) : list string :=
  filter (fun run => negb (String.eqb run ""%string)) (runs s).

(** The root directory, as [TraversePath] starts from it. *)
Definition root : VNode := mkVNode ""%string 2.

(** Every component of [toks] in turn names an entry of the directory
    reached so far; the result is the vnode of the last one. *)
Fixpoint resolve (listing : Z -> list VNode) (current : VNode)
  (toks : list string) : option VNode :=
  match toks with
  | [] => Some current
  | tok :: toks' =>
      match FindInListing (listing (inodeNum current)) tok with
      | Some next => resolve listing next toks'
      | None => None
      end
  end.

(** The index that the scan is left with: that of the last slot that was
    free, or the one it started from. *)
Fixpoint lastFree (i : nat) (fds : list FileDescriptor) (start : Z) : Z :=
  match fds with
  | [] => start
  | fd :: fds' => lastFree (S i) fds' (if present fd then start else Z.of_nat i)
  end.

(** The offset that [RepositionOffset(fileDescriptor, inode, offset,
    seekType)] asks for: [offset] itself, [offset] from the descriptor's
    offset, or [offset] from the size of the inode. *)
Definition sought (fd : FileDescriptor) (ino : Ext2Inode) (offset_ : Z)
  (seekType : VFSSeekType) : Z :=
  match seekType with
  | SeekSet => offset_
  | SeekCursor => offset fd + offset_
  | SeekEnd => size0 ino + offset_
  end.

(** The inode after a seek to [newOffset] past its end: same size, zeros
    stored from the old size up to [newOffset]. *)
Definition gapZeroed (ino : Ext2Inode) (newOffset : Z) : Ext2Inode :=
  mkExt2Inode (typePermissions ino) (size0 ino)
    (fun p =>
       if (size0 ino <=? p) && (p <? size0 ino + (newOffset - size0 ino))
       then Byte.x00 else contents ino p).

End VFSSpec.

(** ** InterruptHandlers.cpp: the system-call entry *)

(** Modelled from the spec: Error.h is not part of the sources.  The kinds
    are those of the specification's error enumeration, next to
    [Error::None]. *)
Module Error.

Inductive t :=
| None
| NotFound
| NotSupported
| InvalidArgument
| NoSuchDescriptor
| AccessDenied
| OutOfMemory
| InvalidFormat
| IoError
| WouldBlock.

Definition isNone (e : t) : bool :=
  match e with
  | None => true
  | _ => false
  end.

End Error.

Module Syscall.
Import Machine Halting Sched.

Section Handler.

(** [static_cast<int64_t>(error)]: the enumerators' values are declared
    in Error.h. *)
Variable errorValue : Error.t -> Z.

(** [SystemCall(type, arg0, ..., arg5, interruptFrame, error)] of
    SystemCall.cpp, which is not part of the sources: it returns a value,
    may set [error], and may rewrite the frame it is given (a call that
    switches tasks does); [None] is a call that halts the kernel. *)
Variable SystemCall :
  Z -> Z -> Z -> Z -> Z -> Z -> Z -> InterruptFrame ->
  option (Z * Error.t * InterruptFrame).

Definition SystemCallHandler (interruptFrame : InterruptFrame)
  : option InterruptFrame :=
  r <- SystemCall (rax interruptFrame) (rdi interruptFrame)
         (rsi interruptFrame) (rdx interruptFrame) (rcx interruptFrame)
         (r8 interruptFrame) (r9 interruptFrame) interruptFrame ;;
  let returned := fst (fst r) in
  let error := snd (fst r) in
  let interruptFrame := set_rax returned (snd r) in
  if negb (Error.isNone error) then
    Some (set_rax (wrap64 (- errorValue error)) interruptFrame)
  else Some interruptFrame.

End Handler.

End Syscall.

(** ** ELFLoader.cpp *)

Module ELF.
Import Machine Bytes Mem.

(** A call ends by returning, by a failed [Assert] (the kernel halts), or,
    in the model only, by using up the bound on nested interpreter loads. *)
Inductive Run (A : Type) :=
| Done (a : A)
| Halted
| OutOfFuel.
Arguments Done {A} a.
Arguments Halted {A}.
Arguments OutOfFuel {A}.

Definition bind {A B} (m : Run A) (k : A -> Run B) : Run B :=
  match m with
  | Done a => k a
  | Halted => Halted
  | OutOfFuel => OutOfFuel
  end.

Definition Assert (c : bool) : Run unit := if c then Done tt else Halted.

Definition USER_STACK_BASE : Z := 0x0000800000000000 - 0x1000.
Definition USER_STACK_SIZE : Z := 0x2000.
Definition RTDL_ADDR : Z := 0x40000000.

Definition field (offset size : nat) (bs : list byte) : Z :=
  littleEndian (firstn size (skipn offset bs)).

(** Modelled from the spec: ELF.h is not part of the sources.  "Standard
    System V x86_64 ELF64 with program headers": the header is 64 bytes,
    with the type at byte 16, the entry at 24, the size and the number of
    program-header entries at 54 and 56; a program header is 56 bytes, with
    the type at 0, the file offset at 8, the virtual address at 16 and the
    sizes in the file and in memory at 32 and 40.  [ET_EXEC] is 2, [ET_DYN]
    is 3; [PT_LOAD] is 1, [PT_INTERP] is 3, [PT_PHDR] is 6. *)
Record ELFHeader := mkELFHeader {
  eIdentMagic : list byte;
  type : Z;
  entry : Z;
  programHeaderTableEntrySize : Z;
  programHeaderTableEntryCount : Z
}.

Record ProgramHeader := mkProgramHeader {
  ph_type : Z;
  offsetInFile : Z;
  virtAddr : Z;
  segmentSizeInFile : Z;
  segmentSizeInMemory : Z
}.

Definition sizeof_ELFHeader : Z := 64.
Definition sizeof_ProgramHeader : Z := 56.

Definition Executable : Z := 2.
Definition Shared : Z := 3.
Definition Load : Z := 1.
Definition Interpreter : Z := 3.
Definition ProgramHeaderTable : Z := 6.

Definition readELFHeader (bs : list byte) : ELFHeader :=
  mkELFHeader (firstn 4 bs) (field 16 2 bs) (field 24 8 bs) (field 54 2 bs)
    (field 56 2 bs).

Definition readProgramHeader (bs : list byte) : ProgramHeader :=
  mkProgramHeader (field 0 4 bs) (field 8 8 bs) (field 16 8 bs)
    (field 32 8 bs) (field 40 8 bs).

(** Modelled from the spec: the VFS calls of ELFLoader.cpp
    ([VFS::Open(path, flags, error)], [VFS::Read(fd, buffer, count)],
    [VFS::RepositionOffset(fd, offset, Set, error)]) are those of a VFS
    later than VFS.cpp.  A file is its bytes; "advance the descriptor's offset
    by the byte count actually transferred"; "on read past end, the call
    returns fewer bytes (possibly 0)". *)
Definition Files := string -> option (list byte).

Record OpenFile := mkOpenFile {
  data : list byte;
  position : Z
}.

Definition FileRead (f : OpenFile) (count : Z) : list byte * OpenFile :=
  let bs := firstn (Z.to_nat count) (skipn (Z.to_nat (position f)) (data f)) in
  (bs, mkOpenFile (data f) (position f + Z.of_nat (length bs))).

Definition FileSeekSet (f : OpenFile) (offset : Z) : OpenFile :=
  mkOpenFile (data f) offset.

(** What the loader builds: the memory it writes through higher-half
    pointers, the pages given to [pagingManager->MapMemory] (virtual page,
    physical frame), and the next frame of the allocator. *)
Record Loader := mkLoader {
  memory : Memory;
  mapped : list (Z * Z);
  nextFrame : Z
}.

(** Modelled from the spec: the page frame allocator is not part of the
    sources.  "Allocate a 4 KiB physical frame": the call hands out the
    frames at [nextFrame] and moves [nextFrame] past them. *)
Definition RequestPageFrames (count : Z) (l : Loader) : Z * Loader :=
  (nextFrame l,
   mkLoader (memory l) (mapped l) (nextFrame l + count * 0x1000)).

Definition MapMemory (virtAddr_ physAddr : Z) (l : Loader) : Loader :=
  mkLoader (memory l) (mapped l ++ [(virtAddr_, physAddr)]) (nextFrame l).

(** Storing what a read returned at a pointer. *)
Fixpoint storeBytes (addr : Z) (bs : list byte) (m : Memory) : Memory :=
  match bs with
  | [] => m
  | b :: bs' => storeBytes (addr + 1) bs' (store m addr b)
  end.

(** [*--stackHigherHalf = v] on a [uintptr_t*]: eight bytes, little
    endian. *)
Definition store64 (addr v : Z) (m : Memory) : Memory :=
  storeBytes addr
    (map (fun i => byteOf (v / 256 ^ Z.of_nat i)) (seq 0 8)) m.

(** *** LoadProgramHeader *)

(** The body of [for (page = 0; page < segmentPagesCount; ++page)] for the
    pages [page], ..., [page + n - 1]. *)
Fixpoint LoadProgramHeader_loop (n : nat) (page : Z) (baseAddr : Z)
  (programHeader : ProgramHeader) (elfFile : OpenFile) (fileReadCount : Z)
  (l : Loader) : OpenFile * Loader :=
  match n with
  | O => (elfFile, l)
  | S n' =>
      let r := RequestPageFrames 1 l in
      let physAddr := fst r in
      let virtAddr_ := wrap64 (baseAddr + wrap64 (page * 0x1000)) in
      let pageAddr := wrap64 (virtAddr_ - virtAddr_ mod 0x1000) in
      let l := MapMemory pageAddr physAddr (snd r) in
      let higherHalfAddr := HigherHalf physAddr in
      let m := Memset higherHalfAddr Byte.x00 0x1000 (memory l) in
      let higherHalfAddr := wrap64 (higherHalfAddr + baseAddr mod 0x1000) in
      let readCount :=
        if segmentSizeInFile programHeader <? wrap64 (fileReadCount + 0x1000)
        then segmentSizeInFile programHeader mod 0x1000 else 0x1000 in
      let rd := FileRead elfFile readCount in
      let m := storeBytes higherHalfAddr (fst rd) m in
      LoadProgramHeader_loop n' (page + 1) baseAddr programHeader (snd rd)
        (wrap64 (fileReadCount + Z.of_nat (length (fst rd))))
        (mkLoader m (mapped l) (nextFrame l))
  end.

Definition LoadProgramHeader (elfFile : OpenFile)
  (programHeader : ProgramHeader) (elfHeader : ELFHeader) (l : Loader)
  : OpenFile * Loader :=
  let segmentPagesCount :=
    wrap64 (wrap64 (segmentSizeInMemory programHeader - 1) / 0x1000 + 1) in
  let elfFile := FileSeekSet elfFile (offsetInFile programHeader) in
  let baseAddr :=
    if type elfHeader =? Shared
    then wrap64 (virtAddr programHeader + RTDL_ADDR)
    else virtAddr programHeader in
  LoadProgramHeader_loop (Z.to_nat segmentPagesCount) 0 baseAddr
    programHeader elfFile 0 l.

(** *** LoadELF *)

(** What the loop over the program headers carries. *)
Record Progress := mkProgress {
  elfFile : OpenFile;
  loader : Loader;
  entryRef : Z;
  stackPtrRef : Z;
  hasDynamicLinking : bool;
  programHeaderTableAddr : Z
}.

Section Headers.

(** The nested [LoadELF(String(rtdlPath), pagingManager, entry,
    stackPtr)]. *)
Variable LoadELF_nested : string -> Loader -> Z -> Z -> Run (Loader * Z * Z).

Variable elfHeader : ELFHeader.

Fixpoint LoadELF_headers (headers : list ProgramHeader) (p : Progress)
  : Run Progress :=
  match headers with
  | [] => Done p
  | programHeader :: headers' =>
      if ph_type programHeader =? Load then
        let r := LoadProgramHeader (elfFile p) programHeader elfHeader (loader p) in
        LoadELF_headers headers'
          (mkProgress (fst r) (snd r) (entryRef p) (stackPtrRef p)
             (hasDynamicLinking p) (programHeaderTableAddr p))
      else if ph_type programHeader =? ProgramHeaderTable then
        LoadELF_headers headers'
          (mkProgress (elfFile p) (loader p) (entryRef p) (stackPtrRef p)
             (hasDynamicLinking p) (virtAddr programHeader))
      else if ph_type programHeader =? Interpreter then
        let f := FileSeekSet (elfFile p) (offsetInFile programHeader) in
        let rd := FileRead f (segmentSizeInFile programHeader) in
        let rtdlPath := string_of_list_byte (beforeNul (fst rd)) in
        bind (LoadELF_nested rtdlPath (loader p) (entryRef p) (stackPtrRef p))
          (fun n =>
             LoadELF_headers headers'
               (mkProgress (snd rd) (fst (fst n)) (snd (fst n)) (snd n) true
                  (programHeaderTableAddr p)))
      else LoadELF_headers headers' p
  end.

End Headers.

(** The thirteen words that [LoadELF] pushes for a dynamically linked
    image, in the order of the pushes. *)
Definition initialStackWords (elfHeader : ELFHeader)
  (programHeaderTableAddr_ : Z) : list Z :=
  [0; 0; programHeaderTableAddr_; 3;
   programHeaderTableEntrySize elfHeader; 4;
   programHeaderTableEntryCount elfHeader; 5;
   entry elfHeader; 9;
   0; 0; 0].

(** [*--stackHigherHalf = v] for each word in turn. *)
Fixpoint pushWords (words : list Z) (stackHigherHalf : Z) (m : Memory)
  : Z * Memory :=
  match words with
  | [] => (stackHigherHalf, m)
  | v :: words' =>
      let p := wrap64 (stackHigherHalf - 8) in
      pushWords words' p (store64 p v m)
  end.

(** [for (page = 0; page < USER_STACK_SIZE; page += 0x1000)]. *)
Fixpoint mapStack (n : nat) (page : Z) (stackLowestVirtAddr stackLowestPhysAddr : Z)
  (stackPhysAddr : Z) (l : Loader) : Z * Loader :=
  match n with
  | O => (stackPhysAddr, l)
  | S n' =>
      let stackPhysAddr := wrap64 (stackLowestPhysAddr + page) in
      let virtAddr_ := wrap64 (stackLowestVirtAddr + page) in
      mapStack n' (page + 0x1000) stackLowestVirtAddr stackLowestPhysAddr
        stackPhysAddr (MapMemory virtAddr_ stackPhysAddr l)
  end.

(** [entry] and [stackPtr] are references: their values come in and go
    out.  [fuel] bounds the depth of nested interpreter loads. *)
Fixpoint LoadELF (fuel : nat) (files : Files) (path : string) (l : Loader)
  (entry_ stackPtr : Z) : Run (Loader * Z * Z) :=
  match fuel with
  | O => OutOfFuel
  | S fuel' =>
      match files path with
      | None => Halted (* Assert(elfFile != -1) *)
      | Some bytes =>
          let elfFile0 := mkOpenFile bytes 0 in
          let rd := FileRead elfFile0 sizeof_ELFHeader in
          let elfHeader := readELFHeader (fst rd) in
          bind (Assert (Z.of_nat (length (fst rd)) =? sizeof_ELFHeader)) (fun _ =>
          bind (Assert
                  (match eIdentMagic elfHeader with
                   | [b0; b1; b2; b3] =>
                       (byteValue b0 =? 0x7f) && (byteValue b1 =? 0x45)
                       && (byteValue b2 =? 0x4c) && (byteValue b3 =? 0x46)
                   | _ => false
                   end)) (fun _ =>
          bind (Assert (programHeaderTableEntrySize elfHeader
                        =? sizeof_ProgramHeader)) (fun _ =>
          bind (Assert ((type elfHeader =? Executable)
                        || (type elfHeader =? Shared))) (fun _ =>
          let programHeaderTableSize :=
            programHeaderTableEntryCount elfHeader
            * programHeaderTableEntrySize elfHeader in
          let rt := FileRead (snd rd) programHeaderTableSize in
          bind (Assert (programHeaderTableSize =? Z.of_nat (length (fst rt))))
            (fun _ =>
          let programHeaderTable :=
            map (fun i =>
                   readProgramHeader
                     (skipn (i * Z.to_nat sizeof_ProgramHeader) (fst rt)))
              (seq 0 (Z.to_nat (programHeaderTableEntryCount elfHeader))) in
          bind (LoadELF_headers (LoadELF fuel' files) elfHeader
                  programHeaderTable
                  (mkProgress (snd rt) l entry_ stackPtr false 0)) (fun p =>
          if type elfHeader =? Shared then
            Done (loader p, wrap64 (RTDL_ADDR + entry elfHeader), stackPtrRef p)
          else if type elfHeader =? Executable then
            let stackLowestVirtAddr := USER_STACK_BASE - USER_STACK_SIZE in
            let r := RequestPageFrames (USER_STACK_SIZE / 0x1000) (loader p) in
            let ms :=
              mapStack (Z.to_nat (USER_STACK_SIZE / 0x1000)) 0
                stackLowestVirtAddr (fst r) 0 (snd r) in
            let stackHigherHalfAddr := wrap64 (HigherHalf (fst ms) + 0x1000) in
            let l := snd ms in
            if hasDynamicLinking p then
              let pushed :=
                pushWords
                  (initialStackWords elfHeader (programHeaderTableAddr p))
                  stackHigherHalfAddr (memory l) in
              Done (mkLoader (snd pushed) (mapped l) (nextFrame l),
                    entryRef p,
                    wrap64 (USER_STACK_BASE
                            - wrap64 (stackHigherHalfAddr - fst pushed)))
            else
              Done (l, entry elfHeader,
                    wrap64 (USER_STACK_BASE
                            - wrap64 (stackHigherHalfAddr - stackHigherHalfAddr)))
          else Done (loader p, entryRef p, stackPtrRef p)))))))
      end
  end.

End ELF.

(** ** Ext2.cpp: the directory scan *)

Module Ext2.
Import Machine Bytes.

(** [struct Ext2DirectoryEntry] with the name that follows it on disk. *)
Record Ext2DirectoryEntry := mkExt2DirectoryEntry {
  inodeNum : Z;
  entrySize : Z;
  nameLength : Z;
  typeIndicator : Z;
  name : list byte
}.

Section Listing.

(** A read that stops at the inode's size leaves the rest of its buffer
    as it was.  [stackByte p] is what [nameLengthLowByte] holds before the
    read of the round at offset [p], and [heapBytes p i] what byte [i] of
    that round's [KMalloc] block holds (and what lies behind the block). *)
Variable stackByte : Z -> byte.
Variable heapBytes : Z -> Z -> byte.

(** The buffer after [directoryInode->Read(buffer, count, readPos)]. *)
Definition readInto (ino : VFS.Ext2Inode) (count readPos : Z)
  (before : Z -> byte) : Z -> byte :=
  let got := VFS.InodeRead ino count readPos in
  fun i =>
    if (0 <=? i) && (i <? Z.of_nat (length got))
    then nth (Z.to_nat i) got Byte.x00 else before i.

(** The two reads of one round of the scan, at offset [parsedLength], and
    the fields and the name as the round and [ConstructVNode] take them
    from the buffer. *)
Definition entryAt (ino : VFS.Ext2Inode) (parsedLength : Z)
  : Ext2DirectoryEntry :=
  let nameLengthLowByte :=
    byteValue
      (readInto ino 1 (wrap64 (parsedLength + 6))
         (fun _ => stackByte parsedLength) 0) in
  let trueEntrySize := 8 + nameLengthLowByte in
  let directoryEntry :=
    readInto ino trueEntrySize parsedLength (heapBytes parsedLength) in
  let bytesAt := fun (o : Z) (n : nat) =>
    map (fun k => directoryEntry (o + Z.of_nat k)) (seq 0 n) in
  mkExt2DirectoryEntry
    (littleEndian (bytesAt 0 4%nat))
    (littleEndian (bytesAt 4 2%nat))
    (byteValue (directoryEntry 6))
    (byteValue (directoryEntry 7))
    (bytesAt 8 (Z.to_nat (byteValue (directoryEntry 6)))).

Definition ConstructVNode (directoryEntry : Ext2DirectoryEntry) : VFS.VNode :=
  VFS.mkVNode (string_of_list_byte (beforeNul (name directoryEntry)))
    (inodeNum directoryEntry).

(** [while (parsedLength < directoryInode->size0)]; [None] when [fuel]
    rounds did not end the loop. *)
Fixpoint GetDirectoryListing_loop (fuel : nat) (directoryInode : VFS.Ext2Inode)
  (parsedLength : Z) (vNodes : list VFS.VNode) : option (list VFS.VNode) :=
  match fuel with
  | O => None
  | S fuel' =>
      if parsedLength <? VFS.size0 directoryInode then
        let directoryEntry := entryAt directoryInode parsedLength in
        let vNodes :=
          if negb (inodeNum directoryEntry =? 0)
          then Vector.Push vNodes (ConstructVNode directoryEntry)
          else vNodes in
        GetDirectoryListing_loop fuel' directoryInode
          (wrap64 (parsedLength + entrySize directoryEntry)) vNodes
      else Some vNodes
  end.

Definition GetDirectoryListing (fuel : nat) (directoryInode : VFS.Ext2Inode)
  : option (list VFS.VNode) :=
  GetDirectoryListing_loop fuel directoryInode 0 [].

(** *** The entries on disk *)

(** [es] are the entries found from offset [p] on, each one
    [entrySize] after the one before. *)
Fixpoint entriesFrom (ino : VFS.Ext2Inode) (p : Z)
  (es : list Ext2DirectoryEntry) : Prop :=
  match es with
  | [] => True
  | e :: es' => e = entryAt ino p /\ entriesFrom ino (p + entrySize e) es'
  end.

Definition totalSize (es : list Ext2DirectoryEntry) : Z :=
  fold_right Z.add 0 (map entrySize es).

Definition inUse (e : Ext2DirectoryEntry) : bool := negb (inodeNum e =? 0).

End Listing.

End Ext2.

(** ** Ext2.cpp: the geometry of the file system *)

Module Ext2Layout.
Import Machine Halting.

(** The fields of [struct Ext2Superblock] that [Initialize] and [GetInode]
    read. *)
Record Ext2Superblock := mkExt2Superblock {
  inodesCount : Z;
  blocksCount : Z;
  blockSizeLog2Minus10 : Z;
  blocksPerBlockGroup : Z;
  inodesPerBlockGroup : Z;
  ext2Signature : Z;
  fileSystemState : Z;
  inodeSize : Z
}.

Definition INODE_ROOT_DIR : Z := 2.

Definition wrap32 (x : Z) : Z := x mod 2 ^ 32.

(** The globals that [Initialize] sets. *)
Record Geometry := mkGeometry {
  blockSize : Z;
  blockGroupsCount : Z;
  blockGroupDescTableDiskAddr : Z
}.

(** [a / b + (a % b > 0 ? 1 : 0)] on [uint32_t]. *)
Definition groupsFor (count perGroup : Z) : Z :=
  wrap32 (count / perGroup + (if 0 <? count mod perGroup then 1 else 0)).

(** [Initialize] up to the setting of [blockGroupDescTable]; what follows
    sets [rootDirInode] with [GetInode] and prints directory listings.
    [1024 << n] is a shift of an [int]. *)
Definition Initialize (superblock : Ext2Superblock) : option Geometry :=
  Assert (ext2Signature superblock =? 0xef53) ;;;
  Assert (fileSystemState superblock =? 1) ;;;
  let blockSize_ := Z.shiftl 1024 (blockSizeLog2Minus10 superblock) in
  let blockGroupsCount_ :=
    groupsFor (blocksCount superblock) (blocksPerBlockGroup superblock) in
  let blockGroupsCountCheck :=
    groupsFor (inodesCount superblock) (inodesPerBlockGroup superblock) in
  Assert (blockGroupsCount_ =? blockGroupsCountCheck) ;;;
  Some (mkGeometry blockSize_ blockGroupsCount_
          (wrap32 (blockSize_ * (if blockSize_ =? 1024 then 2 else 1)))).

(** [GetInode]: [inodeTableStartBlock g] is that field of entry [g] of the
    block group descriptor table.  The result is the offset of the inode in
    the RAM disk ([diskAddr]); the pointer returned is [ramDiskAddr] plus
    it. *)
Definition blockGroupIndexOf (superblock : Ext2Superblock) (inodeNum : Z) : Z :=
  wrap32 (inodeNum - 1) / inodesPerBlockGroup superblock.

Definition inodeIndexOf (superblock : Ext2Superblock) (inodeNum : Z) : Z :=
  wrap32 (inodeNum - 1) mod inodesPerBlockGroup superblock.

Definition GetInode (superblock : Ext2Superblock) (blockSize_ : Z)
  (inodeTableStartBlock : Z -> Z) (inodeNum : Z) : Z :=
  let blockGroupIndex := blockGroupIndexOf superblock inodeNum in
  let inodeIndex := inodeIndexOf superblock inodeNum in
  wrap64 (wrap64 (inodeTableStartBlock blockGroupIndex * blockSize_)
          + wrap32 (inodeIndex * inodeSize superblock)).

End Ext2Layout.

(** ** APIC.cpp *)

Module APIC.
Import Machine.

Definition wrap32 (x : Z) : Z := x mod 2 ^ 32.

(** [SetLAPICTimerFrequency]: the value stored in the 32-bit initial
    count register. *)
Definition SetLAPICTimerFrequency (lapicTimerBaseFrequency frequency : Z) : Z :=
  let reloadValue := lapicTimerBaseFrequency / frequency in
  let reloadValue :=
    if frequency / 2 <? lapicTimerBaseFrequency mod frequency
    then wrap64 (reloadValue + 1) else reloadValue in
  wrap32 reloadValue.

(** [SetLAPICTimerMask]: the LVT timer register after the call. *)
Definition SetLAPICTimerMask (mask : bool) (lvtTimer : Z) : Z :=
  if mask then Z.lor lvtTimer (Z.shiftl 1 16)
  else Z.land lvtTimer (wrap32 (Z.lnot (Z.shiftl 1 16))).

(** [SetLAPICTimerMode]: the LVT timer register after the two
    statements. *)
Definition SetLAPICTimerMode (mode : Z) (lvtTimer : Z) : Z :=
  let cleared := Z.land lvtTimer (wrap32 (Z.lnot 0x60000)) in
  wrap32 (Z.lor cleared (Z.shiftl mode 17)).

End APIC.

(** ** IDT.cpp: gate descriptors *)

Module IDT.
Import Machine.

Record IDTGateDescriptor := mkIDTGateDescriptor {
  offset0 : Z;
  segmentSelector : Z;
  ist : Z;
  typeAttributes : Z;
  offset1 : Z;
  offset2 : Z;
  reserved1 : Z
}.

(** [struct IDT] with the file's counter of handlers set. *)
Record Table := mkTable {
  entries : Z -> IDTGateDescriptor;
  initializedInterruptHandlersCount : Z
}.

(** [IDT::SetInterruptHandler]; the fields are 16, 8 and 32 bits wide,
    the counter is an [int]. *)
Definition SetInterruptHandler (interrupt handler ring ist_ : Z) (t : Table)
  : Table :=
  let old := entries t interrupt in
  let gate :=
    mkIDTGateDescriptor
      (handler mod 2 ^ 16)
      0x28
      ist_
      (Z.lor 0x8e (Z.shiftl ring 5) mod 2 ^ 8)
      (Z.shiftr handler 16 mod 2 ^ 16)
      (Z.shiftr handler 32 mod 2 ^ 32)
      (reserved1 old) in
  mkTable (fun i => if i =? interrupt then gate else entries t i)
    (initializedInterruptHandlersCount t + 1).

(** The handler address that the processor reads from a gate. *)
Definition gateOffset (g : IDTGateDescriptor) : Z :=
  offset0 g + 2 ^ 16 * offset1 g + 2 ^ 32 * offset2 g.

(** The descriptor privilege level, bits 5 and 6 of the type byte. *)
Definition gateDPL (g : IDTGateDescriptor) : Z :=
  Z.land (Z.shiftr (typeAttributes g) 5) 3.

End IDT.

(** ** Reading what the loader wrote *)

Module ELFSpec.
Import Machine Bytes Mem ELF.

(** [*p] for a [uintptr_t* p]: eight bytes, little endian. *)
Definition load64 (m : Memory) (addr : Z) : Z :=
  littleEndian (map (fun i => m (addr + Z.of_nat i)) (seq 0 8)).

(** The program headers that [LoadELF] reads from an image, as its second
    [VFS::Read] delivers them. *)
Definition programHeaderTableOf (image : list byte) : list ProgramHeader :=
  let rd := FileRead (mkOpenFile image 0) sizeof_ELFHeader in
  let elfHeader := readELFHeader (fst rd) in
  let rt :=
    FileRead (snd rd)
      (programHeaderTableEntryCount elfHeader
       * programHeaderTableEntrySize elfHeader) in
  map (fun i =>
         readProgramHeader (skipn (i * Z.to_nat sizeof_ProgramHeader) (fst rt)))
    (seq 0 (Z.to_nat (programHeaderTableEntryCount elfHeader))).

(** The address that [LoadELF] has in [programHeaderTableAddr] after the
    program headers: that of the last [ProgramHeaderTable] header, 0 when
    there is none. *)
Definition programHeaderTableAddrOf (headers : list ProgramHeader) : Z :=
  fold_left
    (fun addr programHeader =>
       if ph_type programHeader =? ProgramHeaderTable
       then virtAddr programHeader else addr)
    headers 0.

(** Whether one of the program headers names an interpreter. *)
Definition hasInterpreter (headers : list ProgramHeader) : bool :=
  existsb (fun programHeader => ph_type programHeader =? Interpreter) headers.

(** The address that [LoadProgramHeader] loads a segment at. *)
Definition baseAddrOf (programHeader : ProgramHeader) (elfHeader : ELFHeader)
  : Z :=
  if type elfHeader =? Shared
  then wrap64 (virtAddr programHeader + RTDL_ADDR)
  else virtAddr programHeader.

(** The bytes that [LoadProgramHeader] has read when it has gone through
    [pages] pages of a segment with [fileSize] bytes in the file and reads
    are never short. *)
Definition readAfter (fileSize pages : Z) : Z :=
  if pages <=? fileSize / 0x1000 then pages * 0x1000
  else fileSize / 0x1000 * 0x1000
       + (pages - fileSize / 0x1000) * (fileSize mod 0x1000).

End ELFSpec.

(** ** Reference descriptions of the timer protocol

    The timer pass of [Sched.UpdateTimerEntries] stated without a loop
    index, to compare the loop with. *)

Module SchedSpec.
Import Machine Halting Sched.

(** An entry has run out when its remaining time minus [elapsed] is at
    most 0. *)
Definition expired (elapsed : Z) (e : TimerEntry.t) : bool :=
  TimerEntry.milliseconds e <=? elapsed.

Definition decremented (elapsed : Z) (e : TimerEntry.t) : TimerEntry.t :=
  TimerEntry.mk (TimerEntry.milliseconds e - elapsed)
    (TimerEntry.unblockOnExpire e) (TimerEntry.pid e).

(** The entries that stay, each one decremented. *)
Definition remaining (elapsed : Z) (timers : list TimerEntry.t)
  : list TimerEntry.t :=
  map (decremented elapsed)
    (filter (fun e => negb (expired elapsed e)) timers).

(** The PIDs to unblock, in the order of the entries. *)
Definition toUnblock (elapsed : Z) (timers : list TimerEntry.t) : list Z :=
  map TimerEntry.pid
    (filter (fun e => expired elapsed e && TimerEntry.unblockOnExpire e)
       timers).

(** [Unblock], with its guard [Assert(timerEntry.pid != 0)], for each PID
    of a list in turn. *)
Fixpoint UnblockAll (pids : list Z) (q : list Task) : option (list Task) :=
  match pids with
  | [] => Some q
  | p :: pids' =>
      Assert (negb (p =? 0)) ;;;
      q' <- Unblock p q ;;
      UnblockAll pids' q'
  end.

(** The smallest remaining time, and 100 when it is smaller or when
    there is no entry. *)
Definition minimumWith100 (timers : list TimerEntry.t) : Z :=
  fold_right Z.min 100 (map TimerEntry.milliseconds timers).

(** What a queue looks like after the tasks named by [pids] were
    unblocked. *)
Record Unblocked (pids : list Z) (q q' : list Task) : Prop := {
  unblocked_length : length q' = length q;
  unblocked_Normal :
    forall p, In p pids ->
      exists i, GetTask p q' = Some i /\
                state (Vector.Get zeroTask q' i) = Normal;
  unblocked_rest :
    forall j, pid (Vector.Get zeroTask q' j) = pid (Vector.Get zeroTask q j) /\
              frame (Vector.Get zeroTask q' j) = frame (Vector.Get zeroTask q j) /\
              (~ In (pid (Vector.Get zeroTask q j)) pids ->
               Vector.Get zeroTask q' j = Vector.Get zeroTask q j)
}.

(** The first task with PID [p] is in the queue and [Blocked]. *)
Definition BlockedIn (q : list Task) (p : Z) : Prop :=
  exists i, GetTask p q = Some i /\ state (Vector.Get zeroTask q i) = Blocked.

(** The entry as the loop rewrites it, with the subtraction on
    [uint64_t]. *)
Definition rewritten (deltaTime : Z) (e : TimerEntry.t) : TimerEntry.t :=
  TimerEntry.mk (wrap64 (TimerEntry.milliseconds e - deltaTime))
    (TimerEntry.unblockOnExpire e) (TimerEntry.pid e).

(** *** The selection loop without an index *)

Definition isNormal (t : Task) : bool := TaskState_eqb (state t) Normal.

(** What [SelectLoop] does to the slots from its index on: a [Normal]
    task is taken out and becomes the current task, and the slot that moves
    into its place is passed over. *)
Fixpoint selectFrom (slots : list Task) (current : Task) (found : bool)
  : list Task * Task * bool :=
  match slots with
  | [] => ([], current, found)
  | t :: rest =>
      if isNormal t then
        match rest with
        | [] => ([], t, true)
        | u :: rest' =>
            let r := selectFrom rest' t true in
            (u :: fst (fst r), snd (fst r), snd r)
        end
      else
        let r := selectFrom rest current found in
        (t :: fst (fst r), snd (fst r), snd r)
  end.

(** The queue that the selection loop of [SwitchToNextTask] starts from:
    the queue after the timer pass, with the running task and its saved frame
    at the tail when [restoreFrame] is set. *)
Definition queueBeforeSelection (interruptFrame : InterruptFrame)
  (s : Scheduler) : list Task :=
  if restoreFrame s
  then taskQueue s ++ [set_frame interruptFrame (currentTask s)]
  else taskQueue s.

End SchedSpec.

(** ** Sample data *)

Module Samples.
Import Mem Sched.

Definition sampleTask (p : Z) (st : TaskState) (stackTop : Z) : Task :=
  mkTask p (set_rax (1000 + p) zeroFrame) st 0 0 0 stackTop (stackTop - 0x3000).

Definition task1 : Task := sampleTask 1 Normal 0xffff800000103000.
Definition task2 : Task := sampleTask 2 Blocked 0xffff800000203000.
Definition task3 : Task := sampleTask 3 Normal 0xffff800000303000.
Definition task4 : Task := sampleTask 4 WaitingForChild 0xffff800000403000.
Definition idle : Task := sampleTask 0 Normal 0xffff800000003000.

(** A core whose running task was dropped ([restoreFrame] is false), with
    three queued tasks and no timer entry. *)
Definition threeQueued : Scheduler :=
  mkScheduler [task1; task2; task3] idle idle false [] 100 100 0 0.

(** A core running [task4] (made [Normal]) with the same three queued. *)
Definition runningWithThreeQueued : Scheduler :=
  mkScheduler [task1; task2; task3] (set_state Normal task4) idle true []
    100 100 0 0.

(** Two sleepers and a plain 50 ms timer; task 2 has 10 ms left. *)
Definition sleepers : Scheduler :=
  mkScheduler [task1; task2; set_state Blocked task3] idle idle false
    [TimerEntry.mk 30 true 3; TimerEntry.mk 10 true 2;
     TimerEntry.mk 50 false 0]
    20 20 0 0.

(** [task1] is running and inside a system call; its system-call stack
    lies at physical 0x100000. *)
Definition selectors : Selectors := mkSelectors 0x1b 0x08 0x23 0x10 0x202.

Definition stackBytes : Memory :=
  fun a => if Z.even a then Byte.x2a else Byte.x07.

Definition forking : Kernel :=
  mkKernel (mkScheduler [task2] task1 idle true [] 100 100
              (syscallStackAddr task1) 0)
    stackBytes 5.

(** The allocators answer a fork with three fresh objects and the three
    page frames at physical 0x500000. *)
Definition forkAllocation : ForkAllocation :=
  mkForkAllocation 0x9000 0xa000 0xb000 0x500000.

(** Task 1 runs and is not queued; 100 ms are armed. *)
Definition sleepCaller : Scheduler :=
  mkScheduler [task2] task1 idle true [] 100 100 0 0.

(** The scheduler as [SleepCurrentTask(50)] of task 1 enters
    [SwitchToNextTask]: the timer entry is pushed and the caller is
    [Blocked], still the current task and not queued. *)
Definition sleepEntered : Scheduler :=
  mkScheduler [task2] (set_state Blocked task1) idle true
    [TimerEntry.mk 50 true 1] 100 100 0 0.

(** *** A small file system *)

Definition emptyFile : VFS.Ext2Inode :=
  VFS.mkExt2Inode 0x81a4 0 (fun _ => Byte.x00).

Definition disk : VFS.Disk := fun _ => emptyFile.

(** [/] holds [bin] and [a.txt]; [/bin] holds [init]. *)
Definition listing (d : VFS.Disk) (inode : Z) : list VFS.VNode :=
  if inode =? 2 then
    [VFS.mkVNode "bin" 11; VFS.mkVNode "a.txt" 12]
  else if inode =? 11 then [VFS.mkVNode "init" 13]
  else [].

Definition create (d : VFS.Disk) (directory : Z) (name : string)
  : VFS.Disk * Z := (d, 14).

Definition openDescriptor : VFS.FileDescriptor :=
  VFS.mkFileDescriptor true 0 (Some (VFS.mkVNode "a.txt" 12)).

(** A table after three [Open]s and the [Close] of descriptors 1 and 2. *)
Definition twoClosed : VFS.Process :=
  VFS.mkProcess [openDescriptor; VFS.zeroDescriptor; VFS.zeroDescriptor].

(** [a.txt] holds the five bytes [hello], with stale bytes behind them. *)
Definition hello : VFS.Ext2Inode :=
  VFS.mkExt2Inode 0x81a4 5 (fun _ => Byte.x68).

Definition helloDisk : VFS.Disk := VFS.setInode disk 12 hello.

Definition oneOpen : VFS.Process := VFS.mkProcess [openDescriptor].

(** An enumeration that counts the error kinds from 1, and a
    [SystemCall] that knows [Open] (0), which fails with [NotFound], and
    [Close] (4), which returns 0. *)
Definition errorValue (e : Error.t) : Z :=
  match e with
  | Error.None => 0
  | Error.NotFound => 1
  | Error.NotSupported => 2
  | Error.InvalidArgument => 3
  | Error.NoSuchDescriptor => 4
  | Error.AccessDenied => 5
  | Error.OutOfMemory => 6
  | Error.InvalidFormat => 7
  | Error.IoError => 8
  | Error.WouldBlock => 9
  end.

Definition systemCall (type a0 a1 a2 a3 a4 a5 : Z) (f : InterruptFrame)
  : option (Z * Error.t * InterruptFrame) :=
  if type =? 0 then Some (0, Error.NotFound, f)
  else if type =? 4 then Some (0, Error.None, f)
  else None.

(** *** Two ELF images *)

Definition le (n : nat) (v : Z) : list byte :=
  map (fun i => Bytes.byteOf (v / 256 ^ Z.of_nat i)) (seq 0 n).

Definition zeros (n : nat) : list byte := repeat Byte.x00 n.

Definition elfHeaderBytes (type entry phnum : Z) : list byte :=
  [Byte.x7f; Byte.x45; Byte.x4c; Byte.x46] ++ zeros 12 ++ le 2 type
  ++ zeros 6 ++ le 8 entry ++ zeros 22 ++ le 2 56 ++ le 2 phnum ++ zeros 6.

Definition programHeaderBytes (type offset vaddr filesz memsz : Z)
  : list byte :=
  le 4 type ++ zeros 4 ++ le 8 offset ++ le 8 vaddr ++ zeros 8
  ++ le 8 filesz ++ le 8 memsz ++ zeros 8.

(** [/lib/ld.so]: a shared object with entry 0x1000 and no program
    header.  [/bin/init]: an executable with entry 0x401000, a [PT_PHDR]
    and a [PT_INTERP] naming [/lib/ld.so]. *)
Definition ldso : list byte := elfHeaderBytes 3 0x1000 0.

Definition init : list byte :=
  elfHeaderBytes 2 0x401000 2
  ++ programHeaderBytes 6 64 0x400040 112 112
  ++ programHeaderBytes 3 176 0 11 11
  ++ list_byte_of_string "/lib/ld.so" ++ [Byte.x00].

Definition files : ELF.Files :=
  fun path =>
    if String.eqb path "/lib/ld.so" then Some ldso
    else if String.eqb path "/bin/init" then Some init
    else None.

Definition emptyLoader : ELF.Loader :=
  ELF.mkLoader (fun _ => Byte.x00) [] 0x200000.

(** A segment of 0x1800 bytes in the file and 0x3000 in memory, at offset
    0x100 of a file of 0x4000 bytes of 0x2a. *)
Definition segment : ELF.ProgramHeader :=
  ELF.mkProgramHeader 1 0x100 0x400000 0x1800 0x3000.

Definition unalignedSegment : ELF.ProgramHeader :=
  ELF.mkProgramHeader 1 0x100 0x400800 0x1000 0x1000.

Definition executableHeader : ELF.ELFHeader :=
  ELF.mkELFHeader [Byte.x7f; Byte.x45; Byte.x4c; Byte.x46] 2 0x401000 56 1.

Definition segmentFile : ELF.OpenFile :=
  ELF.mkOpenFile (repeat Byte.x2a (Z.to_nat 0x4000)) 0.

(** [/bin/static]: an executable with entry 0x401000 and no program
    header. *)
Definition static : list byte := elfHeaderBytes 2 0x401000 0.

Definition staticFiles : ELF.Files :=
  fun path => if String.eqb path "/bin/static" then Some static else files path.

(** The loader that [LoadELF] leaves for [/bin/init]. *)
Definition initLoader : ELF.Loader :=
  match ELF.LoadELF 2 files "/bin/init" emptyLoader 0 0 with
  | ELF.Done (l, _, _) => l
  | _ => emptyLoader
  end.

(** *** A directory *)

Definition directoryEntryBytes (inode size : Z) (name : string) (pad : nat)
  : list byte :=
  le 4 inode ++ le 2 size
  ++ [Bytes.byteOf (Z.of_nat (length (list_byte_of_string name))); Byte.x01]
  ++ list_byte_of_string name ++ zeros pad.

(** [.] (inode 2), a freed slot that still carries the name [old], and
    [a.txt] (inode 12): 12 + 12 + 16 bytes. *)
Definition directoryBytes : list byte :=
  directoryEntryBytes 2 12 "." 3
  ++ directoryEntryBytes 0 12 "old" 1
  ++ directoryEntryBytes 12 16 "a.txt" 3.

Definition directory : VFS.Ext2Inode :=
  VFS.mkExt2Inode 0x41ed 40
    (fun p => nth (Z.to_nat p) directoryBytes Byte.x00).

(** The same bytes with the size of the second entry set to 0. *)
Definition brokenDirectory : VFS.Ext2Inode :=
  VFS.mkExt2Inode 0x41ed 40
    (fun p => if (p =? 16) || (p =? 17) then Byte.x00
              else nth (Z.to_nat p) directoryBytes Byte.x00).

Definition noStack : Z -> byte := fun _ => Byte.xff.
Definition noHeap : Z -> Z -> byte := fun _ _ => Byte.xff.

End Samples.

(** * Properties *)

Module MachineFacts.
Import Machine.

Lemma wrap64_small (x : Z) : 0 <= x < 2 ^ 64 -> wrap64 x = x.
Proof. intros H. unfold wrap64. apply Z.mod_small. exact H. Qed.

Lemma wrap64_range (x : Z) : 0 <= wrap64 x < 2 ^ 64.
Proof. unfold wrap64. apply Z.mod_pos_bound. lia. Qed.

End MachineFacts.

Module VectorFacts.
Import Vector.

Section Ops.
Context {A : Type}.

Lemma Remove_middle (pre suf : list A) (x : A) :
  Remove (length pre) (pre ++ x :: suf) = pre ++ suf.
Proof. induction pre as [|p pre IH]; simpl; [reflexivity | now rewrite IH]. Qed.

Lemma Put_middle (pre suf : list A) (x y : A) :
  Put (length pre) y (pre ++ x :: suf) = pre ++ y :: suf.
Proof. induction pre as [|p pre IH]; simpl; [reflexivity | now rewrite IH]. Qed.

Lemma Get_middle (d : A) (pre suf : list A) (x : A) :
  Get d (pre ++ x :: suf) (length pre) = x.
Proof. unfold Get. induction pre as [|p pre IH]; simpl; [reflexivity | exact IH]. Qed.

Lemma Put_length (i : nat) (x : A) (v : list A) : length (Put i x v) = length v.
Proof.
  revert i. induction v as [|y v IH]; intros [|i]; simpl; auto.
Qed.

Lemma Get_Put_same (d : A) (i : nat) (x : A) (v : list A) :
  (i < length v)%nat -> Get d (Put i x v) i = x.
Proof.
  unfold Get. revert i. induction v as [|y v IH]; intros [|i] H; simpl in *;
    try lia; auto. apply IH. lia.
Qed.

Lemma Get_Put_other (d : A) (i j : nat) (x : A) (v : list A) :
  i <> j -> Get d (Put i x v) j = Get d v j.
Proof.
  unfold Get. revert i j. induction v as [|y v IH]; intros [|i] [|j] H; simpl;
    try reflexivity; try congruence. apply IH. congruence.
Qed.

End Ops.

End VectorFacts.

Module SchedFacts.
Import Machine Halting Sched MachineFacts VectorFacts.

Lemma TaskState_eqb_eq (a b : TaskState) : TaskState_eqb a b = true <-> a = b.
Proof. destruct a, b; simpl; split; intros H; congruence. Qed.


(** *** GetTask *)

Lemma GetTask_bound (p : Z) (q : list Task) (i : nat) :
  GetTask p q = Some i -> (i < length q)%nat.
Proof.
  revert i. induction q as [|t q IH]; simpl; intros i H; [discriminate|].
  destruct (pid t =? p).
  - injection H as <-. lia.
  - destruct (GetTask p q) as [j|]; [|discriminate].
    injection H as <-. specialize (IH j eq_refl). lia.
Qed.

Lemma GetTask_pid (p : Z) (q : list Task) (i : nat) :
  GetTask p q = Some i -> pid (Vector.Get zeroTask q i) = p.
Proof.
  revert i. induction q as [|t q IH]; simpl; intros i H; [discriminate|].
  destruct (pid t =? p) eqn:E.
  - injection H as <-. apply Z.eqb_eq in E. exact E.
  - destruct (GetTask p q) as [j|]; [|discriminate].
    injection H as <-. apply (IH j eq_refl).
Qed.

Lemma GetTask_first (p : Z) (q : list Task) (i j : nat) :
  GetTask p q = Some i -> (j < i)%nat -> pid (Vector.Get zeroTask q j) <> p.
Proof.
  revert i j. induction q as [|t q IH]; simpl; intros i j H Hj; [discriminate|].
  destruct (pid t =? p) eqn:E.
  - injection H as <-. lia.
  - destruct (GetTask p q) as [k|]; [|discriminate].
    injection H as <-. destruct j as [|j].
    + apply Z.eqb_neq in E. exact E.
    + apply (IH k j eq_refl). lia.
Qed.

(** A task found by [GetTask] keeps its place when another slot of the
    queue is rewritten without changing that slot's PID. *)
Lemma GetTask_Put (p : Z) (q : list Task) (j : nat) (t : Task) :
  (j < length q)%nat -> pid t = pid (Vector.Get zeroTask q j) ->
  GetTask p (Vector.Put j t q) = GetTask p q.
Proof.
  revert j. induction q as [|u q IH]; intros [|j] Hj Hp; simpl in *; try lia.
  - unfold Vector.Get in Hp. simpl in Hp. now rewrite Hp.
  - rewrite IH; [reflexivity | lia | exact Hp].
Qed.

Lemma set_rax_get (v : Z) (f : InterruptFrame) : rax (set_rax v f) = v.
Proof. reflexivity. Qed.

(** [set_rax] rewrites the return register and no other field. *)
Lemma set_rax_others (v : Z) (f : InterruptFrame) :
  let f' := set_rax v f in
  es f' = es f /\ ds f' = ds f /\ r15 f' = r15 f /\ r14 f' = r14 f /\
  r13 f' = r13 f /\ r12 f' = r12 f /\ r11 f' = r11 f /\ r10 f' = r10 f /\
  r9 f' = r9 f /\ r8 f' = r8 f /\ rdi f' = rdi f /\ rsi f' = rsi f /\
  rbp f' = rbp f /\ rdx f' = rdx f /\ rcx f' = rcx f /\ rbx f' = rbx f /\
  interruptNumber f' = interruptNumber f /\ errorCode f' = errorCode f /\
  rip f' = rip f /\ cs f' = cs f /\ rflags f' = rflags f /\
  rsp f' = rsp f /\ ss f' = ss f.
Proof. simpl. repeat split. Qed.

(** *** Unblock and Unsuspend *)

Lemma Unblock_found (p : Z) (q : list Task) (i : nat) :
  GetTask p q = Some i ->
  state (Vector.Get zeroTask q i) = Blocked ->
  Unblock p q
  = Some (Vector.Put i (set_state Normal (Vector.Get zeroTask q i)) q).
Proof.
  intros Hg Hs. unfold Unblock. rewrite Hg. simpl. rewrite Hs. reflexivity.
Qed.

Lemma Unsuspend_found (p v : Z) (q : list Task) (i : nat) :
  GetTask p q = Some i ->
  state (Vector.Get zeroTask q i) = Blocked \/
  state (Vector.Get zeroTask q i) = WaitingForChild ->
  Unsuspend p v q
  = Some (Vector.Put i
            (set_state Normal
               (set_frame (set_rax v (frame (Vector.Get zeroTask q i)))
                  (Vector.Get zeroTask q i))) q).
Proof.
  intros Hg Hs. unfold Unsuspend. rewrite Hg. simpl.
  destruct Hs as [Hs|Hs]; rewrite Hs; reflexivity.
Qed.

(** C8.  When [GetTask pid] finds the task at slot [i] of the queue:
    [Unblock pid] on a [Blocked] task returns, makes the task [Normal] and
    leaves its saved frame, every other field of the task and every other
    task as they were; [Unsuspend pid value] on a [Blocked] or
    [WaitingForChild] task returns, makes the task [Normal], sets [rax] of
    its saved frame to [value] and leaves every other register of the frame,
    every other field of the task and every other task as they were. *)
Theorem Unblock_keeps_frame_Unsuspend_sets_rax
  (p : Z) (q : list Task) (i : nat) (Hfound : GetTask p q = Some i) :
  let task := Vector.Get zeroTask q i in
  (state task = Blocked ->
   exists q',
     Unblock p q = Some q' /\
     length q' = length q /\
     state (Vector.Get zeroTask q' i) = Normal /\
     frame (Vector.Get zeroTask q' i) = frame task /\
     rax (frame (Vector.Get zeroTask q' i)) = rax (frame task) /\
     Vector.Get zeroTask q' i = set_state Normal task /\
     forall j, j <> i -> Vector.Get zeroTask q' j = Vector.Get zeroTask q j)
  /\
  (forall value,
   state task = Blocked \/ state task = WaitingForChild ->
   exists q',
     Unsuspend p value q = Some q' /\
     length q' = length q /\
     state (Vector.Get zeroTask q' i) = Normal /\
     frame (Vector.Get zeroTask q' i) = set_rax value (frame task) /\
     rax (frame (Vector.Get zeroTask q' i)) = value /\
     Vector.Get zeroTask q' i
     = set_state Normal (set_frame (set_rax value (frame task)) task) /\
     forall j, j <> i -> Vector.Get zeroTask q' j = Vector.Get zeroTask q j).
Proof.
  intros task. pose proof (GetTask_bound _ _ _ Hfound) as Hi. split.
  - intros Hs. eexists. split; [apply Unblock_found; [exact Hfound | exact Hs]|].
    rewrite Put_length, (Get_Put_same zeroTask) by exact Hi.
    repeat split; try reflexivity.
    intros j Hj. apply Get_Put_other. congruence.
  - intros value Hs. eexists. split; [apply Unsuspend_found; [exact Hfound | exact Hs]|].
    rewrite Put_length, (Get_Put_same zeroTask) by exact Hi.
    repeat split; try reflexivity.
    intros j Hj. apply Get_Put_other. congruence.
Qed.

Lemma Unblock_Unsuspend_sample :
  GetTask 2 [Samples.task1; Samples.task2; Samples.task4] = Some 1%nat /\
  (exists q',
     Unblock 2 [Samples.task1; Samples.task2; Samples.task4] = Some q' /\
     frame (Vector.Get zeroTask q' 1) = frame Samples.task2) /\
  (exists q',
     Unsuspend 2 7 [Samples.task1; Samples.task2; Samples.task4] = Some q' /\
     frame (Vector.Get zeroTask q' 1) = set_rax 7 (frame Samples.task2)).
Proof.
  split; [reflexivity|].
  destruct (Unblock_keeps_frame_Unsuspend_sets_rax 2
              [Samples.task1; Samples.task2; Samples.task4] 1 eq_refl)
    as [Hu Hs].
  split.
  - destruct (Hu eq_refl) as (q' & E & _ & _ & Hf & _).
    exists q'. split; [exact E | exact Hf].
  - destruct (Hs 7 (or_introl eq_refl)) as (q' & E & _ & _ & Hf & _).
    exists q'. split; [exact E | exact Hf].
Defined.

(** *** The selection loop *)

Lemma Remove_length {A} (i : nat) (v : list A) :
  (i < length v)%nat -> length (Vector.Remove i v) = pred (length v).
Proof.
  revert i. induction v as [|x v IH]; intros [|i] H; simpl in *; try lia.
  rewrite IH by lia. lia.
Qed.

(** The loop has left its range once [fuel] covers the slots from [i] on:
    more fuel changes nothing. *)
Lemma SelectLoop_fuel (fuel i : nat) (q : list Task) (c : Task) (f : bool) :
  (length q - i <= fuel)%nat ->
  SelectLoop (S fuel) i q c f = SelectLoop fuel i q c f.
Proof.
  revert i q c f. induction fuel as [|fuel IH]; intros i q c f H.
  - simpl. unfold Vector.GetLength.
    destruct (i <? length q)%nat eqn:E; [|reflexivity].
    apply Nat.ltb_lt in E. lia.
  - change (SelectLoop (S (S fuel)) i q c f) with
      (if (i <? Vector.GetLength q)%nat then
         if TaskState_eqb (state (Vector.Get zeroTask q i)) Normal then
           SelectLoop (S fuel) (S i) (snd (Vector.Pop zeroTask q i))
             (fst (Vector.Pop zeroTask q i)) true
         else SelectLoop (S fuel) (S i) q c f
       else (q, c, f)).
    change (SelectLoop (S fuel) i q c f) with
      (if (i <? Vector.GetLength q)%nat then
         if TaskState_eqb (state (Vector.Get zeroTask q i)) Normal then
           SelectLoop fuel (S i) (snd (Vector.Pop zeroTask q i))
             (fst (Vector.Pop zeroTask q i)) true
         else SelectLoop fuel (S i) q c f
       else (q, c, f)).
    unfold Vector.GetLength.
    destruct (i <? length q)%nat eqn:E; [|reflexivity].
    apply Nat.ltb_lt in E.
    destruct (TaskState_eqb (state (Vector.Get zeroTask q i)) Normal).
    + apply IH. simpl. rewrite Remove_length by exact E. lia.
    + apply IH. lia.
Qed.

(** C1.  With [task1] (Normal), [task2] (Blocked) and [task3] (Normal)
    queued in that order, [SwitchToNextTask] does not stop at the first
    Normal task: it takes [task1] out of the queue, goes on, takes [task3]
    out as well and runs [task3]; [task1] is then neither running nor
    queued.  The same happens when the running task is first saved and
    appended to the tail. *)
Theorem SwitchToNextTask_drops_first_Normal_task :
  (exists s' f',
     SwitchToNextTask 0 zeroFrame Samples.threeQueued = Some (s', f') /\
     currentTask s' = Samples.task3 /\
     taskQueue s' = [Samples.task2]) /\
  (exists s' f',
     SwitchToNextTask 0 zeroFrame Samples.runningWithThreeQueued
     = Some (s', f') /\
     currentTask s' = Samples.task3 /\
     taskQueue s'
     = [Samples.task2; set_frame zeroFrame (set_state Normal Samples.task4)]).
Proof.
  split; eexists; eexists; (split; [vm_compute; reflexivity|]);
    split; reflexivity.
Qed.

End SchedFacts.

(** *** The timer pass *)

Module TimerFacts.
Import Machine Halting Sched SchedSpec MachineFacts VectorFacts SchedFacts.

Lemma toUnblock_app (d : Z) (l1 l2 : list TimerEntry.t) :
  toUnblock d (l1 ++ l2) = toUnblock d l1 ++ toUnblock d l2.
Proof. unfold toUnblock. now rewrite filter_app, map_app. Qed.

(** The loop, started below a prefix [pre] of the vector, unblocks the
    PIDs of the expired unblocking entries of [pre] from the last to the
    first, drops the expired entries of [pre], rewrites the others, and
    leaves the slots after [pre] alone. *)
Lemma UpdateTimerEntries_loop_prefix (d : Z) (pre suf : list TimerEntry.t)
  (q : list Task) :
  UpdateTimerEntries_loop (length pre) d (pre ++ suf) q
  = (q' <- UnblockAll (rev (toUnblock d pre)) q ;;
     Some (map (rewritten d) (filter (fun e => negb (expired d e)) pre) ++ suf,
           q')).
Proof.
  revert suf q. induction pre as [|e pre IH] using rev_ind; intros suf q.
  - reflexivity.
  - rewrite length_app, Nat.add_1_r, <- app_assoc. simpl app.
    simpl UpdateTimerEntries_loop. rewrite Get_middle.
    rewrite toUnblock_app, rev_app_distr, filter_app, map_app.
    unfold toUnblock at 1. simpl filter. fold (expired d e).
    fold (rewritten d e).
    destruct (expired d e) eqn:Ee; simpl.
    + rewrite Remove_middle, app_nil_r.
      destruct (TimerEntry.unblockOnExpire e); simpl.
      * destruct (negb (TimerEntry.pid e =? 0)); simpl; [|reflexivity].
        destruct (Unblock (TimerEntry.pid e) q) as [q1|]; simpl;
          [apply IH | reflexivity].
      * apply IH.
    + rewrite Put_middle, IH, <- app_assoc. reflexivity.
Qed.

Lemma UpdateTimerEntries_loop_all (d : Z) (timers : list TimerEntry.t)
  (q : list Task) :
  UpdateTimerEntries_loop (length timers) d timers q
  = (q' <- UnblockAll (rev (toUnblock d timers)) q ;;
     Some (map (rewritten d) (filter (fun e => negb (expired d e)) timers),
           q')).
Proof.
  pose proof (UpdateTimerEntries_loop_prefix d timers [] q) as H.
  rewrite !app_nil_r in H. exact H.
Qed.

(** Without wrap-around: an entry that stays has more than [d] left. *)
Lemma rewritten_remaining (d : Z) (timers : list TimerEntry.t) :
  0 <= d ->
  Forall (fun e => uint64 (TimerEntry.milliseconds e)) timers ->
  map (rewritten d) (filter (fun e => negb (expired d e)) timers)
  = remaining d timers.
Proof.
  intros Hd H. unfold remaining. induction H as [|e l He Hl IH]; simpl.
  - reflexivity.
  - destruct (expired d e) eqn:E; simpl.
    + exact IH.
    + rewrite IH. f_equal. unfold rewritten, decremented. f_equal.
      apply wrap64_small. unfold expired in E. apply Z.leb_gt in E.
      unfold uint64 in He. lia.
Qed.

Lemma Get_beyond (q : list Task) (j : nat) :
  (length q <= j)%nat -> Vector.Get zeroTask q j = zeroTask.
Proof. intros H. unfold Vector.Get. apply nth_overflow. exact H. Qed.

Lemma GetTask_same_pids (p : Z) (q' q : list Task) :
  length q' = length q ->
  (forall j, pid (Vector.Get zeroTask q' j) = pid (Vector.Get zeroTask q j)) ->
  GetTask p q' = GetTask p q.
Proof.
  revert q'. induction q as [|t q IH]; intros [|t' q'] Hlen Hpids;
    try discriminate; [reflexivity|].
  pose proof (Hpids O) as H0. unfold Vector.Get in H0. simpl in H0.
  simpl. rewrite H0, (IH q'); [reflexivity | simpl in Hlen; lia |].
  intros j. apply (Hpids (S j)).
Qed.

Lemma UnblockAll_succeeds (pids : list Z) :
  forall q,
    NoDup pids ->
    Forall (fun p => p <> 0 /\ BlockedIn q p) pids ->
    exists q', UnblockAll pids q = Some q' /\ Unblocked pids q q'.
Proof.
  induction pids as [|p pids IH]; intros q Hnd Hall.
  - exists q. split; [reflexivity|]. constructor; auto. intros p [].
  - inversion Hnd as [|? ? Hnotin Hnd']; subst.
    inversion Hall as [|? ? [Hp0 (i & Hg & Hs)] Hall']; subst.
    pose proof (GetTask_bound _ _ _ Hg) as Hi.
    pose proof (GetTask_pid _ _ _ Hg) as Hpid.
    set (q1 := Vector.Put i (set_state Normal (Vector.Get zeroTask q i)) q).
    assert (Hstep : forall p', GetTask p' q1 = GetTask p' q).
    { intros p'. apply GetTask_Put; [exact Hi | reflexivity]. }
    assert (Hall1 : Forall (fun p' => p' <> 0 /\ BlockedIn q1 p') pids).
    { rewrite Forall_forall in Hall' |- *. intros p' Hin.
      destruct (Hall' p' Hin) as [Hp' (i' & Hg' & Hs')]. split; [exact Hp'|].
      exists i'. split; [rewrite Hstep; exact Hg'|].
      unfold q1. rewrite Get_Put_other; [exact Hs'|].
      intros ->. apply Hnotin. rewrite <- Hpid, (GetTask_pid _ _ _ Hg').
      exact Hin. }
    destruct (IH q1 Hnd' Hall1) as (q' & Hq' & [Hlen Hnorm Hrest]).
    exists q'. split.
    + simpl. apply Z.eqb_neq in Hp0. rewrite Hp0. simpl.
      rewrite (Unblock_found _ _ _ Hg Hs). simpl. exact Hq'.
    + constructor.
      * rewrite Hlen. unfold q1. apply Put_length.
      * intros p' [<-|Hin]; [|apply Hnorm; exact Hin].
        destruct (Hrest i) as (Hp1 & _ & Hkeep).
        assert (Hq1i : Vector.Get zeroTask q1 i
                       = set_state Normal (Vector.Get zeroTask q i)).
        { unfold q1. apply Get_Put_same. exact Hi. }
        exists i. split.
        -- rewrite (GetTask_same_pids p q' q1 Hlen), Hstep; [exact Hg|].
           intros j. apply Hrest.
        -- rewrite Hkeep; [rewrite Hq1i; reflexivity|].
           rewrite Hq1i. simpl. rewrite Hpid. exact Hnotin.
      * intros j. destruct (Hrest j) as (Hp1 & Hf1 & Hkeep).
        destruct (Nat.eq_dec j i) as [->|Hji].
        -- assert (Hq1i : Vector.Get zeroTask q1 i
                          = set_state Normal (Vector.Get zeroTask q i)).
           { unfold q1. apply Get_Put_same. exact Hi. }
           rewrite Hp1, Hf1, Hq1i. simpl. repeat split.
           intros Hn. exfalso. apply Hn. left. symmetry. exact Hpid.
        -- assert (Hq1j : Vector.Get zeroTask q1 j = Vector.Get zeroTask q j).
           { unfold q1. apply Get_Put_other. congruence. }
           rewrite Hp1, Hf1, Hq1j. repeat split.
           intros Hn. rewrite Hkeep; [exact Hq1j|].
           rewrite Hq1j. intros Hin. apply Hn. right. exact Hin.
Qed.

Lemma fold_right_min_start (x a : Z) (l : list Z) :
  fold_right Z.min (Z.min x a) l = Z.min x (fold_right Z.min a l).
Proof. induction l as [|y l IH]; simpl; [reflexivity | rewrite IH; lia]. Qed.

Lemma closestExpiry_from (timers : list TimerEntry.t) (a : Z) :
  fold_left
    (fun closestTime time =>
       if TimerEntry.milliseconds time <? closestTime
       then TimerEntry.milliseconds time else closestTime)
    timers a
  = fold_right Z.min a (map TimerEntry.milliseconds timers).
Proof.
  revert a. induction timers as [|e l IH]; intros a; simpl; [reflexivity|].
  rewrite IH, <- fold_right_min_start. f_equal.
  destruct (TimerEntry.milliseconds e <? a) eqn:E;
    [apply Z.ltb_lt in E | apply Z.ltb_ge in E]; lia.
Qed.

Lemma closestExpiry_minimum (timers : list TimerEntry.t) :
  closestExpiry timers = minimumWith100 timers.
Proof. apply closestExpiry_from. Qed.

Lemma Unblocked_rev (pids : list Z) (q q' : list Task) :
  Unblocked (rev pids) q q' -> Unblocked pids q q'.
Proof.
  intros [Hl Hn Hr]. constructor.
  - exact Hl.
  - intros p Hin. apply Hn. apply in_rev. rewrite rev_involutive. exact Hin.
  - intros j. destruct (Hr j) as (H1 & H2 & H3). repeat split; auto.
    intros Hn'. apply H3. intros Hin. apply Hn'. apply in_rev. exact Hin.
Qed.

(** X30.  Let [elapsed] be [currentTimerTime] minus the remaining time that
    the LAPIC reports, and let no [Assert] of the timer pass fail: the
    remaining time is below [currentTimerTime], and the PIDs of the expired
    entries with [unblockOnExpire] are distinct, not 0, and each names a
    queued [Blocked] task.  Then [SwitchToNextTask] returns; its timer pass
    leaves exactly the entries with more than [elapsed] left, each
    decremented by [elapsed]; every expired entry with [unblockOnExpire] has
    had its task made [Normal] by [Unblock] (frames untouched, other tasks
    untouched) and is gone from the set; and the LAPIC one-shot is armed,
    and [currentTimerTime] set, to the minimum of the remaining entries and
    100, which is 100 when none is left. *)
Theorem SwitchToNextTask_timer_protocol
  (s : Scheduler) (remainingTime : Z) (interruptFrame : InterruptFrame)
  (Hrem : 0 <= remainingTime < currentTimerTime s)
  (Hcur : uint64 (currentTimerTime s))
  (Hms : Forall (fun e => uint64 (TimerEntry.milliseconds e)) (timerEntries s))
  (Hdistinct :
     NoDup (toUnblock (currentTimerTime s - remainingTime) (timerEntries s)))
  (Hblocked :
     Forall (fun p => p <> 0 /\ BlockedIn (taskQueue s) p)
       (toUnblock (currentTimerTime s - remainingTime) (timerEntries s))) :
  let elapsed := currentTimerTime s - remainingTime in
  exists s1 s2 frame2,
    UpdateTimerEntries remainingTime s = Some s1 /\
    timerEntries s1 = remaining elapsed (timerEntries s) /\
    Unblocked (toUnblock elapsed (timerEntries s)) (taskQueue s) (taskQueue s1) /\
    SwitchToNextTask remainingTime interruptFrame s = Some (s2, frame2) /\
    timerEntries s2 = timerEntries s1 /\
    lapicTimeBetweenTimerFires s2 = minimumWith100 (timerEntries s1) /\
    currentTimerTime s2 = minimumWith100 (timerEntries s1) /\
    (timerEntries s1 = [] -> lapicTimeBetweenTimerFires s2 = 100).
Proof.
  intros elapsed.
  assert (Hd : wrap64 (currentTimerTime s - remainingTime) = elapsed).
  { apply wrap64_small. unfold uint64 in Hcur. lia. }
  destruct (UnblockAll_succeeds
              (rev (toUnblock elapsed (timerEntries s))) (taskQueue s))
    as (q' & Hq' & Hunb).
  { apply NoDup_rev. exact Hdistinct. }
  { apply Forall_rev. exact Hblocked. }
  assert (Hupd : UpdateTimerEntries remainingTime s
                 = Some (set_timerEntries (remaining elapsed (timerEntries s))
                           (set_taskQueue q' s))).
  { unfold UpdateTimerEntries.
    assert (Hlt : (remainingTime <? currentTimerTime s) = true)
      by (apply Z.ltb_lt; lia).
    rewrite Hlt, Hd. simpl. unfold Vector.GetLength.
    rewrite UpdateTimerEntries_loop_all, Hq'. simpl.
    rewrite rewritten_remaining; [reflexivity | unfold elapsed; lia | exact Hms]. }
  eexists. eexists. eexists.
  split; [exact Hupd|].
  split; [reflexivity|].
  split; [apply Unblocked_rev; exact Hunb|].
  split; [unfold SwitchToNextTask; rewrite Hupd; reflexivity|].
  split; [reflexivity|].
  split; [apply closestExpiry_minimum|].
  split; [apply closestExpiry_minimum|].
  simpl. intros ->. reflexivity.
Qed.

Lemma SwitchToNextTask_timer_protocol_sample :
  exists s1 s2 frame2,
    UpdateTimerEntries 5 Samples.sleepers = Some s1 /\
    timerEntries s1 = [TimerEntry.mk 15 true 3; TimerEntry.mk 35 false 0] /\
    SwitchToNextTask 5 zeroFrame Samples.sleepers = Some (s2, frame2) /\
    lapicTimeBetweenTimerFires s2 = 15.
Proof.
  assert (Hnd : NoDup [2]) by (constructor; [simpl; tauto | constructor]).
  assert (Hbl : Forall (fun p => p <> 0 /\ BlockedIn (taskQueue Samples.sleepers) p)
                  [2]).
  { constructor; [|constructor]. split; [lia|].
    exists 1%nat. split; reflexivity. }
  destruct (SwitchToNextTask_timer_protocol Samples.sleepers 5 zeroFrame)
    as (s1 & s2 & f2 & H1 & H2 & _ & H4 & H5 & H6 & _).
  - simpl. lia.
  - unfold uint64. simpl. lia.
  - simpl. repeat constructor; unfold uint64; simpl; lia.
  - exact Hnd.
  - exact Hbl.
  - exists s1, s2, f2. split; [exact H1|]. split; [exact H2|].
    split; [exact H4|]. rewrite H6, H2. reflexivity.
Defined.

(** C6 fails on the code.  Task 1 runs, 100 ms are armed and 60 of them
    have passed when it calls [SleepCurrentTask(50)].  The call enters
    [SwitchToNextTask] with the new entry pushed and the caller [Blocked]
    but not queued.  The entry has run out and asks for an unblock, so the
    claim has the task unblocked, the entry removed and the timer armed;
    instead the timer pass, which runs before the caller is queued, does not
    find PID 1 in the queue, and the kernel halts. *)
Theorem SwitchToNextTask_halts_on_entry_of_short_sleep :
  SleepCurrentTask 40 zeroFrame 50 Samples.sleepCaller
  = SwitchToNextTask 40 zeroFrame Samples.sleepEntered /\
  set_currentTask (set_state Blocked (currentTask Samples.sleepCaller))
    (set_timerEntries
       (Vector.Push (timerEntries Samples.sleepCaller)
          (TimerEntry.mk 50 true (pid (currentTask Samples.sleepCaller))))
       Samples.sleepCaller)
  = Samples.sleepEntered /\
  toUnblock (100 - 40) (timerEntries Samples.sleepEntered) = [1] /\
  GetTask 1 (taskQueue Samples.sleepEntered) = None /\
  UpdateTimerEntries 40 Samples.sleepEntered = None /\
  SwitchToNextTask 40 zeroFrame Samples.sleepEntered = None.
Proof. repeat split; reflexivity. Qed.

End TimerFacts.

(** *** Fork *)

Module ForkFacts.
Import Machine Halting Mem Sched MachineFacts VectorFacts SchedFacts.

(** A forward copy between two ranges that do not meet writes the source
    bytes into the destination range and nothing else. *)
Lemma MemCopy_loop_disjoint (n : nat) :
  forall (i destination source : Z) (m : Memory),
    (forall j j', i <= j < i + Z.of_nat n -> i <= j' < i + Z.of_nat n ->
                  source + j <> destination + j') ->
    forall a,
      MemCopy_loop n i destination source m a
      = if (destination + i <=? a) && (a <? destination + i + Z.of_nat n)
        then m (source + (a - destination)) else m a.
Proof.
  induction n as [|n IH]; intros i dst src m Hdis a.
  - cbn [MemCopy_loop]. change (Z.of_nat 0) with 0.
    destruct (dst + i <=? a) eqn:E1, (a <? dst + i + 0) eqn:E2; cbn [andb];
      try reflexivity. apply Z.leb_le in E1. apply Z.ltb_lt in E2. lia.
  - cbn [MemCopy_loop]. rewrite IH by (intros j j' Hj Hj'; apply Hdis; lia).
    unfold store.
    destruct (dst + (i + 1) <=? a) eqn:E1;
      [apply Z.leb_le in E1 | apply Z.leb_gt in E1];
    (destruct (a <? dst + (i + 1) + Z.of_nat n) eqn:E2;
      [apply Z.ltb_lt in E2 | apply Z.ltb_ge in E2]);
    (destruct (dst + i <=? a) eqn:E3;
      [apply Z.leb_le in E3 | apply Z.leb_gt in E3]);
    (destruct (a <? dst + i + Z.of_nat (S n)) eqn:E4;
      [apply Z.ltb_lt in E4 | apply Z.ltb_ge in E4]);
    cbn [andb]; try lia.
    + assert (Hne : (src + (a - dst) =? dst + i) = false)
        by (apply Z.eqb_neq; apply Hdis; lia).
      rewrite Hne. reflexivity.
    + assert (Hne : (a =? dst + i) = false) by (apply Z.eqb_neq; lia).
      rewrite Hne. reflexivity.
    + assert (Ha : a = dst + i) by lia. subst a. rewrite Z.eqb_refl.
      f_equal. lia.
    + assert (Hne : (a =? dst + i) = false) by (apply Z.eqb_neq; lia).
      rewrite Hne. reflexivity.
Qed.

Lemma MemCopy_disjoint (destination source count : Z) (m : Memory) :
  0 <= count ->
  (source + count <= destination \/ destination + count <= source) ->
  forall j, 0 <= j < count ->
    MemCopy destination source count m (destination + j) = m (source + j).
Proof.
  intros Hc Hdis j Hj. unfold MemCopy. rewrite MemCopy_loop_disjoint.
  - rewrite Z2Nat.id by exact Hc.
    assert (H1 : (destination + 0 <=? destination + j) = true)
      by (apply Z.leb_le; lia).
    assert (H2 : (destination + j <? destination + 0 + count) = true)
      by (apply Z.ltb_lt; lia).
    rewrite H1, H2. simpl. f_equal. lia.
  - rewrite Z2Nat.id by exact Hc. intros a b Ha Hb. lia.
Qed.

(** What [ForkCurrentTask] does, for every kernel state, frame and
    allocation: the child is appended to the queue with the caller's frame
    and [rax = 0]; its PID is the counter's value and is what the parent
    gets; the bytes of the parent's system-call stack are copied into the
    child's freshly allocated one when the two do not meet; and the child's
    [syscallStackAddr] is the parent's. *)
Lemma ForkCurrentTask_effects (c : Selectors) (a : ForkAllocation)
  (interruptFrame : InterruptFrame) (k : Kernel) :
  let parent := currentTask (scheduler k) in
  let r := ForkCurrentTask c a interruptFrame k in
  let size := SYSCALL_STACK_PAGE_COUNT * 0x1000 in
  let childBottom := wrap64 (HigherHalf (wrap64 (newPageFrames a + size)) - size) in
  exists child,
    taskQueue (scheduler (fst r)) = taskQueue (scheduler k) ++ [child] /\
    frame child = set_rax 0 interruptFrame /\
    state child = Normal /\
    pid child = pidCounter k /\
    snd r = pid child /\
    pidCounter (fst r) = wrap64 (pidCounter k + 1) /\
    syscallStackBottom child = childBottom /\
    syscallStackAddr child = syscallStackAddr parent /\
    (syscallStackBottom parent + size <= childBottom \/
     childBottom + size <= syscallStackBottom parent ->
     forall j, 0 <= j < size ->
       memory (fst r) (childBottom + j)
       = memory k (syscallStackBottom parent + j)).
Proof.
  intros parent r size childBottom. eexists.
  split; [reflexivity|]. repeat (split; [reflexivity|]).
  intros Hdis j Hj. unfold r, ForkCurrentTask. simpl memory.
  apply (MemCopy_disjoint childBottom (syscallStackBottom parent) size).
  - unfold size, SYSCALL_STACK_PAGE_COUNT. lia.
  - exact Hdis.
  - exact Hj.
Qed.

(** C3.  [task1], whose system-call stack is the 12 KiB below
    0xffff800000103000, forks; the child's stack is allocated at physical
    0x500000.  The child gets the caller's frame with [rax = 0], is appended
    to the queue, and its PID (5) is returned; the 12 KiB from
    0xffff800000500000 receive a copy of the parent's stack bytes.  But the
    child's [syscallStackAddr], the pointer that [SwitchToNextTask] gives to
    the TSS, is 0xffff800000103000: the top of the parent's stack, outside
    the child's own copy. *)
Theorem ForkCurrentTask_child_stack_pointer_is_parents :
  let r := ForkCurrentTask Samples.selectors Samples.forkAllocation
             (set_rax 77 zeroFrame) Samples.forking in
  exists child,
    taskQueue (scheduler (fst r)) = [Samples.task2; child] /\
    rax (frame child) = 0 /\
    pid child = 5 /\ snd r = 5 /\
    syscallStackBottom child = 0xffff800000500000 /\
    (forall j, 0 <= j < 0x3000 ->
       memory (fst r) (0xffff800000500000 + j)
       = memory Samples.forking (syscallStackBottom Samples.task1 + j)) /\
    syscallStackAddr child = syscallStackAddr Samples.task1 /\
    syscallStackAddr child = 0xffff800000103000 /\
    ~ (syscallStackBottom child <= syscallStackAddr child
       <= syscallStackBottom child + 0x3000).
Proof.
  intros r.
  destruct (ForkCurrentTask_effects Samples.selectors Samples.forkAllocation
              (set_rax 77 zeroFrame) Samples.forking)
    as (child & Hq & Hf & _ & Hp & Hr & _ & Hb & Ha & Hm).
  fold r in Hq, Hr, Hm.
  assert (Hbot : wrap64 (HigherHalf (wrap64
                   (newPageFrames Samples.forkAllocation
                    + SYSCALL_STACK_PAGE_COUNT * 0x1000))
                  - SYSCALL_STACK_PAGE_COUNT * 0x1000)
                 = 0xffff800000500000) by (vm_compute; reflexivity).
  rewrite Hbot in Hb, Hm.
  exists child. split; [exact Hq|]. split; [rewrite Hf; reflexivity|].
  split; [exact Hp|]. split; [rewrite Hr; exact Hp|]. split; [exact Hb|].
  split.
  { intros j Hj. apply Hm; [|exact Hj]. left. vm_compute. discriminate. }
  split; [exact Ha|]. split; [rewrite Ha; reflexivity|].
  rewrite Ha, Hb. vm_compute. intros [H1 H2]. apply H1. reflexivity.
Qed.

End ForkFacts.

(** ** VFS *)

Module VFSFacts.
Import Machine Halting VFS VFSSpec MachineFacts VectorFacts.

(** *** The descriptor table *)

Lemma setPresent_present (fd : FileDescriptor) :
  present fd = true -> setPresent true fd = fd.
Proof. destruct fd as [p o v]. simpl. intros ->. reflexivity. Qed.

Lemma FindDescriptor_loop_marks_all (suf : list FileDescriptor) :
  forall (pre : list FileDescriptor) (start : Z),
    FindDescriptor_loop (length suf) (length pre) (pre ++ suf) start
    = (pre ++ map (setPresent true) suf, lastFree (length pre) suf start).
Proof.
  induction suf as [|fd suf IH]; intros pre start.
  - reflexivity.
  - cbn [length FindDescriptor_loop]. rewrite Get_middle.
    assert (Hnext : forall fd', pre ++ fd' :: suf = (pre ++ [fd']) ++ suf)
      by (intros fd'; rewrite <- app_assoc; reflexivity).
    assert (Hlen : forall fd', S (length pre) = length (pre ++ [fd']))
      by (intros fd'; rewrite length_app; simpl; lia).
    destruct (present fd) eqn:Ep; cbn [negb map lastFree].
    + rewrite (Hnext fd), (Hlen fd), IH, <- app_assoc.
      rewrite (setPresent_present fd Ep), Ep. reflexivity.
    + rewrite Put_middle, (Hnext (setPresent true fd)),
        (Hlen (setPresent true fd)), IH, <- app_assoc, Ep.
      rewrite length_app. simpl. rewrite Nat.add_1_r. reflexivity.
Qed.

Lemma FindDescriptor_loop_all (fds : list FileDescriptor) (start : Z) :
  FindDescriptor_loop (length fds) O fds start
  = (map (setPresent true) fds, lastFree 0 fds start).
Proof. exact (FindDescriptor_loop_marks_all fds [] start). Qed.

Lemma lastFree_all_present (fds : list FileDescriptor) (i : nat) (start : Z) :
  Forall (fun fd => present fd = true) fds -> lastFree i fds start = start.
Proof.
  intros H. revert i. induction H as [|fd fds Hfd _ IH]; intros i; simpl.
  - reflexivity.
  - rewrite Hfd. apply IH.
Qed.

Lemma map_setPresent_all_present (fds : list FileDescriptor) :
  Forall (fun fd => present fd = true) fds -> map (setPresent true) fds = fds.
Proof.
  induction 1 as [|fd fds Hfd _ IH]; simpl; [reflexivity|].
  now rewrite IH, setPresent_present.
Qed.

(** With no free slot, the scan changes nothing and [Open] appends a
    slot, whose index it returns. *)
Lemma FindDescriptor_full (fds : list FileDescriptor) :
  Forall (fun fd => present fd = true) fds ->
  FindDescriptor fds
  = (fds ++ [mkFileDescriptor true 0 None], Z.of_nat (length fds)).
Proof.
  intros H. unfold FindDescriptor, Vector.GetLength.
  rewrite FindDescriptor_loop_all. cbn [fst snd].
  rewrite lastFree_all_present, map_setPresent_all_present by exact H.
  reflexivity.
Qed.

Lemma lastFree_bounds (fds : list FileDescriptor) :
  forall (i : nat) (start : Z),
    lastFree i fds start = start \/
    Z.of_nat i <= lastFree i fds start < Z.of_nat (i + length fds).
Proof.
  induction fds as [|fd fds IH]; intros i start; simpl; [now left|].
  destruct (IH (S i) (if present fd then start else Z.of_nat i)) as [E|B].
  - rewrite E. destruct (present fd); [now left | right; lia].
  - right. lia.
Qed.

Lemma lastFree_some_free (fds : list FileDescriptor) :
  forall (i : nat) (start : Z),
    Exists (fun fd => present fd = false) fds ->
    Z.of_nat i <= lastFree i fds start < Z.of_nat (i + length fds).
Proof.
  induction fds as [|fd fds IH]; intros i start H; [inversion H|].
  simpl. destruct (present fd) eqn:Ep.
  - inversion H as [? ? Hfd|? ? Hex]; subst; [congruence|].
    specialize (IH (S i) start Hex). lia.
  - destruct (lastFree_bounds fds (S i) (Z.of_nat i)) as [E|B]; lia.
Qed.

(** With a free slot, the scan marks every free slot present, and [Open]
    appends nothing: the table keeps its length and no slot stays free. *)
Lemma FindDescriptor_some_free (fds : list FileDescriptor) :
  Exists (fun fd => present fd = false) fds ->
  FindDescriptor fds
  = (map (setPresent true) fds, lastFree 0 fds (-1)).
Proof.
  intros H. unfold FindDescriptor, Vector.GetLength.
  rewrite FindDescriptor_loop_all. cbn [fst snd].
  pose proof (lastFree_some_free fds 0 (-1) H) as B.
  destruct (lastFree 0 fds (-1) =? -1) eqn:E; [|reflexivity].
  apply Z.eqb_eq in E. lia.
Qed.

(** C2.  On the table [used; free; free], [Open] does not stop at slot 1,
    the lowest free one: it marks slot 1 and slot 2 present and returns 2.
    Slot 1 is left marked present with no vnode, so it is never handed out
    again. *)
Theorem Open_marks_every_free_slot_present :
  exists process' disk',
    Open Samples.listing Samples.create 0x40 0x200 0x400 0x8000
      "/a.txt" 0 Samples.twoClosed Samples.disk
    = Some (2, process', disk') /\
    map present (fileDescriptors process') = [true; true; true] /\
    map vNode (fileDescriptors process')
    = [Some (mkVNode "a.txt" 12); None; Some (mkVNode "a.txt" 12)].
Proof.
  eexists. eexists. split; [vm_compute; reflexivity|].
  split; reflexivity.
Qed.

End VFSFacts.

(** *** Path traversal *)

Module TraverseFacts.
Import Machine Halting VFS VFSSpec.

Lemma runs_nonempty (s : string) : runs s <> [].
Proof.
  destruct s as [|a s]; simpl; [discriminate|].
  destruct (Ascii.eqb a "/"); [discriminate|].
  destruct (runs s); discriminate.
Qed.

(** [String::Split] takes the first component off, and what it leaves
    holds the others. *)
Lemma runs_Split (s : string) :
  runs s
  = fst (Split s "/") ::
    (if (Count s "/" =? 0)%nat then [] else runs (snd (Split s "/"))).
Proof.
  induction s as [|a s IH]; simpl; [reflexivity|].
  destruct (Ascii.eqb a "/") eqn:E; simpl; [reflexivity|].
  rewrite IH. reflexivity.
Qed.

Lemma runs_length (s : string) :
  length (runs s) = S (Count s "/").
Proof.
  induction s as [|a s IH]; simpl; [reflexivity|].
  destruct (Ascii.eqb a "/") eqn:E; simpl; [now rewrite IH|].
  destruct (runs s) as [|tok toks] eqn:Ec; simpl in *; [discriminate|].
  exact IH.
Qed.

Section Loop.
Variable GetDirectoryListing : Disk -> Z -> list VNode.
Variable disk : Disk.

Lemma TraversePath_loop_resolves (init : list string) :
  forall (remainingPath : string) (current : VNode) (final tok0 : string)
         (found0 : bool),
    runs remainingPath = init ++ [final] ->
    TraversePath_loop GetDirectoryListing disk (length (init ++ [final]))
      remainingPath (inodeNum current) current tok0 found0
    = match resolve (GetDirectoryListing disk) current init with
      | None => None
      | Some parent =>
          match FindInListing (GetDirectoryListing disk (inodeNum parent)) final with
          | Some v => Some (v, true, final)
          | None => Some (parent, false, final)
          end
      end.
Proof.
  induction init as [|tok init IH];
    intros remainingPath current final tok0 found0 Hc.
  - pose proof (runs_Split remainingPath) as Hs. rewrite Hc in Hs.
    simpl in Hs. injection Hs as Hfinal Hrest.
    simpl. rewrite <- Hfinal.
    destruct (FindInListing (GetDirectoryListing disk (inodeNum current)) final);
      reflexivity.
  - pose proof (runs_Split remainingPath) as Hs. rewrite Hc in Hs.
    simpl in Hs. injection Hs as Htok Hrest.
    destruct (Count remainingPath "/" =? 0)%nat eqn:E.
    { destruct init; discriminate. }
    symmetry in Hrest.
    change (length ((tok :: init) ++ [final]))
      with (S (length (init ++ [final]))).
    cbn [TraversePath_loop resolve]. rewrite <- Htok.
    destruct (FindInListing (GetDirectoryListing disk (inodeNum current)) tok)
      as [next|]; cbn [orb Assert Halting.bind].
    + apply IH. exact Hrest.
    + rewrite length_app, Nat.add_1_r. reflexivity.
Qed.

End Loop.

(** [TraversePath] on the path [/rest] goes through the runs of [rest],
    empty ones too: with [init] the runs before the last one, [final], it
    halts when a run of [init] is no entry of the directory reached, and
    otherwise looks [final] up in the directory [parent] that [init] leads
    to. *)
Lemma TraversePath_runs
  (GetDirectoryListing : Disk -> Z -> list VNode) (disk : Disk)
  (rest : string) (init : list string) (final : string)
  (Hruns : runs rest = init ++ [final]) :
  match resolve (GetDirectoryListing disk) root init with
  | None => TraversePath GetDirectoryListing disk (String "/" rest) = None
  | Some parent =>
      match FindInListing (GetDirectoryListing disk (inodeNum parent)) final with
      | Some v =>
          TraversePath GetDirectoryListing disk (String "/" rest)
          = Some (v, true, final)
      | None =>
          TraversePath GetDirectoryListing disk (String "/" rest)
          = Some (parent, false, final)
      end
  end.
Proof.
  assert (Hrun :
    TraversePath GetDirectoryListing disk (String "/" rest)
    = TraversePath_loop GetDirectoryListing disk (length (init ++ [final]))
        rest (inodeNum root) root ""%string false).
  { unfold TraversePath.
    change (Split (String "/" rest) "/") with (EmptyString, rest).
    cbn [fst snd String.eqb Assert Halting.bind].
    rewrite <- (runs_length rest), Hruns. reflexivity. }
  rewrite Hrun, (TraversePath_loop_resolves _ _ init rest root final _ _ Hruns).
  destruct (resolve (GetDirectoryListing disk) root init) as [parent|];
    [|reflexivity].
  destruct (FindInListing (GetDirectoryListing disk (inodeNum parent)) final);
    reflexivity.
Qed.

(** C4, as the code has it.  Let the path [/rest] have no empty run between
    its [/]s (no doubled [/], no [/] at its end, and not [/] alone), so that
    its runs are its non-empty components, and let these be [init] followed
    by [final].  When every component of [init] resolves, to the directory
    [parent], [TraversePath] returns the vnode of [final] with
    [exists = true] if [final] is an entry of [parent], and [parent] with
    the name [final] and [exists = false] if it is not; when a component of
    [init] does not resolve, the [KAssert] of the loop fails and the kernel
    halts ([None]): no error value is returned. *)
Theorem TraversePath_resolves_or_halts
  (GetDirectoryListing : Disk -> Z -> list VNode) (disk : Disk)
  (rest : string) (init : list string) (final : string)
  (Hnoempty : runs rest = components rest)
  (Hcomponents : components rest = init ++ [final]) :
  match resolve (GetDirectoryListing disk) root init with
  | None => TraversePath GetDirectoryListing disk (String "/" rest) = None
  | Some parent =>
      match FindInListing (GetDirectoryListing disk (inodeNum parent)) final with
      | Some v =>
          TraversePath GetDirectoryListing disk (String "/" rest)
          = Some (v, true, final)
      | None =>
          TraversePath GetDirectoryListing disk (String "/" rest)
          = Some (parent, false, final)
      end
  end.
Proof.
  rewrite <- Hnoempty in Hcomponents.
  exact (TraversePath_runs GetDirectoryListing disk rest init final Hcomponents).
Qed.

Lemma TraversePath_resolves_or_halts_sample :
  components "bin/sh" = ["bin"%string] ++ ["sh"%string] /\
  TraversePath Samples.listing Samples.disk "/bin/sh"
  = Some (mkVNode "bin" 11, false, "sh"%string).
Proof.
  split; [reflexivity|].
  exact (TraversePath_resolves_or_halts Samples.listing Samples.disk
           "bin/sh" ["bin"%string] "sh" eq_refl eq_refl).
Defined.

(** C4 does not hold as stated.  In [/usr/init] the intermediate component
    [usr] is no entry of [/], and [TraversePath] does not return an error:
    its [KAssert] fails and the kernel halts.  And in [/bin/] the only
    component, [bin], resolves, yet the traversal does not succeed: it looks
    the empty run after the last [/] up in [/bin] and returns [bin] with
    [exists = false]. *)
Lemma TraversePath_intermediate_missing_halts :
  (components "usr/init" = ["usr"%string; "init"%string] /\
   resolve (Samples.listing Samples.disk) root ["usr"%string] = None /\
   TraversePath Samples.listing Samples.disk "/usr/init" = None) /\
  (components "bin/" = ["bin"%string] /\
   resolve (Samples.listing Samples.disk) root ["bin"%string]
   = Some (mkVNode "bin" 11) /\
   TraversePath Samples.listing Samples.disk "/bin/"
   = Some (mkVNode "bin" 11, false, ""%string)).
Proof. repeat split; reflexivity. Qed.

End TraverseFacts.

(** *** Seeking past the end *)

Module SeekFacts.
Import Machine Halting VFS VFSSpec MachineFacts VectorFacts.

Lemma setInode_same (disk : Disk) (n : Z) (ino : Ext2Inode) :
  setInode disk n ino n = ino.
Proof. unfold setInode. now rewrite Z.eqb_refl. Qed.

Lemma map_constant {A B} (f : A -> B) (c : B) (l : list A) :
  (forall x, In x l -> f x = c) -> map f l = repeat c (length l).
Proof.
  induction l as [|x l IH]; intros H; simpl; [reflexivity|].
  rewrite H by (left; reflexivity). rewrite IH; [reflexivity|].
  intros y Hy. apply H. right. exact Hy.
Qed.

(** Reading at or after the size gives nothing. *)
Lemma InodeRead_past_end (ino : Ext2Inode) (count readPos : Z) :
  size0 ino <= readPos -> InodeRead ino count readPos = [].
Proof.
  intros H. unfold InodeRead.
  replace (Z.to_nat (Z.min (readPos + count) (size0 ino) - readPos)) with O
    by lia.
  reflexivity.
Qed.

Lemma RepositionOffset_past_end (fd : FileDescriptor) (disk : Disk)
  (inode offset_ : Z) (seekType : VFSSeekType) :
  let newOffset := sought fd (disk inode) offset_ seekType in
  0 <= size0 (disk inode) < newOffset -> newOffset < 2 ^ 64 ->
  RepositionOffset fd disk inode offset_ seekType
  = (setOffset newOffset fd,
     setInode disk inode (gapZeroed (disk inode) newOffset),
     newOffset).
Proof.
  intros newOffset Hs Hn. unfold RepositionOffset.
  assert (Hnew : match seekType with
                 | SeekSet => offset_
                 | SeekCursor => wrap64 (offset fd + offset_)
                 | SeekEnd => wrap64 (size0 (disk inode) + offset_)
                 end = newOffset).
  { unfold newOffset, sought in *.
    destruct seekType; [reflexivity | |]; apply wrap64_small; lia. }
  rewrite Hnew.
  assert (Hlt : (size0 (disk inode) <? newOffset) = true)
    by (apply Z.ltb_lt; lia).
  rewrite Hlt, wrap64_small by lia. reflexivity.
Qed.

Lemma descriptorAt_index (process : Process) (descriptor : Z) (i : nat)
  (fd : FileDescriptor) :
  descriptorAt process descriptor = Some (i, fd) ->
  i = Z.to_nat descriptor /\ (i < length (fileDescriptors process))%nat /\
  fd = Vector.Get zeroDescriptor (fileDescriptors process) i.
Proof.
  unfold descriptorAt.
  destruct ((0 <=? descriptor)
            && (descriptor <? Z.of_nat (length (fileDescriptors process))))
    eqn:E; [|discriminate].
  intros H. injection H as <- <-.
  apply andb_prop in E. destruct E as [E1 E2].
  apply Z.leb_le in E1. apply Z.ltb_lt in E2.
  repeat split. lia.
Qed.

Lemma descriptorAt_Put (process : Process) (descriptor : Z) (i : nat)
  (fd fd' : FileDescriptor) :
  descriptorAt process descriptor = Some (i, fd) ->
  descriptorAt (mkProcess (Vector.Put i fd' (fileDescriptors process)))
    descriptor
  = Some (i, fd').
Proof.
  intros H. pose proof (descriptorAt_index _ _ _ _ H) as (Hi & Hlen & _).
  unfold descriptorAt in *. simpl. rewrite Put_length.
  destruct ((0 <=? descriptor)
            && (descriptor <? Z.of_nat (length (fileDescriptors process))));
    [|discriminate].
  rewrite <- Hi, Get_Put_same by exact Hlen. reflexivity.
Qed.

(** C5.  A descriptor of the inode [inode] is repositioned, by a seek of
    any of the three types, to [newOffset], past the inode's size.  The seek
    returns [newOffset] and leaves [size0] as it was, for any file, so no
    byte at or after the old size can be read yet.  After the next [Write] of [count > 0] bytes
    through the descriptor, [size0] is [newOffset + count] and the bytes from
    the old size up to [newOffset] read back as zeros. *)
Theorem seek_past_end_grows_only_on_write
  (process : Process) (disk : Disk) (descriptor : Z) (i : nat)
  (fd : FileDescriptor) (inode offset_ : Z) (seekType : VFSSeekType)
  (buffer : Z -> byte) (count : Z)
  (Hdescriptor : descriptorAt process descriptor = Some (i, fd))
  (Hinode : inodeOf fd = Some inode)
  (Hpast : 0 <= size0 (disk inode) < sought fd (disk inode) offset_ seekType)
  (Hcount : 0 < count)
  (Hfits : sought fd (disk inode) offset_ seekType + count < 2 ^ 32) :
  let oldSize := size0 (disk inode) in
  let newOffset := sought fd (disk inode) offset_ seekType in
  exists process1 disk1,
    RepositionOffset_descriptor descriptor offset_ seekType process disk
    = Some (process1, disk1, newOffset) /\
    size0 (disk1 inode) = oldSize /\
    (forall n pos, oldSize <= pos -> InodeRead (disk1 inode) n pos = []) /\
    exists process2 disk2,
      Write descriptor buffer count process1 disk1
      = Some (count, process2, disk2) /\
      size0 (disk2 inode) = newOffset + count /\
      InodeRead (disk2 inode) (newOffset - oldSize) oldSize
      = repeat Byte.x00 (Z.to_nat (newOffset - oldSize)).
Proof.
  intros oldSize newOffset. fold newOffset in Hpast, Hfits.
  set (fd1 := setOffset newOffset fd).
  set (ino1 := gapZeroed (disk inode) newOffset).
  set (disk1 := setInode disk inode ino1).
  set (process1 := mkProcess (Vector.Put i fd1 (fileDescriptors process))).
  assert (Hseek : RepositionOffset_descriptor descriptor offset_ seekType
                    process disk = Some (process1, disk1, newOffset)).
  { unfold RepositionOffset_descriptor. rewrite Hdescriptor.
    cbn [Halting.bind snd fst]. rewrite Hinode. cbn [Halting.bind].
    rewrite RepositionOffset_past_end by (fold newOffset; lia).
    reflexivity. }
  assert (Hino1 : disk1 inode = ino1) by apply setInode_same.
  exists process1, disk1. split; [exact Hseek|].
  split; [rewrite Hino1; reflexivity|].
  split.
  { intros n pos Hpos. apply InodeRead_past_end. rewrite Hino1. exact Hpos. }
  (* the write *)
  set (ino2 := fst (InodeWrite ino1 (Some buffer) count newOffset true)).
  assert (Hsize2 : size0 ino2 = newOffset + count).
  { unfold ino2, InodeWrite. simpl.
    assert (Hlt : (size0 (disk inode) <? newOffset + count) = true)
      by (apply Z.ltb_lt; lia).
    rewrite Hlt. unfold wrap32. apply Z.mod_small. lia. }
  set (disk2 := setInode disk1 inode ino2).
  assert (Hwrite : Write descriptor buffer count process1 disk1
                   = Some (count,
                           mkProcess (Vector.Put i
                                        (setOffset (newOffset + count) fd1)
                                        (fileDescriptors process1)),
                           disk2)).
  { unfold Write. unfold process1 at 1.
    rewrite (descriptorAt_Put _ _ _ _ fd1 Hdescriptor).
    cbn [Halting.bind snd fst].
    assert (Hinode1 : inodeOf fd1 = Some inode) by exact Hinode.
    rewrite Hinode1. cbn [Halting.bind]. rewrite Hino1.
    change (offset fd1) with newOffset.
    change (snd (InodeWrite ino1 (Some buffer) count newOffset true)) with count.
    fold ino2. fold disk2.
    unfold RepositionOffset. cbn [snd fst].
    change (offset fd1) with newOffset.
    assert (Hd2 : disk2 inode = ino2) by apply setInode_same.
    rewrite Hd2, Hsize2.
    assert (Hoff : wrap64 (newOffset + count) = newOffset + count)
      by (apply wrap64_small; lia).
    rewrite Hoff, Z.ltb_irrefl. reflexivity. }
  eexists. exists disk2. split; [exact Hwrite|].
  assert (Hd2 : disk2 inode = ino2) by apply setInode_same.
  rewrite Hd2. split; [exact Hsize2|].
  unfold InodeRead. rewrite Hsize2.
  replace (Z.min (oldSize + (newOffset - oldSize)) (newOffset + count) - oldSize)
    with (newOffset - oldSize) by lia.
  rewrite (map_constant _ Byte.x00); [rewrite length_seq; reflexivity|].
  intros k Hk. apply in_seq in Hk.
  unfold ino2, InodeWrite. cbn [fst contents].
  assert (H1 : (oldSize + Z.of_nat k <? newOffset + count) = true)
    by (apply Z.ltb_lt; lia).
  assert (H2 : (newOffset <=? oldSize + Z.of_nat k) = false)
    by (apply Z.leb_gt; lia).
  rewrite H2. cbn [andb]. unfold ino1, gapZeroed. cbn [contents].
  fold oldSize.
  assert (H3 : (oldSize <=? oldSize + Z.of_nat k) = true)
    by (apply Z.leb_le; lia).
  assert (H4 : (oldSize + Z.of_nat k <? oldSize + (newOffset - oldSize)) = true)
    by (apply Z.ltb_lt; lia).
  rewrite H3, H4. reflexivity.
Qed.

Lemma seek_past_end_grows_only_on_write_sample :
  exists process1 disk1,
    RepositionOffset_descriptor 0 4 SeekEnd Samples.oneOpen Samples.helloDisk
    = Some (process1, disk1, 9) /\
    size0 (disk1 12) = 5 /\
    exists process2 disk2,
      Write 0 (fun _ => Byte.x21) 1 process1 disk1 = Some (1, process2, disk2) /\
      size0 (disk2 12) = 10 /\
      InodeRead (disk2 12) 4 5 = [Byte.x00; Byte.x00; Byte.x00; Byte.x00].
Proof.
  destruct (seek_past_end_grows_only_on_write Samples.oneOpen Samples.helloDisk
              0 0%nat Samples.openDescriptor 12 4 SeekEnd (fun _ => Byte.x21) 1)
    as (p1 & d1 & H1 & H2 & _ & p2 & d2 & H3 & H4 & H5).
  - reflexivity.
  - reflexivity.
  - vm_compute. split; [discriminate | reflexivity].
  - lia.
  - vm_compute. reflexivity.
  - exists p1, d1. split; [exact H1|]. split; [exact H2|].
    exists p2, d2. split; [exact H3|]. split; [exact H4|]. exact H5.
Defined.

End SeekFacts.

(** ** The system-call entry *)

Module SyscallFacts.
Import Machine Halting Sched Syscall MachineFacts.

Lemma signed64_negated (v : Z) :
  1 <= v <= 2 ^ 63 -> signed64 (wrap64 (- v)) = - v.
Proof.
  intros H. unfold signed64, wrap64.
  assert (E : (- v) mod 2 ^ 64 = 2 ^ 64 - v).
  { symmetry. apply (Z.mod_unique _ _ (-1)); lia. }
  rewrite E.
  destruct (2 ^ 64 - v <? 2 ^ 63) eqn:L;
    [apply Z.ltb_lt in L | apply Z.ltb_ge in L]; lia.
Qed.

(** C7.  When the dispatched call returns [returned] with the error kind
    [error], in the frame [frame1], and every error kind other than
    [Error::None] has a value in 1..4095: the handler leaves [frame1] with
    only [rax] rewritten; with [error = None], [rax] is [returned]; with
    another kind, [rax] is the two's-complement negation of its value, which
    read as a signed number is minus that value, in -4095..-1; so a
    non-negative [rax] after the handler means [error = None]. *)
Theorem SystemCallHandler_return_register
  (errorValue : Error.t -> Z)
  (SystemCall : Z -> Z -> Z -> Z -> Z -> Z -> Z -> InterruptFrame ->
                option (Z * Error.t * InterruptFrame))
  (interruptFrame frame1 : InterruptFrame) (returned : Z) (error : Error.t)
  (Hvalues : forall e, e <> Error.None -> 1 <= errorValue e <= 4095)
  (Hcall : SystemCall (rax interruptFrame) (rdi interruptFrame)
             (rsi interruptFrame) (rdx interruptFrame) (rcx interruptFrame)
             (r8 interruptFrame) (r9 interruptFrame) interruptFrame
           = Some (returned, error, frame1)) :
  exists frame',
    SystemCallHandler errorValue SystemCall interruptFrame = Some frame' /\
    frame' = set_rax (rax frame') frame1 /\
    (error = Error.None -> rax frame' = returned) /\
    (error <> Error.None ->
     rax frame' = wrap64 (- errorValue error) /\
     rax frame' = 2 ^ 64 - errorValue error /\
     signed64 (rax frame') = - errorValue error /\
     -4095 <= signed64 (rax frame') <= -1) /\
    (0 <= signed64 (rax frame') -> error = Error.None).
Proof.
  unfold SystemCallHandler. rewrite Hcall. cbn [Halting.bind fst snd].
  destruct (Error.isNone error) eqn:En; cbn [negb].
  - assert (He : error = Error.None) by (destruct error; try discriminate; reflexivity).
    eexists. split; [reflexivity|]. split; [reflexivity|].
    split; [reflexivity|]. split; [congruence|]. intros _. exact He.
  - assert (He : error <> Error.None) by (intros ->; discriminate).
    pose proof (Hvalues error He) as Hv.
    assert (Hs : signed64 (wrap64 (- errorValue error)) = - errorValue error)
      by (apply signed64_negated; lia).
    eexists. split; [reflexivity|]. split; [reflexivity|].
    split; [congruence|]. cbn [rax set_rax]. split.
    + intros _. split; [reflexivity|]. split.
      * unfold wrap64. symmetry. apply (Z.mod_unique _ _ (-1)); lia.
      * rewrite Hs. lia.
    + rewrite Hs. lia.
Qed.

Lemma SystemCallHandler_return_register_sample :
  SystemCallHandler Samples.errorValue Samples.systemCall zeroFrame
  = Some (set_rax (2 ^ 64 - 1) zeroFrame) /\
  signed64 (2 ^ 64 - 1) = -1.
Proof.
  destruct (SystemCallHandler_return_register Samples.errorValue
              Samples.systemCall zeroFrame zeroFrame 0 Error.NotFound)
    as (f' & H1 & H2 & _ & H4 & _).
  - intros e He. destruct e; simpl; try lia. congruence.
  - reflexivity.
  - destruct H4 as (_ & H5 & H6 & _); [discriminate|].
    split.
    + rewrite H1, H2, H5. reflexivity.
    + reflexivity.
Defined.

End SyscallFacts.

(** ** Bytes *)

Module BytesFacts.
Import Bytes.

Lemma byteValue_range (b : byte) : 0 <= byteValue b <= 255.
Proof.
  unfold byteValue. pose proof (Byte.to_N_bounded b) as H. lia.
Qed.

Lemma littleEndian_nonneg (bs : list byte) : 0 <= littleEndian bs.
Proof.
  induction bs as [|b bs IH]; [simpl; lia|].
  change (littleEndian (b :: bs)) with (byteValue b + 256 * littleEndian bs).
  pose proof (byteValue_range b). lia.
Qed.

End BytesFacts.

(** ** The ELF loader *)

Module ELFFacts.
Import Machine Bytes Mem ELF MachineFacts BytesFacts.

Lemma bind_Done {A B} (m : Run A) (k : A -> Run B) (b : B) :
  bind m k = Done b -> exists a, m = Done a /\ k a = Done b.
Proof.
  destruct m as [a| |]; simpl; intros H; try discriminate.
  exists a. split; [reflexivity | exact H].
Qed.

Lemma Assert_Done (c : bool) (u : unit) : Assert c = Done u -> c = true.
Proof. destruct c; simpl; [reflexivity | discriminate]. Qed.

Lemma FileRead_start (bytes : list byte) (count : Z) :
  fst (FileRead (mkOpenFile bytes 0) count) = firstn (Z.to_nat count) bytes.
Proof. reflexivity. Qed.

(** C9.  Whenever [LoadELF] returns, whatever the bound on nested loads:
    the file exists and holds at least the 64 bytes of a header; its first
    four bytes are 7F 45 4C 46; the header's program-header entry size is
    [sizeof(ProgramHeader)]; its type is Executable or Shared; and when the
    type is Shared the entry that is returned is [RTDL_ADDR + entry] in
    [uintptr_t] arithmetic, which is the plain sum 0x40000000 + entry
    whenever that sum is below 2^64. *)
Theorem LoadELF_accepts_checked_images
  (fuel : nat) (files : Files) (path : string) (l l' : Loader)
  (entry0 stackPtr0 entry' stackPtr' : Z)
  (Haccepted : LoadELF fuel files path l entry0 stackPtr0
               = Done (l', entry', stackPtr')) :
  exists image,
    files path = Some image /\
    (64 <= length image)%nat /\
    map byteValue (firstn 4 image) = [0x7f; 0x45; 0x4c; 0x46] /\
    let elfHeader := readELFHeader (firstn 64 image) in
    programHeaderTableEntrySize elfHeader = sizeof_ProgramHeader /\
    (type elfHeader = Executable \/ type elfHeader = Shared) /\
    (type elfHeader = Shared ->
     RTDL_ADDR = 0x40000000 /\
     entry' = wrap64 (RTDL_ADDR + entry elfHeader) /\
     (RTDL_ADDR + entry elfHeader < 2 ^ 64 ->
      entry' = RTDL_ADDR + entry elfHeader)).
Proof.
  destruct fuel as [|fuel]; [discriminate|].
  cbn [LoadELF] in Haccepted.
  destruct (files path) as [image|]; [|discriminate].
  exists image. split; [reflexivity|].
  rewrite FileRead_start in Haccepted.
  change (Z.to_nat sizeof_ELFHeader) with 64%nat in Haccepted.
  apply bind_Done in Haccepted. destruct Haccepted as (u1 & Hlen & H).
  apply bind_Done in H. destruct H as (u2 & Hmagic & H).
  apply bind_Done in H. destruct H as (u3 & Hsize & H).
  apply bind_Done in H. destruct H as (u4 & Htype & H).
  apply bind_Done in H. destruct H as (u5 & _ & H).
  apply bind_Done in H. destruct H as (p & _ & H).
  apply Assert_Done in Hlen, Hmagic, Hsize, Htype.
  apply Z.eqb_eq in Hlen, Hsize.
  assert (Hl : (64 <= length image)%nat).
  { rewrite length_firstn in Hlen. unfold sizeof_ELFHeader in Hlen. lia. }
  split; [exact Hl|].
  split.
  { unfold readELFHeader in Hmagic. cbn [eIdentMagic] in Hmagic.
    rewrite firstn_firstn in Hmagic. change (Nat.min 4 64) with 4%nat in Hmagic.
    destruct (firstn 4 image) as [|b0 [|b1 [|b2 [|b3 [|b4 r]]]]];
      try discriminate.
    apply andb_prop in Hmagic. destruct Hmagic as [Hm B3].
    apply andb_prop in Hm. destruct Hm as [Hm B2].
    apply andb_prop in Hm. destruct Hm as [B0 B1].
    apply Z.eqb_eq in B0, B1, B2, B3. simpl. congruence. }
  cbv zeta. split; [exact Hsize|].
  split.
  { apply orb_prop in Htype. destruct Htype as [E|E]; apply Z.eqb_eq in E; auto. }
  intros Hshared. rewrite Hshared in H. rewrite Z.eqb_refl in H.
  pose proof (f_equal (fun r => match r with
                                | Done (_, e, _) => e
                                | _ => 0
                                end) H) as He.
  cbv beta iota in He. clear - He.
  split; [reflexivity|]. split; [symmetry; exact He|].
  intros Hsum. rewrite <- He. apply wrap64_small.
  unfold readELFHeader, field in *. cbn [entry] in *.
  generalize dependent (firstn 8 (skipn 24 (firstn 64 image))).
  intros bs _ Hsum. pose proof (littleEndian_nonneg bs) as Hnn.
  unfold RTDL_ADDR in *. lia.
Qed.

Lemma LoadELF_accepts_checked_images_sample :
  exists l',
    LoadELF 1 Samples.files "/lib/ld.so" Samples.emptyLoader 0 0
    = Done (l', 0x40001000, 0) /\
    map byteValue (firstn 4 Samples.ldso) = [0x7f; 0x45; 0x4c; 0x46].
Proof.
  eexists. split; [vm_compute; reflexivity|].
  destruct (LoadELF_accepts_checked_images 1 Samples.files "/lib/ld.so"
              Samples.emptyLoader Samples.emptyLoader 0 0 0x40001000 0)
    as (image & Hf & _ & Hm & _).
  - vm_compute. reflexivity.
  - vm_compute in Hf. injection Hf as <-. exact Hm.
Defined.

(** The executable [/bin/init] names [/lib/ld.so] as its interpreter:
    the loader returns the interpreter's entry, biased by [RTDL_ADDR], and
    the stack pointer below the thirteen words of the initial stack. *)
Example LoadELF_with_interpreter :
  exists l',
    LoadELF 2 Samples.files "/bin/init" Samples.emptyLoader 0 0
    = Done (l', 0x40001000, USER_STACK_BASE - 13 * 8) /\
    mapped l'
    = [(0x7fffffffd000, 0x200000); (0x7fffffffe000, 0x201000)].
Proof. eexists. split; [vm_compute; reflexivity | reflexivity]. Qed.

End ELFFacts.

(** ** The directory scan *)

Module Ext2Facts.
Import Machine Bytes Ext2 MachineFacts BytesFacts.

Section Listing.
Variable stackByte : Z -> byte.
Variable heapBytes : Z -> Z -> byte.

Local Abbreviation entryAt := (Ext2.entryAt stackByte heapBytes).
Local Abbreviation loop := (GetDirectoryListing_loop stackByte heapBytes).

(** [entrySize] is a [uint16_t]. *)
Lemma entrySize_range (ino : VFS.Ext2Inode) (p : Z) :
  0 <= entrySize (entryAt ino p) < 2 ^ 16.
Proof.
  unfold Ext2.entryAt. cbn [entrySize].
  cbn [seq map]. unfold littleEndian. cbn [fold_right].
  match goal with
  | |- 0 <= byteValue ?a + 256 * (byteValue ?b + 256 * 0) < _ =>
      pose proof (byteValue_range a); pose proof (byteValue_range b)
  end.
  lia.
Qed.

Lemma totalSize_nonneg (es : list Ext2DirectoryEntry) :
  Forall (fun e => 1 <= entrySize e) es -> 0 <= totalSize es.
Proof.
  induction 1 as [|e es He _ IH]; [unfold totalSize; simpl; lia|].
  change (totalSize (e :: es)) with (entrySize e + totalSize es). lia.
Qed.

(** The scan over entries that end exactly at the inode's size. *)
Lemma GetDirectoryListing_loop_entries (ino : VFS.Ext2Inode)
  (es : list Ext2DirectoryEntry) :
  forall (p : Z) (vNodes : list VFS.VNode) (fuel : nat),
    VFS.size0 ino < 2 ^ 32 ->
    0 <= p ->
    entriesFrom stackByte heapBytes ino p es ->
    Forall (fun e => 1 <= entrySize e) es ->
    p + totalSize es = VFS.size0 ino ->
    (length es < fuel)%nat ->
    loop fuel ino p vNodes
    = Some (vNodes ++ map ConstructVNode (filter inUse es)).
Proof.
  induction es as [|e es IH]; intros p vNodes fuel Hsz Hp Hes Hpos Hsum Hfuel.
  - destruct fuel as [|fuel]; [simpl in Hfuel; lia|].
    cbn [GetDirectoryListing_loop].
    unfold totalSize in Hsum. simpl in Hsum.
    assert (E : (p <? VFS.size0 ino) = false) by (apply Z.ltb_ge; lia).
    rewrite E. simpl. now rewrite app_nil_r.
  - destruct fuel as [|fuel]; [simpl in Hfuel; lia|].
    destruct Hes as [He Hes]. inversion Hpos as [|? ? He1 Hpos']; subst.
    change (totalSize (entryAt ino p :: es))
      with (entrySize (entryAt ino p) + totalSize es) in Hsum.
    pose proof (totalSize_nonneg es Hpos') as Hnn.
    cbn [GetDirectoryListing_loop].
    assert (E : (p <? VFS.size0 ino) = true) by (apply Z.ltb_lt; lia).
    rewrite E.
    rewrite wrap64_small by lia.
    rewrite (IH (p + entrySize (entryAt ino p))); try assumption; try lia.
    + cbn [filter]. unfold inUse at 2.
      destruct (negb (inodeNum (entryAt ino p) =? 0)); cbn [map].
      * unfold Vector.Push. rewrite <- app_assoc. reflexivity.
      * reflexivity.
    + simpl in Hfuel. lia.
Qed.

(** The scan at an entry whose size is 0 starts the next round at the
    same offset, so no number of rounds ends it. *)
Lemma GetDirectoryListing_loop_stuck (ino : VFS.Ext2Inode) (p : Z) :
  0 <= p < VFS.size0 ino -> VFS.size0 ino < 2 ^ 32 ->
  entrySize (entryAt ino p) = 0 ->
  forall (fuel : nat) (vNodes : list VFS.VNode), loop fuel ino p vNodes = None.
Proof.
  intros Hp Hsz H0 fuel.
  induction fuel as [|fuel IH]; intros vNodes; [reflexivity|].
  cbn [GetDirectoryListing_loop].
  assert (E : (p <? VFS.size0 ino) = true) by (apply Z.ltb_lt; lia).
  rewrite E, H0, Z.add_0_r, wrap64_small by lia. apply IH.
Qed.

Lemma totalSize_entries_nonneg (ino : VFS.Ext2Inode)
  (es : list Ext2DirectoryEntry) :
  forall p, entriesFrom stackByte heapBytes ino p es -> 0 <= totalSize es.
Proof.
  induction es as [|e es IH]; intros p H; [unfold totalSize; simpl; lia|].
  destruct H as [He Hes].
  change (totalSize (e :: es)) with (entrySize e + totalSize es).
  pose proof (IH _ Hes). pose proof (entrySize_range ino p) as Hr.
  rewrite <- He in Hr. lia.
Qed.

(** The scan from [p0] that comes, entry after entry, to an entry of
    size 0 below the inode's size never ends. *)
Lemma GetDirectoryListing_loop_reaches_stuck (ino : VFS.Ext2Inode)
  (pre : list Ext2DirectoryEntry) :
  forall (p0 : Z) (vNodes : list VFS.VNode) (fuel : nat),
    VFS.size0 ino < 2 ^ 32 ->
    0 <= p0 ->
    entriesFrom stackByte heapBytes ino p0 pre ->
    p0 + totalSize pre < VFS.size0 ino ->
    entrySize (entryAt ino (p0 + totalSize pre)) = 0 ->
    loop fuel ino p0 vNodes = None.
Proof.
  induction pre as [|e pre IH]; intros p0 vNodes fuel Hsz Hp Hes Hlt H0.
  - unfold totalSize in Hlt, H0. simpl in Hlt, H0. rewrite Z.add_0_r in Hlt, H0.
    apply GetDirectoryListing_loop_stuck; [lia | exact Hsz | exact H0].
  - destruct Hes as [He Hes]. subst e.
    change (totalSize (entryAt ino p0 :: pre))
      with (entrySize (entryAt ino p0) + totalSize pre) in Hlt, H0.
    pose proof (totalSize_entries_nonneg ino pre _ Hes) as Hnn.
    pose proof (entrySize_range ino p0) as Hr.
    destruct fuel as [|fuel]; [reflexivity|].
    cbn [GetDirectoryListing_loop].
    assert (E : (p0 <? VFS.size0 ino) = true) by (apply Z.ltb_lt; lia).
    rewrite E, wrap64_small by lia.
    apply IH; try assumption; try lia.
    rewrite <- Z.add_assoc. exact H0.
Qed.

End Listing.

(** C10.  Let the entries found in a directory inode from offset 0 on,
    each one [entrySize] after the one before, all have [entrySize >= 1] and
    sizes that add up to the inode's size.  Then the scan ends after one
    round per entry (any larger bound on the rounds gives the same result)
    and returns the vnodes of exactly the entries whose inode number is not
    0, in the order of the entries.  When instead the scan, going from entry
    to entry, comes to an entry of size 0 below the inode's size, the next
    round starts at the same offset, and the scan never ends. *)
Theorem GetDirectoryListing_strides
  (stackByte : Z -> byte) (heapBytes : Z -> Z -> byte) :
  (forall (ino : VFS.Ext2Inode) (es : list Ext2DirectoryEntry),
     0 <= VFS.size0 ino < 2 ^ 32 ->
     entriesFrom stackByte heapBytes ino 0 es ->
     Forall (fun e => 1 <= entrySize e) es ->
     totalSize es = VFS.size0 ino ->
     forall fuel, (length es < fuel)%nat ->
       GetDirectoryListing stackByte heapBytes fuel ino
       = Some (map ConstructVNode (filter inUse es)))
  /\
  (forall (ino : VFS.Ext2Inode) (pre : list Ext2DirectoryEntry),
     0 <= VFS.size0 ino < 2 ^ 32 ->
     entriesFrom stackByte heapBytes ino 0 pre ->
     totalSize pre < VFS.size0 ino ->
     entrySize (Ext2.entryAt stackByte heapBytes ino (totalSize pre)) = 0 ->
     wrap64 (totalSize pre
             + entrySize (Ext2.entryAt stackByte heapBytes ino (totalSize pre)))
     = totalSize pre /\
     forall fuel, GetDirectoryListing stackByte heapBytes fuel ino = None).
Proof.
  split.
  - intros ino es Hsize Hentries Hpositive Htotal fuel Hfuel.
    unfold GetDirectoryListing.
    rewrite (GetDirectoryListing_loop_entries stackByte heapBytes ino es);
      try assumption; try lia. reflexivity.
  - intros ino pre Hsize Hentries Hlt H0.
    pose proof (totalSize_entries_nonneg stackByte heapBytes ino pre _ Hentries)
      as Hnn.
    split.
    + rewrite H0, Z.add_0_r. apply wrap64_small. lia.
    + intros fuel. unfold GetDirectoryListing.
      apply (GetDirectoryListing_loop_reaches_stuck stackByte heapBytes ino pre);
        try assumption; try lia.
Qed.

Lemma GetDirectoryListing_strides_sample :
  GetDirectoryListing Samples.noStack Samples.noHeap 4 Samples.directory
  = Some [VFS.mkVNode "." 2; VFS.mkVNode "a.txt" 12] /\
  GetDirectoryListing Samples.noStack Samples.noHeap 100 Samples.brokenDirectory
  = None.
Proof.
  destruct (GetDirectoryListing_strides Samples.noStack Samples.noHeap)
    as [Hgood Hstuck].
  split.
  - pose (e := Ext2.entryAt Samples.noStack Samples.noHeap Samples.directory).
    rewrite (Hgood Samples.directory [e 0; e 12; e 24]).
    + vm_compute. reflexivity.
    + simpl. lia.
    + vm_compute. repeat split.
    + repeat constructor; vm_compute; discriminate.
    + vm_compute. reflexivity.
    + simpl. lia.
  - pose (e := Ext2.entryAt Samples.noStack Samples.noHeap
                 Samples.brokenDirectory).
    destruct (Hstuck Samples.brokenDirectory [e 0]) as [_ H].
    + simpl. lia.
    + vm_compute. repeat split.
    + vm_compute. reflexivity.
    + vm_compute. reflexivity.
    + apply H.
Defined.

(** With the size of the second entry set to 0 the scan stays at offset
    12: a hundred rounds do not end it. *)
Example GetDirectoryListing_zero_size_entry :
  entrySize (Ext2.entryAt Samples.noStack Samples.noHeap
               Samples.brokenDirectory 12) = 0 /\
  GetDirectoryListing Samples.noStack Samples.noHeap 100
    Samples.brokenDirectory = None.
Proof. split; vm_compute; reflexivity. Qed.

End Ext2Facts.

(** ** More on the scheduler *)

Module SelectFacts.
Import Machine Halting Mem Sched SchedSpec MachineFacts VectorFacts SchedFacts.

(** The loop with an index does to the queue what [selectFrom] does to
    the slots from the index on. *)
Lemma SelectLoop_selectFrom (fuel : nat) :
  forall (pre suf : list Task) (current : Task) (found : bool),
    (length suf <= fuel)%nat ->
    SelectLoop fuel (length pre) (pre ++ suf) current found
    = (pre ++ fst (fst (selectFrom suf current found)),
       snd (fst (selectFrom suf current found)),
       snd (selectFrom suf current found)).
Proof.
  induction fuel as [|fuel IH]; intros pre suf current found Hfuel.
  - destruct suf; [|simpl in Hfuel; lia]. reflexivity.
  - destruct suf as [|t rest].
    + cbn [SelectLoop selectFrom fst snd]. unfold Vector.GetLength.
      rewrite app_nil_r, Nat.ltb_irrefl. reflexivity.
    + cbn [SelectLoop]. unfold Vector.GetLength.
      assert (Hlt : (length pre <? length (pre ++ t :: rest))%nat = true).
      { apply Nat.ltb_lt. rewrite length_app. simpl. lia. }
      rewrite Hlt, Get_middle. unfold Vector.Pop. cbn [fst snd].
      rewrite Get_middle, Remove_middle.
      cbn [selectFrom]. unfold isNormal.
      destruct (TaskState_eqb (state t) Normal).
      * destruct rest as [|u rest'].
        -- cbn [fst snd]. rewrite !app_nil_r.
           destruct fuel as [|fuel']; [reflexivity|].
           cbn [SelectLoop]. unfold Vector.GetLength.
           assert (E : (S (length pre) <? length pre)%nat = false)
             by (apply Nat.ltb_ge; lia).
           rewrite E. reflexivity.
        -- replace (pre ++ u :: rest') with ((pre ++ [u]) ++ rest')
             by (rewrite <- app_assoc; reflexivity).
           replace (S (length pre)) with (length (pre ++ [u]))
             by (rewrite length_app; simpl; lia).
           rewrite IH by (simpl in Hfuel; lia).
           cbn [fst snd]. rewrite <- app_assoc. reflexivity.
      * replace (pre ++ t :: rest) with ((pre ++ [t]) ++ rest)
          by (rewrite <- app_assoc; reflexivity).
        replace (S (length pre)) with (length (pre ++ [t]))
          by (rewrite length_app; simpl; lia).
        rewrite IH by (simpl in Hfuel; lia).
        cbn [fst snd]. rewrite <- app_assoc. reflexivity.
Qed.

Lemma SelectLoop_whole (q : list Task) (current : Task) (found : bool) :
  SelectLoop (Vector.GetLength q) O q current found
  = selectFrom q current found.
Proof.
  pose proof (SelectLoop_selectFrom (length q) [] q current found (le_n _)) as H.
  simpl in H. unfold Vector.GetLength. rewrite H.
  destruct (selectFrom q current found) as [[r c] f]. reflexivity.
Qed.

(** Properties of [selectFrom] go by induction on a bound of the number
    of slots, as one round passes over one or two of them. *)
Lemma selectFrom_ind (P : list Task -> Prop) :
  P [] ->
  (forall t, P [t]) ->
  (forall t rest, isNormal t = false -> P rest -> P (t :: rest)) ->
  (forall t u rest, isNormal t = true -> P rest -> P (t :: u :: rest)) ->
  forall slots, P slots.
Proof.
  intros H0 H1 Hskip Hpop slots.
  assert (H : forall n slots, (length slots <= n)%nat -> P slots).
  { induction n as [|n IH]; intros l Hl.
    - destruct l; [exact H0 | simpl in Hl; lia].
    - destruct l as [|t [|u rest]]; [exact H0 | exact (H1 t) |].
      destruct (isNormal t) eqn:E.
      + apply Hpop; [exact E|]. apply IH. simpl in Hl. lia.
      + apply Hskip; [exact E|]. apply IH. simpl in Hl |- *. lia. }
  apply (H (length slots)). lia.
Qed.

(** With no [Normal] slot nothing is taken. *)
Lemma selectFrom_none (slots : list Task) (current : Task) (found : bool) :
  existsb isNormal slots = false ->
  selectFrom slots current found = (slots, current, found).
Proof.
  induction slots as [|t rest IH]; intros H; [reflexivity|].
  simpl in H. apply orb_false_elim in H. destruct H as [Ht Hrest].
  cbn [selectFrom]. rewrite Ht, (IH Hrest). reflexivity.
Qed.

(** With a [Normal] slot, a [Normal] task of the slots is taken. *)
Lemma selectFrom_some (slots : list Task) :
  forall (current : Task) (found : bool),
    existsb isNormal slots = true ->
    let r := selectFrom slots current found in
    snd r = true /\ isNormal (snd (fst r)) = true /\ In (snd (fst r)) slots.
Proof.
  induction slots as [| t | t rest Ht IH | t u rest Ht IH] using selectFrom_ind;
    intros current found H.
  - discriminate.
  - simpl in H. rewrite orb_false_r in H. cbn [selectFrom]. rewrite H.
    cbn. auto.
  - simpl in H. rewrite Ht in H. simpl in H.
    cbn [selectFrom]. rewrite Ht. cbn [fst snd].
    destruct (IH current found H) as (A & B & C). auto using in_cons.
  - cbn [selectFrom]. rewrite Ht. cbn [fst snd].
    destruct (existsb isNormal rest) eqn:E.
    + destruct (IH t true eq_refl) as (A & B & C).
      repeat split; auto using in_cons.
    + rewrite (selectFrom_none rest t true E). cbn. auto.
Qed.

(** Every task is accounted for: the slots are, in some order, the task
    taken last, the tasks kept, and the tasks taken before the last one,
    which are dropped; the dropped ones are [Normal], the tasks that are not
    [Normal] are all kept. *)
Lemma selectFrom_accounts (slots : list Task) :
  forall (current : Task) (found : bool),
    existsb isNormal slots = true ->
    let r := selectFrom slots current found in
    exists dropped,
      Permutation.Permutation slots (snd (fst r) :: dropped ++ fst (fst r)) /\
      Forall (fun t => isNormal t = true) dropped.
Proof.
  induction slots as [| t | t rest Ht IH | t u rest Ht IH] using selectFrom_ind;
    intros current found H.
  - discriminate.
  - simpl in H. rewrite orb_false_r in H. cbn [selectFrom]. rewrite H.
    exists []. split; [apply Permutation.Permutation_refl | constructor].
  - simpl in H. rewrite Ht in H. simpl in H.
    cbn [selectFrom]. rewrite Ht. cbn [fst snd].
    destruct (IH current found H) as (dropped & Hp & Hd).
    exists dropped. split; [|exact Hd].
    apply Permutation.Permutation_trans
      with (t :: snd (fst (selectFrom rest current found))
              :: dropped ++ fst (fst (selectFrom rest current found))).
    + apply Permutation.perm_skip. exact Hp.
    + apply Permutation.Permutation_trans
        with (snd (fst (selectFrom rest current found))
                :: t :: dropped ++ fst (fst (selectFrom rest current found))).
      * apply Permutation.perm_swap.
      * apply Permutation.perm_skip. apply Permutation.Permutation_middle.
  - cbn [selectFrom]. rewrite Ht. cbn [fst snd].
    destruct (existsb isNormal rest) eqn:E.
    + destruct (IH t true eq_refl) as (dropped & Hp & Hd).
      exists (t :: dropped). split; [|constructor; assumption].
      set (c := snd (fst (selectFrom rest t true))) in *.
      set (k := fst (fst (selectFrom rest t true))) in *.
      apply Permutation.Permutation_trans with (t :: u :: c :: dropped ++ k).
      * do 2 apply Permutation.perm_skip. exact Hp.
      * apply Permutation.Permutation_trans with (c :: t :: u :: dropped ++ k).
        -- apply Permutation.Permutation_sym.
           apply (Permutation.Permutation_middle [t; u] (dropped ++ k) c).
        -- apply Permutation.perm_skip. cbn [app].
           apply Permutation.perm_skip.
           apply Permutation.Permutation_middle.
    + rewrite (selectFrom_none rest t true E). cbn [fst snd].
      exists []. split; [apply Permutation.Permutation_refl | constructor].
Qed.

(** One [Normal] slot: it is taken, and the others stay in order. *)
Lemma selectFrom_single (before after : list Task) (t : Task) :
  existsb isNormal before = false -> isNormal t = true ->
  existsb isNormal after = false ->
  forall current found,
    selectFrom (before ++ t :: after) current found
    = (before ++ after, t, true).
Proof.
  intros Hb Ht Ha. induction before as [|b before IH]; intros current found.
  - cbn [app selectFrom]. rewrite Ht. destruct after as [|u after']; [reflexivity|].
    simpl in Ha. apply orb_false_elim in Ha. destruct Ha as [_ Ha'].
    rewrite (selectFrom_none after' t true Ha'). reflexivity.
  - simpl in Hb. apply orb_false_elim in Hb. destruct Hb as [Hb1 Hb2].
    cbn [app selectFrom]. rewrite Hb1, (IH Hb2). reflexivity.
Qed.

End SelectFacts.

Module SwitchFacts.
Import Machine Halting Mem Sched SchedSpec MachineFacts VectorFacts SchedFacts
  TimerFacts SelectFacts.

(** [SwitchToNextTask] after a timer pass that did not halt, piece by
    piece. *)
Lemma SwitchToNextTask_pieces (remainingTime : Z)
  (interruptFrame : InterruptFrame) (s0 s : Scheduler) :
  UpdateTimerEntries remainingTime s0 = Some s ->
  let saved :=
    if restoreFrame s then set_frame interruptFrame (currentTask s)
    else currentTask s in
  let r := selectFrom (queueBeforeSelection interruptFrame s) saved false in
  exists s',
    SwitchToNextTask remainingTime interruptFrame s0
    = Some (s', frame (currentTask s')) /\
    taskQueue s' = fst (fst r) /\
    currentTask s' = (if snd r then snd (fst r) else idleTask s) /\
    restoreFrame s' = snd r /\
    idleTask s' = idleTask s /\
    timerEntries s' = timerEntries s /\
    currentTimerTime s' = closestExpiry (timerEntries s) /\
    lapicTimeBetweenTimerFires s' = closestExpiry (timerEntries s) /\
    tssSystemCallStack s' = syscallStackAddr (currentTask s') /\
    cr3 s' = pagingManager (currentTask s').
Proof.
  intros Hupd saved r. unfold SwitchToNextTask. rewrite Hupd.
  cbn [Halting.bind].
  assert (Hq : (if restoreFrame s
                then Vector.Push (taskQueue s)
                       (if restoreFrame s
                        then set_frame interruptFrame (currentTask s)
                        else currentTask s)
                else taskQueue s)
               = queueBeforeSelection interruptFrame s).
  { unfold queueBeforeSelection, Vector.Push. destruct (restoreFrame s); reflexivity. }
  rewrite Hq, SelectLoop_whole. fold saved. fold r.
  match goal with
  | |- exists s', Some (?x, _) = _ /\ _ => exists x
  end.
  split; [reflexivity|]. cbn.
  repeat split. destruct (snd r); reflexivity.
Qed.

(** The choice that the selection loop makes, for the facts below. *)
Lemma SwitchToNextTask_choice (remainingTime : Z)
  (interruptFrame : InterruptFrame) (s0 s : Scheduler)
  (Htimers : UpdateTimerEntries remainingTime s0 = Some s) :
  let q := queueBeforeSelection interruptFrame s in
  exists s',
    SwitchToNextTask remainingTime interruptFrame s0
    = Some (s', frame (currentTask s')) /\
    tssSystemCallStack s' = syscallStackAddr (currentTask s') /\
    cr3 s' = pagingManager (currentTask s') /\
    (existsb isNormal q = true ->
     state (currentTask s') = Normal /\ In (currentTask s') q /\
     restoreFrame s' = true) /\
    (existsb isNormal q = false ->
     currentTask s' = idleTask s /\ taskQueue s' = q /\
     restoreFrame s' = false).
Proof.
  intros q.
  destruct (SwitchToNextTask_pieces remainingTime interruptFrame s0 s Htimers)
    as (s' & Hs & Hq & Hc & Hr & _ & _ & _ & _ & Ht & Hcr).
  exists s'. split; [exact Hs|]. split; [exact Ht|]. split; [exact Hcr|].
  fold q in Hq, Hc, Hr. split.
  - intros Hex.
    destruct (selectFrom_some q
                (if restoreFrame s then set_frame interruptFrame (currentTask s)
                 else currentTask s) false Hex) as (A & B & C).
    rewrite A in Hc, Hr. rewrite Hc. repeat split; try assumption.
    apply TaskState_eqb_eq. exact B.
  - intros Hno. rewrite (selectFrom_none q _ false Hno) in Hq, Hc, Hr.
    cbn [fst snd] in Hq, Hc, Hr. auto.
Qed.



(** X2.  After a timer pass that did not halt and with a [Normal] task
    queued, every task of the queue is accounted for after the switch: the
    queue before selection is, up to order, the current task, the queue
    after, and the tasks that the loop took out before the last one and
    dropped; the dropped ones were all [Normal].  So the loop duplicates no
    task: when the PIDs of the queue were distinct, those of the current
    task and the queue after the switch are distinct. *)
Theorem SwitchToNextTask_accounts_for_tasks (remainingTime : Z)
  (interruptFrame : InterruptFrame) (s0 s : Scheduler)
  (Htimers : UpdateTimerEntries remainingTime s0 = Some s)
  (Hrunnable :
     existsb isNormal (queueBeforeSelection interruptFrame s) = true) :
  let q := queueBeforeSelection interruptFrame s in
  exists s' dropped,
    SwitchToNextTask remainingTime interruptFrame s0
    = Some (s', frame (currentTask s')) /\
    Permutation q (currentTask s' :: dropped ++ taskQueue s') /\
    Forall (fun t => state t = Normal) dropped /\
    (forall t, In t q -> state t <> Normal -> In t (taskQueue s')) /\
    (NoDup (map pid q) -> NoDup (map pid (currentTask s' :: taskQueue s'))).
Proof.
  intros q.
  destruct (SwitchToNextTask_pieces remainingTime interruptFrame s0 s Htimers)
    as (s' & Hs & Hq & Hc & _).
  fold q in Hq, Hc.
  set (saved := if restoreFrame s then set_frame interruptFrame (currentTask s)
                else currentTask s) in *.
  destruct (selectFrom_some q saved false Hrunnable) as (A & _ & _).
  destruct (selectFrom_accounts q saved false Hrunnable) as (dropped & Hp & Hd).
  rewrite A in Hc. rewrite <- Hc, <- Hq in Hp.
  assert (Hdn : Forall (fun t => state t = Normal) dropped).
  { rewrite Forall_forall in Hd |- *. intros t Ht.
    apply TaskState_eqb_eq. apply (Hd t Ht). }
  exists s', dropped. split; [exact Hs|]. split; [exact Hp|].
  split; [exact Hdn|]. split.
  - intros t Hin Hst.
    apply (Permutation_in _ Hp) in Hin. destruct Hin as [E|Hin].
    + exfalso. apply Hst. rewrite <- E, Hc.
      destruct (selectFrom_some q saved false Hrunnable) as (_ & B & _).
      apply TaskState_eqb_eq. exact B.
    + apply in_app_or in Hin. destruct Hin as [Hin|Hin]; [|exact Hin].
      exfalso. apply Hst. rewrite Forall_forall in Hdn. apply (Hdn t Hin).
  - intros Hnd.
    assert (Hpm : Permutation (map pid q)
                    (map pid (currentTask s' :: taskQueue s')
                     ++ map pid dropped)).
    { apply Permutation_trans
        with (map pid (currentTask s' :: dropped ++ taskQueue s')).
      - apply Permutation_map. exact Hp.
      - cbn [map app]. apply perm_skip. rewrite map_app.
        apply Permutation_app_comm. }
    apply (Permutation_NoDup Hpm) in Hnd.
    apply NoDup_app_remove_r in Hnd. exact Hnd.
Qed.

Lemma SwitchToNextTask_accounts_for_tasks_sample :
  exists s' dropped,
    SwitchToNextTask 0 zeroFrame Samples.threeQueued
    = Some (s', frame (currentTask s')) /\
    Permutation [Samples.task1; Samples.task2; Samples.task3]
      (currentTask s' :: dropped ++ taskQueue s').
Proof.
  destruct (SwitchToNextTask_accounts_for_tasks 0 zeroFrame Samples.threeQueued
              Samples.threeQueued)
    as (s' & dropped & Hs & Hp & _).
  - vm_compute. reflexivity.
  - reflexivity.
  - exists s', dropped. split; [exact Hs | exact Hp].
Defined.

(** X3.  After a timer pass that did not halt, with exactly one [Normal]
    task in the queue (the saved running task included): that task becomes
    current and its frame is returned, and the other tasks stay queued in
    their order. *)
Theorem SwitchToNextTask_single_runnable (remainingTime : Z)
  (interruptFrame : InterruptFrame) (s0 s : Scheduler)
  (before after : list Task) (t : Task)
  (Htimers : UpdateTimerEntries remainingTime s0 = Some s)
  (Hqueue : queueBeforeSelection interruptFrame s = before ++ t :: after)
  (Hbefore : existsb isNormal before = false)
  (Ht : state t = Normal)
  (Hafter : existsb isNormal after = false) :
  exists s',
    SwitchToNextTask remainingTime interruptFrame s0 = Some (s', frame t) /\
    currentTask s' = t /\
    taskQueue s' = before ++ after /\
    restoreFrame s' = true.
Proof.
  destruct (SwitchToNextTask_pieces remainingTime interruptFrame s0 s Htimers)
    as (s' & Hs & Hq & Hc & Hr & _).
  assert (Hn : isNormal t = true) by (apply TaskState_eqb_eq; exact Ht).
  rewrite Hqueue, (selectFrom_single before after t Hbefore Hn Hafter) in Hq, Hc, Hr.
  cbn [fst snd] in Hq, Hc, Hr.
  exists s'. rewrite Hc in Hs. auto.
Qed.

Lemma SwitchToNextTask_single_runnable_sample :
  exists s',
    SwitchToNextTask 0 zeroFrame
      (mkScheduler [Samples.task2] Samples.task1 Samples.idle true [] 100 100 0 0)
    = Some (s', zeroFrame) /\
    currentTask s' = set_frame zeroFrame Samples.task1 /\
    taskQueue s' = [Samples.task2].
Proof.
  destruct (SwitchToNextTask_single_runnable 0 zeroFrame
              (mkScheduler [Samples.task2] Samples.task1 Samples.idle true []
                 100 100 0 0)
              (mkScheduler [Samples.task2] Samples.task1 Samples.idle true []
                 100 100 0 0)
              [Samples.task2] [] (set_frame zeroFrame Samples.task1))
    as (s' & Hs & Hc & Hq & _).
  - vm_compute. reflexivity.
  - reflexivity.
  - reflexivity.
  - reflexivity.
  - reflexivity.
  - exists s'. split; [exact Hs|]. split; [exact Hc | exact Hq].
Defined.

End SwitchFacts.

Module SleepFacts.
Import Machine Halting Mem Sched SchedSpec MachineFacts VectorFacts SchedFacts
  TimerFacts SelectFacts SwitchFacts.

Lemma bind_Some {A B} (m : option A) (k : A -> option B) (b : B) :
  Halting.bind m k = Some b -> exists a, m = Some a /\ k a = Some b.
Proof.
  destruct m as [a|]; simpl; intros H; [|discriminate].
  exists a. split; [reflexivity | exact H].
Qed.

Lemma Assert_Some (c : bool) (u : unit) : Assert c = Some u -> c = true.
Proof. destruct c; [reflexivity | discriminate]. Qed.

Lemma minimumWith100_bounds (timers : list TimerEntry.t) :
  Forall (fun e => 1 <= TimerEntry.milliseconds e) timers ->
  1 <= minimumWith100 timers <= 100 /\
  Forall (fun e => minimumWith100 timers <= TimerEntry.milliseconds e) timers.
Proof.
  unfold minimumWith100. induction 1 as [|e l He Hl IH]; cbn [map fold_right].
  - split; [lia | constructor].
  - destruct IH as [Hb Hall]. split; [lia|]. constructor; [lia|].
    rewrite Forall_forall in Hall |- *. intros x Hx.
    specialize (Hall x Hx). lia.
Qed.

(** X4.  Whenever [SwitchToNextTask] returns, from 64-bit timer values:
    every timer entry that is left has at least 1 ms to go, the LAPIC timer
    is armed with [currentTimerTime], and that time is between 1 and 100 ms
    and not later than any entry.  So the next timer interrupt comes within
    100 ms and no armed time is 0. *)
Theorem SwitchToNextTask_arms_1_to_100 (remainingTime : Z)
  (interruptFrame frame' : InterruptFrame) (s s' : Scheduler)
  (Hreturns : SwitchToNextTask remainingTime interruptFrame s
              = Some (s', frame'))
  (Hrem : 0 <= remainingTime)
  (Hcur : uint64 (currentTimerTime s))
  (Hms : Forall (fun e => uint64 (TimerEntry.milliseconds e)) (timerEntries s)) :
  Forall (fun e => 1 <= TimerEntry.milliseconds e < 2 ^ 64) (timerEntries s') /\
  lapicTimeBetweenTimerFires s' = currentTimerTime s' /\
  1 <= currentTimerTime s' <= 100 /\
  Forall (fun e => currentTimerTime s' <= TimerEntry.milliseconds e)
    (timerEntries s').
Proof.
  pose proof Hreturns as Hsw. unfold SwitchToNextTask in Hsw.
  apply bind_Some in Hsw. destruct Hsw as (s1 & Hupd & _).
  destruct (SwitchToNextTask_pieces remainingTime interruptFrame s s1 Hupd)
    as (s2 & Hs2 & _ & _ & _ & _ & Ht & Hc & Hl & _).
  rewrite Hs2 in Hreturns. injection Hreturns as <- _.
  unfold UpdateTimerEntries in Hupd.
  apply bind_Some in Hupd. destruct Hupd as (u & Hassert & Hupd).
  apply Assert_Some in Hassert. apply Z.ltb_lt in Hassert.
  apply bind_Some in Hupd. destruct Hupd as (r & Hloop & Hs1).
  injection Hs1 as <-. cbn [timerEntries set_timerEntries] in Ht, Hc, Hl.
  unfold Vector.GetLength in Hloop.
  rewrite UpdateTimerEntries_loop_all in Hloop.
  apply bind_Some in Hloop. destruct Hloop as (q' & _ & Hr).
  injection Hr as <-. cbn [fst] in Ht, Hc, Hl.
  assert (Hd : wrap64 (currentTimerTime s - remainingTime)
               = currentTimerTime s - remainingTime)
    by (apply wrap64_small; unfold uint64 in Hcur; lia).
  rewrite Hd in Ht, Hc, Hl.
  rewrite rewritten_remaining in Ht, Hc, Hl by (assumption || lia).
  set (elapsed := currentTimerTime s - remainingTime) in *.
  assert (Hpos : Forall (fun e => 1 <= TimerEntry.milliseconds e < 2 ^ 64)
                   (remaining elapsed (timerEntries s))).
  { unfold remaining. rewrite Forall_forall. intros e He.
    apply in_map_iff in He. destruct He as (e0 & <- & He0).
    apply filter_In in He0. destruct He0 as [Hin Hexp].
    rewrite Forall_forall in Hms. specialize (Hms e0 Hin).
    unfold expired in Hexp. apply negb_true_iff in Hexp.
    apply Z.leb_gt in Hexp. unfold decremented, uint64 in *.
    cbn [TimerEntry.milliseconds]. lia. }
  rewrite Ht, Hc, Hl, closestExpiry_minimum.
  destruct (minimumWith100_bounds (remaining elapsed (timerEntries s)))
    as [Hb Hall].
  { rewrite Forall_forall in Hpos |- *. intros e He.
    specialize (Hpos e He). lia. }
  repeat split; try assumption; lia.
Qed.

Lemma SwitchToNextTask_arms_1_to_100_sample :
  exists s' frame',
    SwitchToNextTask 5 zeroFrame Samples.sleepers = Some (s', frame') /\
    1 <= currentTimerTime s' <= 100.
Proof.
  assert (H : exists s' frame',
            SwitchToNextTask 5 zeroFrame Samples.sleepers = Some (s', frame'))
    by (eexists; eexists; vm_compute; reflexivity).
  destruct H as (s' & f' & H). exists s', f'. split; [exact H|].
  destruct (SwitchToNextTask_arms_1_to_100 5 zeroFrame f' Samples.sleepers s' H)
    as (_ & _ & Hb & _).
  - lia.
  - unfold uint64. simpl. lia.
  - simpl. repeat constructor; unfold uint64; simpl; lia.
  - exact Hb.
Defined.

Lemma GetTask_None (p : Z) (q : list Task) :
  GetTask p q = None -> forall t, In t q -> pid t <> p.
Proof.
  induction q as [|u q IH]; intros H t Hin; [destruct Hin|].
  simpl in H. destruct (pid u =? p) eqn:E; [discriminate|].
  destruct (GetTask p q) eqn:G; [discriminate|].
  destruct Hin as [<-|Hin]; [apply Z.eqb_neq; exact E | apply IH; auto].
Qed.

(** X5.  [Unblock] halts the kernel exactly when no queued task has the
    PID or the first queued task with it is not [Blocked]; and after an
    [Unblock] that returned, a second [Unblock] of the same PID halts. *)
Theorem Unblock_halts (p : Z) (q : list Task) :
  (Unblock p q = None <->
   GetTask p q = None \/
   exists i, GetTask p q = Some i /\
             state (Vector.Get zeroTask q i) <> Blocked) /\
  (forall q', Unblock p q = Some q' -> Unblock p q' = None).
Proof.
  split.
  - unfold Unblock. destruct (GetTask p q) as [i|] eqn:G; cbn [Halting.bind].
    + destruct (TaskState_eqb (state (Vector.Get zeroTask q i)) Blocked) eqn:E;
        cbn [Assert Halting.bind].
      * split; [discriminate|]. intros [H|(j & Hj & Hs)]; [discriminate|].
        injection Hj as <-. apply TaskState_eqb_eq in E. contradiction.
      * split; [|reflexivity]. intros _. right. exists i. split; [reflexivity|].
        intros Hs. apply TaskState_eqb_eq in Hs. congruence.
    + split; [auto | reflexivity].
  - intros q' H. unfold Unblock in H.
    destruct (GetTask p q) as [i|] eqn:G; cbn [Halting.bind] in H; [|discriminate].
    destruct (TaskState_eqb (state (Vector.Get zeroTask q i)) Blocked) eqn:E;
      cbn [Assert Halting.bind] in H; [|discriminate].
    injection H as <-.
    pose proof (GetTask_bound _ _ _ G) as Hi.
    unfold Unblock.
    rewrite GetTask_Put by (exact Hi || reflexivity).
    rewrite G. cbn [Halting.bind]. rewrite Get_Put_same by exact Hi.
    reflexivity.
Qed.

Lemma Unblock_halts_sample :
  Unblock 9 [Samples.task1] = None /\
  exists q',
    Unblock 2 [Samples.task1; Samples.task2; Samples.task4] = Some q' /\
    Unblock 2 q' = None.
Proof.
  destruct (Unblock_halts 9 [Samples.task1]) as [Hnone _].
  destruct (Unblock_halts 2 [Samples.task1; Samples.task2; Samples.task4])
    as [_ Htwice].
  split.
  - apply Hnone. left. reflexivity.
  - eexists. split; [reflexivity|]. apply Htwice. reflexivity.
Defined.

(** X6.  A task that calls [SleepCurrentTask] when the LAPIC timer has
    already run for at least the time it asks to sleep halts the kernel: the
    timer pass of the switch meets the new entry first, finds it run out, and
    [Unblock] looks for the caller in the queue, where a running task is
    not. *)
Theorem SleepCurrentTask_shorter_than_elapsed_halts (remainingTime : Z)
  (interruptFrame : InterruptFrame) (milliseconds : Z) (s : Scheduler)
  (Hrem : 0 <= remainingTime < currentTimerTime s)
  (Hcur : uint64 (currentTimerTime s))
  (Hshort : milliseconds <= currentTimerTime s - remainingTime)
  (Hrunning : GetTask (pid (currentTask s)) (taskQueue s) = None) :
  SleepCurrentTask remainingTime interruptFrame milliseconds s = None.
Proof.
  unfold SleepCurrentTask.
  destruct (negb (pid (currentTask s) =? 0)) eqn:Hp;
    cbn [Assert Halting.bind]; [|reflexivity].
  destruct (0 <? milliseconds); cbn [Assert Halting.bind]; [|reflexivity].
  cbn [currentTask set_timerEntries].
  destruct (TaskState_eqb (state (currentTask s)) Normal);
    cbn [Assert Halting.bind]; [|reflexivity].
  unfold SwitchToNextTask, UpdateTimerEntries.
  cbn [currentTimerTime set_currentTask set_timerEntries timerEntries taskQueue].
  assert (Hlt : (remainingTime <? currentTimerTime s) = true)
    by (apply Z.ltb_lt; lia).
  rewrite Hlt. cbn [Assert Halting.bind].
  rewrite wrap64_small by (unfold uint64 in Hcur; lia).
  unfold Vector.GetLength, Vector.Push.
  rewrite length_app, Nat.add_1_r. cbn [UpdateTimerEntries_loop].
  rewrite Get_middle. cbn [TimerEntry.milliseconds TimerEntry.unblockOnExpire
                            TimerEntry.pid].
  assert (Hle : (milliseconds <=? currentTimerTime s - remainingTime) = true)
    by (apply Z.leb_le; exact Hshort).
  rewrite Hle, Hp. cbn [Assert Halting.bind].
  unfold Unblock. rewrite Hrunning. reflexivity.
Qed.

Lemma SleepCurrentTask_shorter_than_elapsed_halts_sample :
  SleepCurrentTask 40 zeroFrame 50
    (mkScheduler [Samples.task2] Samples.task1 Samples.idle true [] 100 100 0 0)
  = None.
Proof.
  apply SleepCurrentTask_shorter_than_elapsed_halts.
  - simpl. lia.
  - unfold uint64. simpl. lia.
  - simpl. lia.
  - reflexivity.
Defined.

Lemma GetTask_all_Blocked (p : Z) (q : list Task) :
  (exists t, In t q /\ pid t = p) ->
  (forall t, In t q -> pid t = p -> state t = Blocked) ->
  BlockedIn q p.
Proof.
  induction q as [|u q IH]; intros (t & Hin & Hp) Hall; [destruct Hin|].
  unfold BlockedIn. simpl. destruct (pid u =? p) eqn:E.
  - exists O. split; [reflexivity|]. apply Z.eqb_eq in E.
    apply (Hall u); [left; reflexivity | exact E].
  - destruct Hin as [->|Hin]; [apply Z.eqb_neq in E; contradiction|].
    destruct IH as (i & Hg & Hs).
    + exists t. auto.
    + intros x Hx. apply Hall. right. exact Hx.
    + exists (S i). rewrite Hg. split; [reflexivity | exact Hs].
Qed.

(** X7.  A running [Normal] task with a PID other than 0 and not in the
    queue calls [SleepCurrentTask] for longer than the LAPIC timer has run,
    with no other timer entry pending and [restoreFrame] set.  Then the
    switch returns; the caller is queued, [Blocked], with the frame of the
    interrupt saved; the only timer entry is the caller's, with the elapsed
    time taken off; a [Normal] task or the idle task runs; and [GetTask] finds
    the caller [Blocked], so that the entry's expiry unblocks it. *)
Theorem SleepCurrentTask_blocks_caller (remainingTime : Z)
  (interruptFrame : InterruptFrame) (milliseconds : Z) (s : Scheduler)
  (Hpid : pid (currentTask s) <> 0)
  (Hnormal : state (currentTask s) = Normal)
  (Hrestore : restoreFrame s = true)
  (Hnone : timerEntries s = [])
  (Hrem : 0 <= remainingTime < currentTimerTime s)
  (Hcur : uint64 (currentTimerTime s))
  (Hlong : currentTimerTime s - remainingTime < milliseconds < 2 ^ 64)
  (Hrunning : GetTask (pid (currentTask s)) (taskQueue s) = None) :
  let sleeper := set_frame interruptFrame (set_state Blocked (currentTask s)) in
  exists s',
    SleepCurrentTask remainingTime interruptFrame milliseconds s
    = Some (s', frame (currentTask s')) /\
    In sleeper (taskQueue s') /\
    BlockedIn (taskQueue s') (pid (currentTask s)) /\
    timerEntries s'
    = [TimerEntry.mk (milliseconds - (currentTimerTime s - remainingTime))
         true (pid (currentTask s))] /\
    (currentTask s' = idleTask s \/ state (currentTask s') = Normal).
Proof.
  intros sleeper.
  set (entry := TimerEntry.mk milliseconds true (pid (currentTask s))).
  set (s2 := set_currentTask (set_state Blocked (currentTask s))
               (set_timerEntries (Vector.Push (timerEntries s) entry) s)).
  set (elapsed := currentTimerTime s - remainingTime).
  set (s3 := set_timerEntries [TimerEntry.mk (milliseconds - elapsed) true
                                 (pid (currentTask s))]
               (set_taskQueue (taskQueue s) s2)).
  assert (Hsleep : SleepCurrentTask remainingTime interruptFrame milliseconds s
                   = SwitchToNextTask remainingTime interruptFrame s2).
  { unfold SleepCurrentTask.
    assert (H1 : negb (pid (currentTask s) =? 0) = true)
      by (apply negb_true_iff; apply Z.eqb_neq; exact Hpid).
    assert (H2 : (0 <? milliseconds) = true) by (apply Z.ltb_lt; lia).
    rewrite H1, H2. cbn [Assert Halting.bind currentTask set_timerEntries].
    rewrite Hnormal. reflexivity. }
  assert (Hupd : UpdateTimerEntries remainingTime s2 = Some s3).
  { unfold UpdateTimerEntries, s2.
    cbn [currentTimerTime set_currentTask set_timerEntries timerEntries taskQueue].
    assert (Hlt : (remainingTime <? currentTimerTime s) = true)
      by (apply Z.ltb_lt; lia).
    rewrite Hlt. cbn [Assert Halting.bind].
    rewrite wrap64_small by (unfold uint64 in Hcur; lia).
    rewrite Hnone. unfold Vector.GetLength, Vector.Push, entry.
    cbn [app length UpdateTimerEntries_loop Vector.Get nth
         TimerEntry.milliseconds TimerEntry.unblockOnExpire TimerEntry.pid].
    fold elapsed.
    assert (Hgt : (milliseconds <=? elapsed) = false)
      by (apply Z.leb_gt; unfold elapsed; lia).
    rewrite Hgt. cbn [Vector.Put Halting.bind fst snd].
    rewrite wrap64_small by (unfold elapsed, uint64 in *; lia).
    unfold s3, s2. rewrite Hnone. reflexivity. }
  destruct (SwitchToNextTask_choice remainingTime interruptFrame
              s2 s3 Hupd) as (s' & Hs & _ & _ & Hyes & Hno).
  destruct (SwitchToNextTask_pieces remainingTime interruptFrame s2 s3 Hupd)
    as (s'' & Hs'' & Hq & _ & _ & _ & Ht & _).
  rewrite Hs in Hs''. injection Hs'' as <-.
  assert (Hqb : queueBeforeSelection interruptFrame s3
                = taskQueue s ++ [sleeper]).
  { unfold queueBeforeSelection, s3, s2. cbn. rewrite Hrestore. reflexivity. }
  rewrite Hqb in Hyes, Hno, Hq.
  assert (Hsb : isNormal sleeper = false) by reflexivity.
  assert (Hkept : In sleeper (taskQueue s') /\
                  (forall t, In t (taskQueue s') -> In t (taskQueue s ++ [sleeper]))).
  { destruct (existsb isNormal (taskQueue s ++ [sleeper])) eqn:Hex.
    - destruct (selectFrom_accounts (taskQueue s ++ [sleeper])
                  (if restoreFrame s3
                   then set_frame interruptFrame (currentTask s3)
                   else currentTask s3) false Hex) as (dropped & Hp & Hd).
      cbv zeta in Hp. rewrite <- Hq in Hp.
      destruct (selectFrom_some (taskQueue s ++ [sleeper])
                  (if restoreFrame s3
                   then set_frame interruptFrame (currentTask s3)
                   else currentTask s3) false Hex) as (_ & Hcn & _).
      cbv zeta in Hcn. split.
      + assert (Hin : In sleeper (taskQueue s ++ [sleeper]))
          by (apply in_or_app; right; left; reflexivity).
        apply (Permutation_in _ Hp) in Hin. destruct Hin as [E|Hin].
        * rewrite E in Hcn. rewrite Hsb in Hcn. discriminate.
        * apply in_app_or in Hin. destruct Hin as [Hin|Hin]; [|exact Hin].
          rewrite Forall_forall in Hd. rewrite (Hd _ Hin) in Hsb. discriminate.
      + intros t Hin. apply (Permutation_in _ (Permutation_sym Hp)).
        right. apply in_or_app. right. exact Hin.
    - destruct (Hno eq_refl) as (_ & Hsame & _). rewrite Hsame. split.
      + apply in_or_app. right. left. reflexivity.
      + auto. }
  destruct Hkept as [Hin Hincl].
  exists s'. split; [rewrite Hsleep; exact Hs|]. split; [exact Hin|].
  split.
  { apply GetTask_all_Blocked.
    - exists sleeper. split; [exact Hin | reflexivity].
    - intros t Ht' Hp. apply Hincl in Ht'. apply in_app_or in Ht'.
      destruct Ht' as [Ht'|[<-|[]]]; [|reflexivity].
      exfalso. apply (GetTask_None _ _ Hrunning t Ht'). exact Hp. }
  split; [rewrite Ht; reflexivity|].
  destruct (existsb isNormal (taskQueue s ++ [sleeper])) eqn:Hex.
  - destruct (Hyes eq_refl) as (Hst & _ & _). right. exact Hst.
  - destruct (Hno eq_refl) as (Hidle & _ & _). left. exact Hidle.
Qed.

Lemma SleepCurrentTask_blocks_caller_sample :
  exists s',
    SleepCurrentTask 90 zeroFrame 50
      (mkScheduler [Samples.task2] Samples.task1 Samples.idle true [] 100 100 0 0)
    = Some (s', frame (currentTask s')) /\
    timerEntries s' = [TimerEntry.mk 40 true 1] /\
    BlockedIn (taskQueue s') 1.
Proof.
  destruct (SleepCurrentTask_blocks_caller 90 zeroFrame 50
              (mkScheduler [Samples.task2] Samples.task1 Samples.idle true []
                 100 100 0 0))
    as (s' & Hs & _ & Hb & Ht & _).
  - simpl. lia.
  - reflexivity.
  - reflexivity.
  - reflexivity.
  - simpl. lia.
  - unfold uint64. simpl. lia.
  - simpl. lia.
  - reflexivity.
  - exists s'. split; [exact Hs|]. split; [exact Ht | exact Hb].
Defined.

End SleepFacts.

(** ** Memory.cpp *)

Module MemFacts.
Import Machine Halting Mem Sched MachineFacts VectorFacts SchedFacts ForkFacts.

Lemma MemCopy_loop_outside (n : nat) :
  forall (i destination source : Z) (m : Memory) (a : Z),
    a < destination + i \/ destination + i + Z.of_nat n <= a ->
    MemCopy_loop n i destination source m a = m a.
Proof.
  induction n as [|n IH]; intros i dst src m a Ha; [reflexivity|].
  cbn [MemCopy_loop]. rewrite IH by lia. unfold store.
  assert (E : (a =? dst + i) = false) by (apply Z.eqb_neq; lia).
  rewrite E. reflexivity.
Qed.

Lemma Memset_loop_spec (n : nat) :
  forall (i addr : Z) (value : byte) (m : Memory) (a : Z),
    Memset_loop n i addr value m a
    = if (addr + i <=? a) && (a <? addr + i + Z.of_nat n) then value else m a.
Proof.
  induction n as [|n IH]; intros i addr value m a.
  - cbn [Memset_loop]. change (Z.of_nat 0) with 0.
    destruct (addr + i <=? a) eqn:E1, (a <? addr + i + 0) eqn:E2; cbn [andb];
      try reflexivity. apply Z.leb_le in E1. apply Z.ltb_lt in E2. lia.
  - cbn [Memset_loop]. rewrite IH. unfold store.
    destruct (addr + (i + 1) <=? a) eqn:E1;
      [apply Z.leb_le in E1 | apply Z.leb_gt in E1];
    (destruct (a <? addr + (i + 1) + Z.of_nat n) eqn:E2;
      [apply Z.ltb_lt in E2 | apply Z.ltb_ge in E2]);
    (destruct (addr + i <=? a) eqn:E3;
      [apply Z.leb_le in E3 | apply Z.leb_gt in E3]);
    (destruct (a <? addr + i + Z.of_nat (S n)) eqn:E4;
      [apply Z.ltb_lt in E4 | apply Z.ltb_ge in E4]);
    cbn [andb]; try lia; try reflexivity;
    (destruct (a =? addr + i) eqn:E5;
      [apply Z.eqb_eq in E5 | apply Z.eqb_neq in E5]); try lia; reflexivity.
Qed.

(** X8.  [Memset(addr, value, size)] leaves [value] in each of the [size]
    bytes from [addr] on and changes no other byte. *)
Theorem Memset_fills_range_only (addr : Z) (value : byte) (size : Z)
  (m : Memory) (a : Z) (Hsize : 0 <= size) :
  (addr <= a < addr + size -> Memset addr value size m a = value) /\
  (a < addr \/ addr + size <= a -> Memset addr value size m a = m a).
Proof.
  unfold Memset. rewrite Memset_loop_spec, Z2Nat.id by exact Hsize.
  rewrite Z.add_0_r. split; intros H.
  - assert (E1 : (addr <=? a) = true) by (apply Z.leb_le; lia).
    assert (E2 : (a <? addr + size) = true) by (apply Z.ltb_lt; lia).
    rewrite E1, E2. reflexivity.
  - destruct (addr <=? a) eqn:E1; [|reflexivity].
    apply Z.leb_le in E1.
    assert (E2 : (a <? addr + size) = false) by (apply Z.ltb_ge; lia).
    rewrite E2. reflexivity.
Qed.

Lemma Memset_fills_range_only_sample :
  Memset 16 Byte.x00 4 Samples.stackBytes 18 = Byte.x00 /\
  Memset 16 Byte.x00 4 Samples.stackBytes 20 = Byte.x2a.
Proof.
  destruct (Memset_fills_range_only 16 Byte.x00 4 Samples.stackBytes 18)
    as [H _]; [lia|].
  destruct (Memset_fills_range_only 16 Byte.x00 4 Samples.stackBytes 20)
    as [_ H']; [lia|].
  split; [apply H; lia | rewrite H' by lia; reflexivity].
Defined.

Lemma MemCompare_loop_spec (n : nat) :
  forall (i left right : Z) (m : Memory),
    MemCompare_loop n i left right m = true <->
    forall j, i <= j < i + Z.of_nat n -> m (left + j) = m (right + j).
Proof.
  induction n as [|n IH]; intros i left right m.
  - cbn [MemCompare_loop]. split; [intros _ j Hj; lia | reflexivity].
  - cbn [MemCompare_loop].
    destruct (Byte.eqb (m (left + i)) (m (right + i))) eqn:E; cbn [negb].
    + apply Byte.byte_dec_bl in E. rewrite IH. split.
      * intros H j Hj. destruct (Z.eq_dec j i) as [->|Hne]; [exact E|].
        apply H. lia.
      * intros H j Hj. apply H. lia.
    + split; [discriminate|]. intros H.
      assert (Eq : m (left + i) = m (right + i)) by (apply H; lia).
      apply Byte.byte_dec_lb in Eq. congruence.
Qed.

(** X9.  [MemCompare(left, right, count)] is true exactly when the two
    ranges hold the same [count] bytes. *)
Theorem MemCompare_true_iff_equal (left right count : Z) (m : Memory)
  (Hcount : 0 <= count) :
  MemCompare left right count m = true <->
  forall j, 0 <= j < count -> m (left + j) = m (right + j).
Proof.
  unfold MemCompare. rewrite MemCompare_loop_spec, Z2Nat.id by exact Hcount.
  rewrite Z.add_0_l. reflexivity.
Qed.

Lemma MemCompare_true_iff_equal_sample :
  MemCompare 0 16 8 Samples.stackBytes = true.
Proof.
  apply (MemCompare_true_iff_equal 0 16 8 Samples.stackBytes); [lia|].
  intros j Hj. unfold Samples.stackBytes.
  replace (16 + j) with (0 + j + 2 * 8) by lia.
  rewrite Z.even_add_mul_2. reflexivity.
Defined.

(** X10.  After [MemCopy(destination, source, count)] between two ranges
    that do not meet, [MemCompare] of the two ranges is true, and every byte
    outside the destination range is as before. *)
Theorem MemCopy_then_MemCompare (destination source count : Z) (m : Memory)
  (Hcount : 0 <= count)
  (Hapart : source + count <= destination \/ destination + count <= source) :
  MemCompare destination source count (MemCopy destination source count m)
  = true /\
  forall a, a < destination \/ destination + count <= a ->
    MemCopy destination source count m a = m a.
Proof.
  assert (Hout : forall a, a < destination \/ destination + count <= a ->
                   MemCopy destination source count m a = m a).
  { intros a Ha. unfold MemCopy. apply MemCopy_loop_outside.
    rewrite Z2Nat.id by exact Hcount. lia. }
  split; [|exact Hout].
  unfold MemCompare. apply MemCompare_loop_spec.
  intros j Hj0. rewrite Z2Nat.id in Hj0 by exact Hcount.
  assert (Hj : 0 <= j < count) by lia. clear Hj0.
  fold (MemCopy destination source count m).
  rewrite MemCopy_disjoint by assumption.
  symmetry. apply Hout. lia.
Qed.

Lemma MemCopy_then_MemCompare_sample :
  MemCompare 100 3 5 (MemCopy 100 3 5 Samples.stackBytes) = true.
Proof.
  destruct (MemCopy_then_MemCompare 100 3 5 Samples.stackBytes) as [H _];
    [lia | lia | exact H].
Defined.

(** X12.  [CreateTask] on page frames below 2^47 - 0x3000 gives the task
    the 12 KiB above the higher-half address of the frames as its
    system-call stack, starts it [Normal] at [entry] with the given stack
    pointer, and, when asked to set the PID, hands out the counter's value
    and moves the counter up by one. *)
Theorem CreateTask_stack_and_pid (c : Selectors)
  (pagingManager_ vfs_ userspaceAllocator_ entry stackPtr : Z)
  (userTask setPid : bool) (pageFrames counter : Z)
  (Hframes : 0 <= pageFrames < 2 ^ 47 - 0x3000)
  (Hcounter : 0 <= counter < 2 ^ 64 - 1) :
  let r := CreateTask c pagingManager_ vfs_ userspaceAllocator_ entry stackPtr
             userTask setPid pageFrames counter in
  syscallStackBottom (fst r) = 0xffff800000000000 + pageFrames /\
  syscallStackAddr (fst r) = syscallStackBottom (fst r) + 0x3000 /\
  state (fst r) = Normal /\
  rip (frame (fst r)) = entry /\ rsp (frame (fst r)) = stackPtr /\
  (setPid = true -> pid (fst r) = counter /\ snd r = counter + 1) /\
  (setPid = false -> pid (fst r) = 0 /\ snd r = counter).
Proof.
  cbv zeta. unfold CreateTask, HigherHalf.
  change (SYSCALL_STACK_PAGE_COUNT * 4096) with 12288.
  rewrite (wrap64_small (pageFrames + 12288)) by lia.
  rewrite (wrap64_small (pageFrames + 12288 + 18446603336221196288)) by lia.
  rewrite (wrap64_small (pageFrames + 12288 + 18446603336221196288 - 12288))
    by lia.
  destruct setPid;
    cbn [fst snd set_pid syscallStackBottom syscallStackAddr state frame rip
         rsp pid].
  - rewrite wrap64_small by lia. repeat split; try lia; discriminate.
  - repeat split; try lia; discriminate.
Qed.

Lemma CreateTask_stack_and_pid_sample :
  syscallStackBottom
    (fst (CreateTask Samples.selectors 1 2 3 0x401000 0x7ffffffff000 true true
            0x500000 5))
  = 0xffff800000500000.
Proof.
  destruct (CreateTask_stack_and_pid Samples.selectors 1 2 3 0x401000
              0x7ffffffff000 true true 0x500000 5) as (H & _).
  - lia.
  - lia.
  - exact H.
Defined.

End MemFacts.

(** ** More on VFS.cpp *)

Module OpenFacts.
Import Machine Halting VFS VFSSpec MachineFacts VectorFacts VFSFacts SeekFacts
  TraverseFacts.

Lemma lastFree_single (pre post : list FileDescriptor) (fd : FileDescriptor) :
  Forall (fun x => present x = true) pre ->
  Forall (fun x => present x = true) post ->
  present fd = false ->
  forall i start,
    lastFree i (pre ++ fd :: post) start = Z.of_nat (i + length pre).
Proof.
  intros Hpre Hpost Hfd. induction Hpre as [|x pre Hx _ IH]; intros i start.
  - cbn [app lastFree length]. rewrite Hfd, lastFree_all_present by exact Hpost.
    f_equal. lia.
  - cbn [app lastFree length]. rewrite Hx, IH. f_equal. lia.
Qed.

Lemma Get_map_setPresent (fds : list FileDescriptor) (i : nat) :
  (i < length fds)%nat ->
  Vector.Get zeroDescriptor (map (setPresent true) fds) i
  = setPresent true (Vector.Get zeroDescriptor fds i).
Proof.
  intros Hi. unfold Vector.Get.
  rewrite (nth_indep _ zeroDescriptor (setPresent true zeroDescriptor))
    by (rewrite length_map; exact Hi).
  apply map_nth.
Qed.

Lemma present_or_free (fds : list FileDescriptor) :
  Forall (fun fd => present fd = true) fds \/
  Exists (fun fd => present fd = false) fds.
Proof.
  induction fds as [|fd fds IH]; [left; constructor|].
  destruct (present fd) eqn:E.
  - destruct IH as [H|H]; [left; constructor; assumption | right; now apply Exists_cons_tl].
  - right. now apply Exists_cons_hd.
Qed.

(** The slot that [Open] takes is a slot of the table, marked present. *)
Lemma FindDescriptor_slot (fds : list FileDescriptor) :
  let r := FindDescriptor fds in
  0 <= snd r < Z.of_nat (length (fst r)) /\
  present (Vector.Get zeroDescriptor (fst r) (Z.to_nat (snd r))) = true.
Proof.
  cbv zeta. destruct (present_or_free fds) as [H|H].
  - rewrite (FindDescriptor_full fds H). cbn [fst snd].
    rewrite length_app, Nat2Z.id. simpl length. split; [lia|].
    rewrite Get_middle. reflexivity.
  - rewrite (FindDescriptor_some_free fds H). cbn [fst snd].
    pose proof (lastFree_some_free fds 0 (-1) H) as B. simpl in B.
    rewrite length_map. split; [lia|].
    rewrite Get_map_setPresent by lia. reflexivity.
Qed.

Section WithExt2.
Variable GetDirectoryListing : Disk -> Z -> list VNode.
Variable InodeCreate : Disk -> Z -> string -> Disk * Z.
Variables OCreate OTruncate OAppend RegularFile : Z.

Local Abbreviation Open_ :=
  (Open GetDirectoryListing InodeCreate OCreate OTruncate OAppend RegularFile).

(** [Open] from the slot on, when the traversal returns. *)
Lemma Open_slot (path : string) (flags : Z) (process : Process) (disk : Disk)
  (t : VNode * bool * string) :
  TraversePath GetDirectoryListing disk path = Some t ->
  exists fd disk',
    Open_ path flags process disk
    = Some (snd (FindDescriptor (fileDescriptors process)),
            mkProcess
              (Vector.Put
                 (Z.to_nat (snd (FindDescriptor (fileDescriptors process))))
                 fd (fst (FindDescriptor (fileDescriptors process)))),
            disk') /\
    present fd = true /\
    (Z.land flags OCreate = 0 \/ snd (fst t) = true ->
     vNode fd = Some (fst (fst t))) /\
    (Z.land flags OCreate = 0 \/ snd (fst t) = true ->
     Z.land flags OTruncate = 0 -> Z.land flags OAppend = 0 ->
     disk' = disk /\ offset fd
     = offset (Vector.Get zeroDescriptor
                 (fst (FindDescriptor (fileDescriptors process)))
                 (Z.to_nat (snd (FindDescriptor (fileDescriptors process)))))).
Proof.
  intros Ht. unfold Open. rewrite Ht. cbn [Halting.bind].
  destruct (FindDescriptor_slot (fileDescriptors process)) as [_ Hp].
  eexists. eexists. split; [reflexivity|].
  split; [|split].
  - destruct (negb (Z.land flags OAppend =? 0));
      destruct (negb (Z.land flags OCreate =? 0) && negb (snd (fst t)));
      cbn [fst snd RepositionOffset setOffset setVNode present]; exact Hp.
  - intros Hc.
    assert (E : negb (Z.land flags OCreate =? 0) && negb (snd (fst t)) = false).
    { destruct Hc as [Hc|Hc]; [rewrite Hc | rewrite Hc, andb_false_r];
        reflexivity. }
    rewrite E. destruct (negb (Z.land flags OAppend =? 0));
      cbn [fst snd RepositionOffset setOffset setVNode vNode]; reflexivity.
  - intros Hc Htr Hap.
    assert (E : negb (Z.land flags OCreate =? 0) && negb (snd (fst t)) = false).
    { destruct Hc as [Hc|Hc]; [rewrite Hc | rewrite Hc, andb_false_r];
        reflexivity. }
    rewrite E, Htr, Hap. cbn [negb andb fst snd setVNode offset]. auto.
Qed.

(** X13.  When every slot of the table is present, [Open] (with a
    traversal that returns) appends one slot, returns its index, the old
    length of the table, and leaves the old slots as they were: a fresh
    table hands out 0, 1, 2, ... *)
Theorem Open_full_table_appends (path : string) (flags : Z)
  (process : Process) (disk : Disk) (t : VNode * bool * string)
  (Htraverse : TraversePath GetDirectoryListing disk path = Some t)
  (Hfull : Forall (fun fd => present fd = true) (fileDescriptors process)) :
  exists process' disk',
    Open_ path flags process disk
    = Some (Z.of_nat (length (fileDescriptors process)), process', disk') /\
    length (fileDescriptors process') = S (length (fileDescriptors process)) /\
    firstn (length (fileDescriptors process)) (fileDescriptors process')
    = fileDescriptors process /\
    Forall (fun fd => present fd = true) (fileDescriptors process').
Proof.
  destruct (Open_slot path flags process disk t Htraverse)
    as (fd & disk' & Ho & Hp & _).
  rewrite (FindDescriptor_full _ Hfull) in Ho. cbn [fst snd] in Ho.
  rewrite Nat2Z.id, Put_middle in Ho.
  eexists. exists disk'. split; [exact Ho|]. cbn [fileDescriptors].
  split; [rewrite length_app; simpl; lia|]. split.
  - rewrite firstn_app, Nat.sub_diag, firstn_all. cbn. apply app_nil_r.
  - apply Forall_app. split; [exact Hfull|]. constructor; [exact Hp | constructor].
Qed.

(** X14.  [Close] of a descriptor of a table whose other slots are all
    present, followed by [Open] (with a traversal that returns): [Open]
    returns the descriptor that was closed, the table has the length it had,
    and every slot is present again. *)
Theorem Close_then_Open_reuses_descriptor (path : string) (flags : Z)
  (pre post : list FileDescriptor) (fd : FileDescriptor) (disk : Disk)
  (t : VNode * bool * string)
  (Htraverse : TraversePath GetDirectoryListing disk path = Some t)
  (Hpre : Forall (fun x => present x = true) pre)
  (Hpost : Forall (fun x => present x = true) post) :
  let descriptor := Z.of_nat (length pre) in
  exists closed,
    Close descriptor (mkProcess (pre ++ fd :: post)) = Some closed /\
    present (Vector.Get zeroDescriptor (fileDescriptors closed) (length pre))
    = false /\
    exists process' disk',
      Open_ path flags closed disk = Some (descriptor, process', disk') /\
      length (fileDescriptors process') = length (pre ++ fd :: post) /\
      Forall (fun x => present x = true) (fileDescriptors process').
Proof.
  intros descriptor.
  set (fd0 := setOffset 0 (setPresent false fd)).
  assert (Hclose : Close descriptor (mkProcess (pre ++ fd :: post))
                   = Some (mkProcess (pre ++ fd0 :: post))).
  { unfold Close, descriptorAt, descriptor. cbn [fileDescriptors].
    assert (E : (0 <=? Z.of_nat (length pre))
                && (Z.of_nat (length pre)
                    <? Z.of_nat (length (pre ++ fd :: post))) = true).
    { apply andb_true_intro. split; [apply Z.leb_le; lia|].
      apply Z.ltb_lt. rewrite length_app. simpl. lia. }
    rewrite E. cbn [Halting.bind fst snd].
    rewrite Nat2Z.id, Get_middle, Put_middle. reflexivity. }
  exists (mkProcess (pre ++ fd0 :: post)). split; [exact Hclose|].
  cbn [fileDescriptors]. split; [rewrite Get_middle; reflexivity|].
  destruct (Open_slot path flags (mkProcess (pre ++ fd0 :: post)) disk t
              Htraverse) as (fd1 & disk' & Ho & Hp & _).
  cbn [fileDescriptors] in Ho.
  assert (Hex : Exists (fun x => present x = false) (pre ++ fd0 :: post)).
  { apply Exists_app. right. apply Exists_cons_hd. reflexivity. }
  rewrite (FindDescriptor_some_free _ Hex) in Ho. cbn [fst snd] in Ho.
  rewrite (lastFree_single pre post fd0 Hpre Hpost eq_refl) in Ho.
  cbn [Nat.add] in Ho. rewrite Nat2Z.id in Ho.
  rewrite map_app in Ho. cbn [map] in Ho.
  replace (length pre) with (length (map (setPresent true) pre)) in Ho at 2
    by apply length_map.
  rewrite Put_middle in Ho.
  eexists. exists disk'. split; [exact Ho|]. cbn [fileDescriptors].
  split.
  - rewrite !length_app. cbn [length]. rewrite !length_map. reflexivity.
  - apply Forall_app. split.
    + rewrite map_setPresent_all_present; assumption.
    + constructor; [exact Hp|].
      rewrite map_setPresent_all_present; assumption.
Qed.

(** X15.  [Open] of a path whose final component is in no directory
    listing, without the Create flag, does not fail: it returns a descriptor
    whose vnode is the directory that the traversal stopped in.  Without the
    Truncate and Append flags it also leaves the disk as it was. *)
Theorem Open_missing_without_Create_names_parent (path : string) (flags : Z)
  (process : Process) (disk : Disk) (parent : VNode) (name_ : string)
  (Htraverse : TraversePath GetDirectoryListing disk path
               = Some (parent, false, name_))
  (Hflag : Z.land flags OCreate = 0) :
  exists descriptor process' disk',
    Open_ path flags process disk = Some (descriptor, process', disk') /\
    0 <= descriptor < Z.of_nat (length (fileDescriptors process')) /\
    vNode (Vector.Get zeroDescriptor (fileDescriptors process')
             (Z.to_nat descriptor)) = Some parent /\
    present (Vector.Get zeroDescriptor (fileDescriptors process')
               (Z.to_nat descriptor)) = true /\
    (Z.land flags OTruncate = 0 -> Z.land flags OAppend = 0 -> disk' = disk).
Proof.
  destruct (Open_slot path flags process disk _ Htraverse)
    as (fd & disk' & Ho & Hp & Hv & Hd).
  destruct (FindDescriptor_slot (fileDescriptors process)) as [Hi _].
  eexists. eexists. exists disk'. split; [exact Ho|]. cbn [fileDescriptors].
  rewrite Put_length. split; [exact Hi|].
  rewrite Get_Put_same by lia.
  split; [apply Hv; left; exact Hflag|]. split; [exact Hp|].
  intros Htr Hap. apply (Hd (or_introl Hflag) Htr Hap).
Qed.

End WithExt2.

Lemma Open_full_table_appends_sample :
  exists process' disk',
    Open Samples.listing Samples.create 0x40 0x200 0x400 0x8000 "/a.txt" 0
      Samples.oneOpen Samples.disk
    = Some (1, process', disk') /\
    length (fileDescriptors process') = 2%nat.
Proof.
  destruct (Open_full_table_appends Samples.listing Samples.create
              0x40 0x200 0x400 0x8000 "/a.txt" 0 Samples.oneOpen Samples.disk
              (mkVNode "a.txt" 12, true, "a.txt"%string))
    as (p & d & Ho & Hl & _).
  - reflexivity.
  - repeat constructor.
  - exists p, d. split; [exact Ho | exact Hl].
Defined.

Lemma Close_then_Open_reuses_descriptor_sample :
  exists closed process' disk',
    Close 1 (mkProcess [Samples.openDescriptor; Samples.openDescriptor;
                        Samples.openDescriptor]) = Some closed /\
    Open Samples.listing Samples.create 0x40 0x200 0x400 0x8000 "/a.txt" 0
      closed Samples.disk
    = Some (1, process', disk') /\
    length (fileDescriptors process') = 3%nat.
Proof.
  destruct (Close_then_Open_reuses_descriptor Samples.listing Samples.create
              0x40 0x200 0x400 0x8000 "/a.txt" 0
              [Samples.openDescriptor] [Samples.openDescriptor]
              Samples.openDescriptor Samples.disk
              (mkVNode "a.txt" 12, true, "a.txt"%string))
    as (closed & Hc & _ & p & d & Ho & Hl & _).
  - reflexivity.
  - repeat constructor.
  - repeat constructor.
  - exists closed, p, d. split; [exact Hc|]. split; [exact Ho | exact Hl].
Defined.

Lemma Open_missing_without_Create_names_parent_sample :
  exists descriptor process' disk',
    Open Samples.listing Samples.create 0x40 0x200 0x400 0x8000 "/bin/sh" 0
      Samples.oneOpen Samples.disk
    = Some (descriptor, process', disk') /\
    vNode (Vector.Get zeroDescriptor (fileDescriptors process')
             (Z.to_nat descriptor)) = Some (mkVNode "bin" 11).
Proof.
  destruct (Open_missing_without_Create_names_parent Samples.listing
              Samples.create 0x40 0x200 0x400 0x8000 "/bin/sh" 0
              Samples.oneOpen Samples.disk (mkVNode "bin" 11) "sh")
    as (i & p & d & Ho & _ & Hv & _).
  - reflexivity.
  - reflexivity.
  - exists i, p, d. split; [exact Ho | exact Hv].
Defined.

End OpenFacts.

Module ReadFacts.
Import Machine Halting VFS VFSSpec MachineFacts VectorFacts VFSFacts SeekFacts
  TraverseFacts.

Lemma InodeRead_length (ino : Ext2Inode) (count readPos : Z) :
  0 <= count -> readPos <= size0 ino ->
  Z.of_nat (length (InodeRead ino count readPos))
  = Z.min count (size0 ino - readPos).
Proof.
  intros Hc Hp. unfold InodeRead. rewrite length_map, length_seq. lia.
Qed.

(** X16.  When the inode's read returns no more bytes than lie between
    the descriptor's offset and the size of the inode, [Read] returns those
    bytes, moves the offset of the descriptor up by their number, leaves
    every other descriptor as it was and writes nothing to the disk: the
    seek that follows the read does not extend the file. *)
Theorem Read_within_file (process : Process) (disk : Disk) (descriptor : Z)
  (i : nat) (fd : FileDescriptor) (inode count : Z)
  (Hdescriptor : descriptorAt process descriptor = Some (i, fd))
  (Hinode : inodeOf fd = Some inode)
  (Hoffset : 0 <= offset fd)
  (Hsize : size0 (disk inode) < 2 ^ 32)
  (Hstops : offset fd
            + Z.of_nat (length (InodeRead (disk inode) count (offset fd)))
            <= size0 (disk inode)) :
  let data := InodeRead (disk inode) count (offset fd) in
  exists process',
    Read descriptor count process disk = Some (data, process', disk) /\
    descriptorAt process' descriptor
    = Some (i, setOffset (offset fd + Z.of_nat (length data)) fd) /\
    length (fileDescriptors process') = length (fileDescriptors process) /\
    (forall j, j <> i ->
       Vector.Get zeroDescriptor (fileDescriptors process') j
       = Vector.Get zeroDescriptor (fileDescriptors process) j).
Proof.
  intros data. fold data in Hstops.
  assert (Hnew : wrap64 (offset fd + Z.of_nat (length data))
                 = offset fd + Z.of_nat (length data))
    by (apply wrap64_small; lia).
  eexists. split; [|split; [|split]].
  - unfold Read. rewrite Hdescriptor. cbn [Halting.bind fst snd].
    rewrite Hinode. cbn [Halting.bind]. fold data.
    unfold RepositionOffset. cbn [fst snd]. rewrite Hnew.
    assert (E : (size0 (disk inode) <? offset fd + Z.of_nat (length data))
                = false) by (apply Z.ltb_ge; lia).
    rewrite E. reflexivity.
  - apply (descriptorAt_Put _ _ _ fd). exact Hdescriptor.
  - cbn [fileDescriptors]. apply Put_length.
  - intros j Hj. cbn [fileDescriptors]. apply Get_Put_other. congruence.
Qed.

(** With a read that stops at the size of the inode, a descriptor at
    offset 0 of the five bytes of [a.txt] reads all five and no more. *)
Lemma Read_within_file_sample :
  exists process',
    Read 0 100 Samples.oneOpen Samples.helloDisk
    = Some (InodeRead (Samples.helloDisk 12) 100 0, process', Samples.helloDisk) /\
    length (InodeRead (Samples.helloDisk 12) 100 0) = 5%nat /\
    descriptorAt process' 0
    = Some (0%nat, setOffset 5 Samples.openDescriptor).
Proof.
  destruct (Read_within_file Samples.oneOpen Samples.helloDisk 0 0%nat
              Samples.openDescriptor 12 100) as (p & Hr & Hd & _).
  - reflexivity.
  - reflexivity.
  - vm_compute. discriminate.
  - vm_compute. reflexivity.
  - vm_compute. discriminate.
  - exists p. split; [exact Hr|]. split; [reflexivity | exact Hd].
Defined.

(** X17.  A path whose first character is not [/] fails the first
    [KAssert] of [TraversePath], so the kernel halts and no error is
    returned; and the path [/] looks the empty name up in the root
    directory, so that with no such entry the root vnode is returned with
    [exists = false] and an empty final token. *)
Theorem TraversePath_relative_and_root
  (GetDirectoryListing : Disk -> Z -> list VNode) (disk : Disk) :
  (forall (a : ascii) (rest : string), a <> "/"%char ->
     TraversePath GetDirectoryListing disk (String a rest) = None) /\
  (FindInListing (GetDirectoryListing disk 2) "" = None ->
   TraversePath GetDirectoryListing disk "/"
   = Some (mkVNode "" 2, false, ""%string)).
Proof.
  split.
  - intros a rest Ha. unfold TraversePath. cbn [Split].
    assert (E : Ascii.eqb a "/" = false) by (apply Ascii.eqb_neq; exact Ha).
    rewrite E. reflexivity.
  - intros Hno. unfold TraversePath.
    change (Split "/" "/") with (EmptyString, EmptyString).
    cbn [fst snd String.eqb Assert Halting.bind Count TraversePath_loop Split].
    rewrite Hno. reflexivity.
Qed.

Lemma TraversePath_relative_and_root_sample :
  TraversePath Samples.listing Samples.disk "bin/sh" = None /\
  TraversePath Samples.listing Samples.disk "/"
  = Some (mkVNode "" 2, false, ""%string).
Proof.
  destruct (TraversePath_relative_and_root Samples.listing Samples.disk)
    as (Hrelative & Hroot).
  split.
  - apply Hrelative. discriminate.
  - apply Hroot. reflexivity.
Defined.

End ReadFacts.

(** ** The geometry of the Ext2 file system *)

Module Ext2LayoutFacts.
Import Machine Halting Ext2Layout MachineFacts.

Lemma bind_Some' {A B} (m : option A) (k : A -> option B) (b : B) :
  Halting.bind m k = Some b -> exists a, m = Some a /\ k a = Some b.
Proof.
  destruct m as [a|]; simpl; intros H; [|discriminate].
  exists a. split; [reflexivity | exact H].
Qed.

Lemma groupsFor_ceiling (count perGroup : Z) :
  0 <= count < 2 ^ 32 -> 0 < perGroup ->
  let g := groupsFor count perGroup in
  count <= g * perGroup /\ (g - 1) * perGroup < count + (if count =? 0 then 1 else 0)
  /\ 0 <= g.
Proof.
  intros Hc Hp. cbv zeta. unfold groupsFor, wrap32.
  pose proof (Z.div_mod count perGroup ltac:(lia)) as Hdm.
  pose proof (Z.mod_pos_bound count perGroup Hp) as Hm.
  assert (Hq : 0 <= count / perGroup) by (apply Z.div_pos; lia).
  assert (Hsmall : 0 <= count / perGroup
                        + (if 0 <? count mod perGroup then 1 else 0) < 2 ^ 32).
  { destruct (0 <? count mod perGroup) eqn:E;
      [apply Z.ltb_lt in E | apply Z.ltb_ge in E]; nia. }
  rewrite (Z.mod_small _ _ Hsmall).
  destruct (0 <? count mod perGroup) eqn:E;
    [apply Z.ltb_lt in E | apply Z.ltb_ge in E];
    destruct (count =? 0) eqn:E0;
    [apply Z.eqb_eq in E0 | apply Z.eqb_neq in E0
    | apply Z.eqb_eq in E0 | apply Z.eqb_neq in E0]; nia.
Qed.

(** X19.  When [Initialize] passes its checks, for a block size of at
    most 2^30 and counts that fit 32 bits: the block size is 1024 shifted by
    the superblock's field; the block group descriptor table starts at the
    beginning of the block after the one that holds the superblock (byte
    2048 for 1 KiB blocks, the second block otherwise), so never inside the
    superblock; and the number of block groups is the least number of groups
    that hold all blocks, and holds all inodes as well. *)
Theorem Initialize_geometry (superblock : Ext2Superblock) (g : Geometry)
  (Hinit : Initialize superblock = Some g)
  (Hshift : 0 <= blockSizeLog2Minus10 superblock <= 20)
  (Hblocks : 0 < blocksCount superblock < 2 ^ 32)
  (Hinodes : 0 <= inodesCount superblock < 2 ^ 32)
  (Hbpg : 0 < blocksPerBlockGroup superblock)
  (Hipg : 0 < inodesPerBlockGroup superblock) :
  ext2Signature superblock = 0xef53 /\
  fileSystemState superblock = 1 /\
  blockSize g = 1024 * 2 ^ blockSizeLog2Minus10 superblock /\
  blockGroupDescTableDiskAddr g = (1024 / blockSize g + 1) * blockSize g /\
  2048 <= blockGroupDescTableDiskAddr g /\
  (blockGroupsCount g - 1) * blocksPerBlockGroup superblock
  < blocksCount superblock
  <= blockGroupsCount g * blocksPerBlockGroup superblock /\
  inodesCount superblock
  <= blockGroupsCount g * inodesPerBlockGroup superblock.
Proof.
  unfold Initialize in Hinit.
  apply bind_Some' in Hinit. destruct Hinit as (u1 & Hsig & Hinit).
  apply bind_Some' in Hinit. destruct Hinit as (u2 & Hstate & Hinit).
  apply bind_Some' in Hinit. destruct Hinit as (u3 & Hcheck & Hinit).
  injection Hinit as <-. cbn [blockSize blockGroupsCount blockGroupDescTableDiskAddr].
  assert (Hs1 : (ext2Signature superblock =? 61267) = true)
    by (destruct (ext2Signature superblock =? 61267); [reflexivity | discriminate]).
  assert (Hs2 : (fileSystemState superblock =? 1) = true)
    by (destruct (fileSystemState superblock =? 1); [reflexivity | discriminate]).
  assert (Hs3 : (groupsFor (blocksCount superblock) (blocksPerBlockGroup superblock)
                 =? groupsFor (inodesCount superblock)
                      (inodesPerBlockGroup superblock)) = true).
  { destruct (groupsFor (blocksCount superblock) (blocksPerBlockGroup superblock)
              =? groupsFor (inodesCount superblock)
                   (inodesPerBlockGroup superblock));
      [reflexivity | discriminate]. }
  clear Hsig Hstate Hcheck.
  apply Z.eqb_eq in Hs1, Hs2, Hs3.
  split; [exact Hs1|]. split; [exact Hs2|].
  rewrite Z.shiftl_mul_pow2 by lia.
  set (n := blockSizeLog2Minus10 superblock) in *.
  assert (Hpow : 1 <= 2 ^ n <= 2 ^ 20).
  { split; [|apply Z.pow_le_mono_r; lia].
    pose proof (Z.pow_pos_nonneg 2 n ltac:(lia) ltac:(lia)). lia. }
  split; [reflexivity|].
  assert (Haddr : wrap32 (1024 * 2 ^ n * (if 1024 * 2 ^ n =? 1024 then 2 else 1))
                  = (1024 / (1024 * 2 ^ n) + 1) * (1024 * 2 ^ n)).
  { destruct (1024 * 2 ^ n =? 1024) eqn:E.
    - apply Z.eqb_eq in E. rewrite E. reflexivity.
    - apply Z.eqb_neq in E.
      assert (Hbig : 1024 < 1024 * 2 ^ n) by lia.
      rewrite (Z.div_small 1024 (1024 * 2 ^ n)) by lia.
      unfold wrap32. rewrite Z.mod_small; lia. }
  rewrite Haddr. split; [reflexivity|].
  split.
  { destruct (1024 * 2 ^ n =? 1024) eqn:E.
    - apply Z.eqb_eq in E. rewrite E. reflexivity.
    - apply Z.eqb_neq in E. rewrite (Z.div_small 1024 (1024 * 2 ^ n)) by lia.
      assert (H2 : 2 <= 2 ^ n).
      { destruct (Z.eq_dec n 0) as [->|Hn]; [simpl in E; lia|].
        change 2 with (2 ^ 1) at 1. apply Z.pow_le_mono_r; lia. }
      lia. }
  destruct (groupsFor_ceiling (blocksCount superblock)
              (blocksPerBlockGroup superblock)) as (A & B & C); try lia.
  destruct (groupsFor_ceiling (inodesCount superblock)
              (inodesPerBlockGroup superblock)) as (A' & _ & _); try lia.
  assert (E0 : (blocksCount superblock =? 0) = false) by (apply Z.eqb_neq; lia).
  rewrite E0 in B. rewrite <- Hs3 in A'.
  repeat split; lia.
Qed.

Lemma Initialize_geometry_sample :
  exists g,
    Initialize (mkExt2Superblock 512 4096 0 1024 128 0xef53 1 128) = Some g /\
    blockGroupDescTableDiskAddr g = 2048 /\
    blockGroupsCount g = 4.
Proof.
  eexists. split; [reflexivity|].
  destruct (Initialize_geometry (mkExt2Superblock 512 4096 0 1024 128 0xef53 1 128)
              (mkGeometry 1024 4 2048)) as (_ & _ & _ & H & _).
  - reflexivity.
  - simpl. lia.
  - simpl. lia.
  - simpl. lia.
  - simpl. lia.
  - simpl. lia.
  - split; [exact H | reflexivity].
Defined.

(** X20.  [GetInode] for an inode number from 1 to 2^32 - 1 and a
    positive number of inodes per group: the block group and the index in
    the group that it computes give the inode number back, and the index is
    below the number of inodes per group; two inode numbers of one group lie
    their difference times the inode size apart in the RAM disk, when the
    inode table of the group fits 32 bits and the addresses 64.  The inode
    number 0 is not refused: it is looked up as the number 2^32 is. *)
Theorem GetInode_addressing (superblock : Ext2Superblock) (blockSize_ : Z)
  (inodeTableStartBlock : Z -> Z) (inodeNum : Z)
  (Hnum : 1 <= inodeNum < 2 ^ 32)
  (Hipg : 0 < inodesPerBlockGroup superblock) :
  let group := blockGroupIndexOf superblock inodeNum in
  let index := inodeIndexOf superblock inodeNum in
  group * inodesPerBlockGroup superblock + index + 1 = inodeNum /\
  0 <= index < inodesPerBlockGroup superblock /\
  (forall other,
     inodeNum <= other < 2 ^ 32 ->
     blockGroupIndexOf superblock other = group ->
     0 <= inodeSize superblock ->
     inodesPerBlockGroup superblock * inodeSize superblock < 2 ^ 32 ->
     0 <= inodeTableStartBlock group * blockSize_ ->
     inodeTableStartBlock group * blockSize_ + 2 ^ 32 < 2 ^ 64 ->
     GetInode superblock blockSize_ inodeTableStartBlock other
     - GetInode superblock blockSize_ inodeTableStartBlock inodeNum
     = (other - inodeNum) * inodeSize superblock) /\
  blockGroupIndexOf superblock 0 = (2 ^ 32 - 1) / inodesPerBlockGroup superblock /\
  inodeIndexOf superblock 0 = (2 ^ 32 - 1) mod inodesPerBlockGroup superblock.
Proof.
  cbv zeta. unfold blockGroupIndexOf, inodeIndexOf, wrap32.
  rewrite (Z.mod_small (inodeNum - 1)) by lia.
  set (ipg := inodesPerBlockGroup superblock) in *.
  pose proof (Z.div_mod (inodeNum - 1) ipg ltac:(lia)) as Hdm.
  pose proof (Z.mod_pos_bound (inodeNum - 1) ipg Hipg) as Hm.
  split; [lia|]. split; [lia|]. split; [|split; reflexivity].
  intros other Ho Hg Hsz Hfit Ht0 Ht1.
  rewrite (Z.mod_small (other - 1)) in Hg by lia.
  pose proof (Z.div_mod (other - 1) ipg ltac:(lia)) as Hdm'.
  pose proof (Z.mod_pos_bound (other - 1) ipg Hipg) as Hm'.
  unfold GetInode, blockGroupIndexOf, inodeIndexOf, wrap32. fold ipg.
  rewrite (Z.mod_small (other - 1) (2 ^ 32)) by lia.
  rewrite (Z.mod_small (inodeNum - 1) (2 ^ 32)) by lia.
  rewrite Hg.
  set (base := inodeTableStartBlock ((inodeNum - 1) / ipg) * blockSize_) in *.
  set (sz := inodeSize superblock) in *.
  assert (H1 : 0 <= (other - 1) mod ipg * sz < 2 ^ 32) by nia.
  assert (H2 : 0 <= (inodeNum - 1) mod ipg * sz < 2 ^ 32) by nia.
  rewrite (Z.mod_small _ _ H1), (Z.mod_small _ _ H2).
  rewrite (wrap64_small base) by lia.
  rewrite !wrap64_small by lia.
  nia.
Qed.

Lemma GetInode_addressing_sample :
  blockGroupIndexOf (mkExt2Superblock 512 4096 0 1024 128 0xef53 1 128) 130 = 1 /\
  inodeIndexOf (mkExt2Superblock 512 4096 0 1024 128 0xef53 1 128) 130 = 1 /\
  GetInode (mkExt2Superblock 512 4096 0 1024 128 0xef53 1 128) 1024
    (fun g => 5 + 1024 * g) 131
  - GetInode (mkExt2Superblock 512 4096 0 1024 128 0xef53 1 128) 1024
      (fun g => 5 + 1024 * g) 130
  = 128.
Proof.
  destruct (GetInode_addressing (mkExt2Superblock 512 4096 0 1024 128 0xef53 1 128)
              1024 (fun g => 5 + 1024 * g) 130)
    as (_ & _ & H & _).
  - lia.
  - simpl. lia.
  - split; [reflexivity|]. split; [reflexivity|].
    apply (H 131); try (simpl; lia). reflexivity.
Defined.

End Ext2LayoutFacts.

(** ** The LAPIC timer registers *)

Module APICFacts.
Import Machine APIC.

Lemma keepAllBut16 (i : Z) :
  0 <= i ->
  Z.testbit (wrap32 (Z.lnot (Z.shiftl 1 16))) i = (i <? 32) && negb (i =? 16).
Proof.
  intros Hi. unfold wrap32.
  change (Z.shiftl 1 16) with (2 ^ 16).
  destruct (i <? 32) eqn:E; [apply Z.ltb_lt in E | apply Z.ltb_ge in E].
  - rewrite Z.mod_pow2_bits_low by lia.
    rewrite Z.lnot_spec by lia. rewrite Z.pow2_bits_eqb by lia.
    rewrite (Z.eqb_sym 16 i). reflexivity.
  - rewrite Z.mod_pow2_bits_high by lia. reflexivity.
Qed.

Lemma high_bits_clear (x i : Z) :
  0 <= x < 2 ^ 32 -> 32 <= i -> Z.testbit x i = false.
Proof.
  intros Hx Hi. rewrite <- (Z.mod_small x (2 ^ 32)) by lia.
  apply Z.mod_pow2_bits_high. lia.
Qed.

Lemma fits32 (x : Z) :
  (forall i, 32 <= i -> Z.testbit x i = false) -> 0 <= x < 2 ^ 32.
Proof.
  intros H.
  assert (E : x mod 2 ^ 32 = x).
  { apply Z.bits_inj'. intros i Hi.
    destruct (Z.ltb_spec i 32).
    - apply Z.mod_pow2_bits_low. lia.
    - rewrite Z.mod_pow2_bits_high by lia. symmetry. apply H. lia. }
  rewrite <- E. apply Z.mod_pos_bound. lia.
Qed.

(** X21.  [SetLAPICTimerFrequency] programs the count nearest to the
    base frequency divided by the requested frequency (a remainder of
    exactly half rounds down), when the base frequency fits 32 bits and the
    requested frequency is positive. *)
Theorem SetLAPICTimerFrequency_rounds_to_nearest
  (lapicTimerBaseFrequency frequency : Z)
  (Hbase : 0 <= lapicTimerBaseFrequency < 2 ^ 32)
  (Hfrequency : 0 < frequency) :
  let reloadValue := SetLAPICTimerFrequency lapicTimerBaseFrequency frequency in
  2 * Z.abs (lapicTimerBaseFrequency - reloadValue * frequency) <= frequency /\
  (2 * (lapicTimerBaseFrequency mod frequency) = frequency ->
   reloadValue = lapicTimerBaseFrequency / frequency).
Proof.
  cbv zeta. unfold SetLAPICTimerFrequency, wrap32, wrap64.
  pose proof (Z.div_mod lapicTimerBaseFrequency frequency ltac:(lia)) as Hdm.
  pose proof (Z.mod_pos_bound lapicTimerBaseFrequency frequency Hfrequency) as Hm.
  pose proof (Z.div_mod frequency 2 ltac:(lia)) as Hdm2.
  pose proof (Z.mod_pos_bound frequency 2 ltac:(lia)) as Hm2.
  assert (Hq : 0 <= lapicTimerBaseFrequency / frequency) by (apply Z.div_pos; lia).
  set (q := lapicTimerBaseFrequency / frequency) in *.
  set (r := lapicTimerBaseFrequency mod frequency) in *.
  set (h := frequency / 2) in *.
  set (p := frequency mod 2) in *.
  destruct (h <? r) eqn:E; [apply Z.ltb_lt in E | apply Z.ltb_ge in E].
  - assert (Hq1 : q + 1 < 2 ^ 32) by nia.
    rewrite (Z.mod_small (q + 1) (2 ^ 64)) by lia.
    rewrite (Z.mod_small (q + 1) (2 ^ 32)) by lia.
    split; [|lia].
    replace (lapicTimerBaseFrequency - (q + 1) * frequency) with (r - frequency)
      by nia.
    lia.
  - assert (Hq1 : q < 2 ^ 32) by nia.
    rewrite (Z.mod_small q (2 ^ 32)) by lia.
    split; [|reflexivity].
    replace (lapicTimerBaseFrequency - q * frequency) with r by nia.
    lia.
Qed.

Lemma SetLAPICTimerFrequency_rounds_to_nearest_sample :
  SetLAPICTimerFrequency 1000 300 = 3 /\
  2 * Z.abs (1000 - SetLAPICTimerFrequency 1000 300 * 300) <= 300.
Proof.
  split; [reflexivity|].
  apply (SetLAPICTimerFrequency_rounds_to_nearest 1000 300); lia.
Defined.

(** X22.  [SetLAPICTimerMask] changes bit 16 of the LVT timer register,
    which becomes the mask, and no other bit; [SetLAPICTimerMode] with a
    mode from 0 to 3 changes bits 17 and 18, which become the mode, and no
    other bit.  Both leave the register a 32-bit value. *)
Theorem LAPIC_timer_register_bits (mask : bool) (mode lvtTimer : Z)
  (Hregister : 0 <= lvtTimer < 2 ^ 32)
  (Hmode : 0 <= mode <= 3) :
  (Z.testbit (SetLAPICTimerMask mask lvtTimer) 16 = mask /\
   (forall i, 0 <= i -> i <> 16 ->
      Z.testbit (SetLAPICTimerMask mask lvtTimer) i = Z.testbit lvtTimer i) /\
   0 <= SetLAPICTimerMask mask lvtTimer < 2 ^ 32) /\
  (Z.land (Z.shiftr (SetLAPICTimerMode mode lvtTimer) 17) 3 = mode /\
   (forall i, 0 <= i -> i <> 17 -> i <> 18 ->
      Z.testbit (SetLAPICTimerMode mode lvtTimer) i = Z.testbit lvtTimer i) /\
   0 <= SetLAPICTimerMode mode lvtTimer < 2 ^ 32).
Proof.
  assert (Hmask : forall i, 0 <= i ->
            Z.testbit (SetLAPICTimerMask mask lvtTimer) i
            = if i =? 16 then mask else Z.testbit lvtTimer i).
  { intros i Hi. unfold SetLAPICTimerMask. destruct mask.
    - rewrite Z.lor_spec. change (Z.shiftl 1 16) with (2 ^ 16).
      rewrite Z.pow2_bits_eqb by lia. rewrite (Z.eqb_sym 16 i).
      destruct (i =? 16); [apply orb_true_r | apply orb_false_r].
    - rewrite Z.land_spec, keepAllBut16 by lia.
      destruct (i =? 16) eqn:E16.
      + cbn [negb]. rewrite andb_false_r. apply andb_false_r.
      + cbn [negb]. rewrite andb_true_r.
        destruct (Z.ltb_spec i 32).
        * apply andb_true_r.
        * rewrite (high_bits_clear lvtTimer i) by lia. reflexivity. }
  assert (Hkeep : forall i, 0 <= i ->
            Z.testbit (wrap32 (Z.lnot 393216)) i
            = (i <? 32) && negb ((i =? 17) || (i =? 18))).
  { intros i Hi. unfold wrap32.
    destruct (Z.ltb_spec i 32).
    - rewrite Z.mod_pow2_bits_low by lia. rewrite Z.lnot_spec by lia.
      change 393216 with (Z.lor (2 ^ 17) (2 ^ 18)).
      rewrite Z.lor_spec, !Z.pow2_bits_eqb by lia.
      rewrite (Z.eqb_sym 17 i), (Z.eqb_sym 18 i). reflexivity.
    - rewrite Z.mod_pow2_bits_high by lia. reflexivity. }
  assert (Hshift : forall i, 0 <= i ->
            Z.testbit (Z.shiftl mode 17) i
            = if i =? 17 then Z.testbit mode 0
              else if i =? 18 then Z.testbit mode 1 else false).
  { intros i Hi. rewrite Z.shiftl_spec by lia.
    destruct (Z.eqb_spec i 17) as [->|H17]; [reflexivity|].
    destruct (Z.eqb_spec i 18) as [->|H18]; [reflexivity|].
    destruct (Z.ltb_spec i 17).
    - apply Z.testbit_neg_r. lia.
    - assert (Hm : mode = 0 \/ mode = 1 \/ mode = 2 \/ mode = 3) by lia.
      assert (Hi2 : 2 <= i - 17) by lia.
      rewrite <- (Z.mod_small mode (2 ^ 2)) by lia.
      apply Z.mod_pow2_bits_high. lia. }
  assert (Hmodebits : forall i, 0 <= i ->
            Z.testbit (SetLAPICTimerMode mode lvtTimer) i
            = if i =? 17 then Z.testbit mode 0
              else if i =? 18 then Z.testbit mode 1
              else Z.testbit lvtTimer i).
  { intros i Hi. unfold SetLAPICTimerMode. cbv zeta.
    change (Z.lnot 393216) with (Z.lnot 393216).
    destruct (Z.ltb_spec i 32) as [Hlt|Hge].
    - unfold wrap32 at 1. rewrite Z.mod_pow2_bits_low by lia.
      rewrite Z.lor_spec, Z.land_spec, Hkeep, Hshift by lia.
      destruct (Z.eqb_spec i 17) as [->|H17].
      { cbn. rewrite andb_false_r. reflexivity. }
      destruct (Z.eqb_spec i 18) as [->|H18].
      { cbn. rewrite andb_false_r. reflexivity. }
      destruct (Z.ltb_spec i 32); [|lia].
      cbn [orb negb andb]. rewrite andb_true_r, orb_false_r. reflexivity.
    - unfold wrap32 at 1. rewrite Z.mod_pow2_bits_high by lia.
      destruct (Z.eqb_spec i 17); [lia|].
      destruct (Z.eqb_spec i 18); [lia|].
      symmetry. apply high_bits_clear; lia. }
  split; [split; [|split] | split; [|split]].
  - rewrite Hmask by lia. reflexivity.
  - intros i Hi Hne. rewrite Hmask by lia.
    destruct (Z.eqb_spec i 16); [contradiction | reflexivity].
  - apply fits32. intros i Hi. rewrite Hmask by lia.
    destruct (Z.eqb_spec i 16); [lia|]. apply high_bits_clear; lia.
  - apply Z.bits_inj'. intros i Hi.
    rewrite Z.land_spec, Z.shiftr_spec by lia.
    rewrite Hmodebits by lia.
    change 3 with (Z.ones 2).
    destruct (Z.ltb_spec i 2) as [Hlt|Hge].
    + rewrite Z.ones_spec_low by lia. rewrite andb_true_r.
      assert (Hi01 : i = 0 \/ i = 1) by lia.
      destruct Hi01 as [->| ->]; reflexivity.
    + rewrite Z.ones_spec_high by lia. rewrite andb_false_r.
      symmetry. rewrite <- (Z.mod_small mode (2 ^ 2)) by lia.
      apply Z.mod_pow2_bits_high. lia.
  - intros i Hi H17 H18. rewrite Hmodebits by lia.
    destruct (Z.eqb_spec i 17); [contradiction|].
    destruct (Z.eqb_spec i 18); [contradiction|]. reflexivity.
  - apply fits32. intros i Hi. rewrite Hmodebits by lia.
    destruct (Z.eqb_spec i 17); [lia|].
    destruct (Z.eqb_spec i 18); [lia|]. apply high_bits_clear; lia.
Qed.

Lemma LAPIC_timer_register_bits_sample :
  Z.testbit (SetLAPICTimerMask true 0x30) 16 = true /\
  Z.land (Z.shiftr (SetLAPICTimerMode 1 0x10030) 17) 3 = 1.
Proof.
  destruct (LAPIC_timer_register_bits true 1 0x30) as ((H & _) & _);
    [lia | lia |].
  destruct (LAPIC_timer_register_bits true 1 0x10030) as (_ & (H' & _));
    [lia | lia |].
  split; [exact H | exact H'].
Defined.

End APICFacts.

(** ** Gate descriptors *)

Module IDTFacts.
Import Machine IDT.

(** X23.  The gate that [SetInterruptHandler] writes holds the whole
    64-bit handler address in its three offset fields, the kernel code
    selector 0x28, the present bit, the type of a 64-bit interrupt gate and,
    for a ring from 0 to 3, that ring as its privilege level; the other
    gates of the table are not touched and the count of handlers grows by
    one. *)
Theorem SetInterruptHandler_gate (interrupt handler ring ist_ : Z) (t : Table)
  (Hhandler : 0 <= handler < 2 ^ 64)
  (Hring : 0 <= ring <= 3) :
  let t' := SetInterruptHandler interrupt handler ring ist_ t in
  let gate := entries t' interrupt in
  gateOffset gate = handler /\
  segmentSelector gate = 0x28 /\
  ist gate = ist_ /\
  gateDPL gate = ring /\
  Z.testbit (typeAttributes gate) 7 = true /\
  Z.land (typeAttributes gate) 0x1f = 0xe /\
  (forall other, other <> interrupt -> entries t' other = entries t other) /\
  initializedInterruptHandlersCount t'
  = initializedInterruptHandlersCount t + 1.
Proof.
  cbv zeta. unfold SetInterruptHandler.
  cbn [entries initializedInterruptHandlersCount].
  rewrite Z.eqb_refl.
  cbn [offset0 offset1 offset2 segmentSelector ist typeAttributes].
  unfold gateOffset, gateDPL.
  cbn [offset0 offset1 offset2 segmentSelector ist typeAttributes].
  split.
  { rewrite !Z.shiftr_div_pow2 by lia.
    change (2 ^ 16) with 65536. change (2 ^ 32) with 4294967296.
    change (2 ^ 64) with 18446744073709551616 in Hhandler.
    Z.div_mod_to_equations. lia. }
  split; [reflexivity|]. split; [reflexivity|].
  assert (Hr : ring = 0 \/ ring = 1 \/ ring = 2 \/ ring = 3) by lia.
  split; [destruct Hr as [->|[->|[->| ->]]]; reflexivity|].
  split; [destruct Hr as [->|[->|[->| ->]]]; reflexivity|].
  split; [destruct Hr as [->|[->|[->| ->]]]; reflexivity|].
  split; [|reflexivity].
  intros other Hne. apply Z.eqb_neq in Hne. rewrite Hne. reflexivity.
Qed.

Lemma SetInterruptHandler_gate_sample :
  gateOffset
    (entries
       (SetInterruptHandler 0x80 0xffffffff80001234 3 0
          (mkTable (fun _ => mkIDTGateDescriptor 0 0 0 0 0 0 0) 0)) 0x80)
  = 0xffffffff80001234.
Proof.
  apply (SetInterruptHandler_gate 0x80 0xffffffff80001234 3 0
           (mkTable (fun _ => mkIDTGateDescriptor 0 0 0 0 0 0 0) 0)); lia.
Defined.

End IDTFacts.

(** ** The ELF loader: segments and the initial stack *)

Module LoaderFacts.
Import Machine Bytes Mem ELF ELFSpec MachineFacts BytesFacts.

(** *** The pages of a segment *)

Lemma LoadProgramHeader_loop_mapped (n : nat) :
  forall (page baseAddr : Z) (programHeader : ProgramHeader)
         (f : OpenFile) (fileReadCount : Z) (l : Loader),
    map fst (mapped (snd (LoadProgramHeader_loop n page baseAddr
                            programHeader f fileReadCount l)))
    = map fst (mapped l)
      ++ map (fun i =>
                let virtAddr_ :=
                  wrap64 (baseAddr + wrap64 ((page + Z.of_nat i) * 0x1000)) in
                wrap64 (virtAddr_ - virtAddr_ mod 0x1000))
           (seq 0 n).
Proof.
  induction n as [|n IH]; intros page baseAddr ph f frc l.
  - cbn [LoadProgramHeader_loop snd seq map]. rewrite app_nil_r. reflexivity.
  - cbn [LoadProgramHeader_loop]. cbv zeta. rewrite IH.
    cbn [mapped MapMemory RequestPageFrames snd fst].
    rewrite map_app. cbn [map fst]. rewrite <- app_assoc. f_equal.
    cbn [seq]. cbn [map app]. f_equal.
    + change (Z.of_nat 0) with 0. rewrite Z.add_0_r. reflexivity.
    + rewrite <- seq_shift, map_map. apply map_ext. intros i.
      replace (page + 1 + Z.of_nat i) with (page + Z.of_nat (S i)) by lia.
      reflexivity.
Qed.

(** X24.  [LoadProgramHeader] maps one page for every 0x1000 bytes of the
    segment's size in memory, rounded up, starting at the page that holds
    the segment's base address (biased by [RTDL_ADDR] for a shared object):
    an address lies in a page that the call maps exactly when it is at
    least the base rounded down to a page and less than that plus the pages.
    The count does not take the offset of the base within its page into
    account. *)
Theorem LoadProgramHeader_maps_pages (f : OpenFile)
  (programHeader : ProgramHeader) (elfHeader : ELFHeader) (l : Loader)
  (Hsize : 0 < segmentSizeInMemory programHeader < 2 ^ 64)
  (Hbase : 0 <= virtAddr programHeader)
  (Hfit : virtAddr programHeader + RTDL_ADDR
          + segmentSizeInMemory programHeader + 0x1000 <= 2 ^ 64) :
  let pages := (segmentSizeInMemory programHeader - 1) / 0x1000 + 1 in
  let baseAddr :=
    if type elfHeader =? Shared
    then virtAddr programHeader + RTDL_ADDR else virtAddr programHeader in
  let first := baseAddr - baseAddr mod 0x1000 in
  let l' := snd (LoadProgramHeader f programHeader elfHeader l) in
  exists new,
    map fst (mapped l') = map fst (mapped l) ++ new /\
    Z.of_nat (length new) = pages /\
    (forall a, In (a - a mod 0x1000) new <->
               first <= a < first + pages * 0x1000).
Proof.
  cbv zeta. unfold LoadProgramHeader. cbv zeta.
  rewrite LoadProgramHeader_loop_mapped.
  set (memsz := segmentSizeInMemory programHeader) in *.
  set (va := virtAddr programHeader) in *.
  assert (Hrtdl : RTDL_ADDR = 0x40000000) by reflexivity.
  rewrite (wrap64_small (memsz - 1)) by lia.
  assert (Hq : 0 <= (memsz - 1) / 0x1000 < 2 ^ 52).
  { change (2 ^ 64) with (0x1000 * 2 ^ 52) in Hsize.
    split; [apply Z.div_pos; lia | apply Z.div_lt_upper_bound; lia]. }
  rewrite (wrap64_small ((memsz - 1) / 0x1000 + 1))
    by (change (2 ^ 64) with 18446744073709551616;
        change (2 ^ 52) with 4503599627370496 in Hq; lia).
  set (pages := (memsz - 1) / 0x1000 + 1) in *.
  assert (Hpages : memsz <= pages * 0x1000 < memsz + 0x1000).
  { unfold pages. pose proof (Z.div_mod (memsz - 1) 0x1000 ltac:(lia)).
    pose proof (Z.mod_pos_bound (memsz - 1) 0x1000 ltac:(lia)). lia. }
  set (base := if type elfHeader =? Shared then wrap64 (va + RTDL_ADDR) else va).
  assert (Ebase : base = if type elfHeader =? Shared then va + RTDL_ADDR else va).
  { unfold base. destruct (type elfHeader =? Shared); [|reflexivity].
    apply wrap64_small. lia. }
  rewrite Ebase. clear Ebase base.
  set (base := if type elfHeader =? Shared then va + RTDL_ADDR else va).
  assert (Hb : 0 <= base /\ base + memsz + 0x1000 <= 2 ^ 64).
  { unfold base. destruct (type elfHeader =? Shared); lia. }
  pose proof (Z.div_mod base 0x1000 ltac:(lia)) as Hdm.
  pose proof (Z.mod_pos_bound base 0x1000 ltac:(lia)) as Hm.
  eexists. split; [reflexivity|].
  split; [rewrite length_map, length_seq; lia|].
  intros a. rewrite in_map_iff.
  assert (Hpage : forall i, (i < Z.to_nat pages)%nat ->
            (let virtAddr_ :=
               wrap64 (base + wrap64 ((0 + Z.of_nat i) * 0x1000)) in
             wrap64 (virtAddr_ - virtAddr_ mod 0x1000))
            = base - base mod 0x1000 + 0x1000 * Z.of_nat i).
  { intros i Hi. cbv zeta. rewrite Z.add_0_l.
    assert (Hi' : 0 <= Z.of_nat i < pages) by lia.
    rewrite (wrap64_small (Z.of_nat i * 0x1000)) by lia.
    rewrite (wrap64_small (base + Z.of_nat i * 0x1000)) by lia.
    rewrite Z_mod_plus_full. apply eq_trans with
      (y := wrap64 (base - base mod 0x1000 + 0x1000 * Z.of_nat i)).
    - f_equal. lia.
    - apply wrap64_small. lia. }
  pose proof (Z.div_mod a 0x1000 ltac:(lia)) as Hda.
  pose proof (Z.mod_pos_bound a 0x1000 ltac:(lia)) as Hma.
  split.
  - intros (i & Hi & Hin). apply in_seq in Hin.
    rewrite Hpage in Hi by lia. lia.
  - intros Ha.
    exists (Z.to_nat ((a - (base - base mod 0x1000)) / 0x1000)).
    pose proof (Z.div_mod (a - (base - base mod 0x1000)) 0x1000 ltac:(lia)) as Hd.
    pose proof (Z.mod_pos_bound (a - (base - base mod 0x1000)) 0x1000 ltac:(lia)) as Hmm.
    assert (Hi0 : 0 <= (a - (base - base mod 0x1000)) / 0x1000 < pages).
    { split; [apply Z.div_pos; lia | apply Z.div_lt_upper_bound; lia]. }
    split.
    + rewrite Hpage by lia. rewrite Z2Nat.id by lia. lia.
    + apply in_seq. lia.
Qed.

(** A segment of 0x1000 bytes at 0x400800: one page is mapped, and the
    segment's last byte, at 0x4017ff, is in no mapped page. *)
Lemma LoadProgramHeader_maps_pages_sample :
  map fst (mapped (snd (LoadProgramHeader Samples.segmentFile
                          Samples.unalignedSegment Samples.executableHeader
                          Samples.emptyLoader)))
  = [0x400000] /\
  ~ In (0x4017ff - 0x4017ff mod 0x1000) [0x400000].
Proof.
  destruct (LoadProgramHeader_maps_pages Samples.segmentFile
              Samples.unalignedSegment Samples.executableHeader
              Samples.emptyLoader) as (new & Hmap & Hlen & Hin).
  - simpl. lia.
  - simpl. lia.
  - vm_compute. discriminate.
  - split; [reflexivity|].
    intros [H|[]]. vm_compute in H. discriminate.
Defined.

(** *** The bytes read for a segment *)

Lemma readAfter_succ (fileSize j : Z) :
  0 <= j ->
  readAfter fileSize (j + 1)
  = readAfter fileSize j
    + (if j <? fileSize / 0x1000 then 0x1000 else fileSize mod 0x1000).
Proof.
  intros Hj. unfold readAfter.
  set (full := fileSize / 0x1000). set (r := fileSize mod 0x1000).
  destruct (Z.leb_spec (j + 1) full), (Z.leb_spec j full), (Z.ltb_spec j full);
    try lia.
  assert (j = full) by lia. subst j. lia.
Qed.

Lemma readAfter_bounds (fileSize j : Z) :
  0 <= fileSize -> 0 <= j ->
  0 <= readAfter fileSize j <= j * 0x1000 /\
  (j < fileSize / 0x1000 -> readAfter fileSize j + 0x1000 <= fileSize) /\
  (fileSize / 0x1000 <= j -> fileSize < readAfter fileSize j + 0x1000).
Proof.
  intros Hf Hj. unfold readAfter.
  pose proof (Z.div_mod fileSize 0x1000 ltac:(lia)) as Hdm.
  pose proof (Z.mod_pos_bound fileSize 0x1000 ltac:(lia)) as Hm.
  assert (Hq : 0 <= fileSize / 0x1000) by (apply Z.div_pos; lia).
  set (full := fileSize / 0x1000) in *. set (r := fileSize mod 0x1000) in *.
  destruct (Z.leb_spec j full).
  - split; [lia|]. split; intros; lia.
  - split; [nia|]. split; intros; nia.
Qed.

Lemma FileRead_full (f : OpenFile) (count : Z) :
  0 <= count -> 0 <= position f ->
  position f + count <= Z.of_nat (length (data f)) ->
  Z.of_nat (length (fst (FileRead f count))) = count /\
  position (snd (FileRead f count)) = position f + count /\
  data (snd (FileRead f count)) = data f.
Proof.
  intros Hc Hp Hlen. unfold FileRead. cbn [fst snd position data].
  rewrite length_firstn, length_skipn. split; [lia|]. split; [lia | reflexivity].
Qed.

Lemma LoadProgramHeader_loop_position (n : nat) :
  forall (j page baseAddr : Z) (programHeader : ProgramHeader)
         (f : OpenFile) (l : Loader),
    0 <= segmentSizeInFile programHeader -> 0 <= j ->
    (j + Z.of_nat n + 1) * 0x1000 < 2 ^ 64 ->
    0 <= position f ->
    position f + Z.of_nat n * 0x1000 <= Z.of_nat (length (data f)) ->
    position (fst (LoadProgramHeader_loop n page baseAddr programHeader f
                     (readAfter (segmentSizeInFile programHeader) j) l))
    = position f
      + readAfter (segmentSizeInFile programHeader) (j + Z.of_nat n)
      - readAfter (segmentSizeInFile programHeader) j.
Proof.
  induction n as [|n IH]; intros j page baseAddr ph f l Hf Hj Hfit Hp Hlen.
  - cbn [LoadProgramHeader_loop fst]. rewrite Z.add_0_r. lia.
  - cbn [LoadProgramHeader_loop]. cbv zeta.
    set (fileSize := segmentSizeInFile ph) in *.
    destruct (readAfter_bounds fileSize j Hf Hj) as (Hb & Hlow & Hhigh).
    pose proof (Z.mod_pos_bound fileSize 0x1000 ltac:(lia)) as Hm.
    rewrite (wrap64_small (readAfter fileSize j + 0x1000)) by lia.
    set (readCount := if fileSize <? readAfter fileSize j + 0x1000
                      then fileSize mod 0x1000 else 0x1000).
    assert (Ecount : readCount
                     = if j <? fileSize / 0x1000 then 0x1000
                       else fileSize mod 0x1000).
    { unfold readCount.
      destruct (Z.ltb_spec j (fileSize / 0x1000)) as [Hlt|Hge].
      - specialize (Hlow Hlt).
        destruct (Z.ltb_spec fileSize (readAfter fileSize j + 0x1000)); [lia|].
        reflexivity.
      - specialize (Hhigh Hge).
        destruct (Z.ltb_spec fileSize (readAfter fileSize j + 0x1000)); [|lia].
        reflexivity. }
    assert (Hrange : 0 <= readCount <= 0x1000).
    { rewrite Ecount. destruct (j <? fileSize / 0x1000); lia. }
    destruct (FileRead_full f readCount) as (Elen & Epos & Edata);
      [lia | lia | lia |].
    rewrite Elen.
    rewrite (wrap64_small (readAfter fileSize j + readCount)) by lia.
    assert (Enext : readAfter fileSize j + readCount = readAfter fileSize (j + 1)).
    { rewrite readAfter_succ by lia. rewrite Ecount. reflexivity. }
    rewrite Enext.
    rewrite (IH (j + 1)); try exact Hf; try lia.
    + rewrite Epos. replace (j + 1 + Z.of_nat n) with (j + Z.of_nat (S n)) by lia.
      fold fileSize. lia.
    + rewrite Epos, Edata. lia.
Qed.

(** X25.  When the file holds a page for every page of the segment, so
    that no read is short, [LoadProgramHeader] leaves the file at the
    segment's offset plus 0x1000 for each whole page of the size in the
    file, plus the size in the file modulo 0x1000 for every further page of
    the segment: it reads the rest of the file part again on each page that
    follows it.  So, with a size in the file that is at most the size in
    memory, it has read the size in the file plus that rest once for each
    page after the one that ends the file part. *)
Theorem LoadProgramHeader_bytes_read (f : OpenFile)
  (programHeader : ProgramHeader) (elfHeader : ELFHeader) (l : Loader)
  (Hmem : 0 < segmentSizeInMemory programHeader < 2 ^ 63)
  (Hfile : 0 <= segmentSizeInFile programHeader
           <= segmentSizeInMemory programHeader)
  (Hoffset : 0 <= offsetInFile programHeader)
  (Hlong : offsetInFile programHeader
           + ((segmentSizeInMemory programHeader - 1) / 0x1000 + 1) * 0x1000
           <= Z.of_nat (length (data f))) :
  let pages := (segmentSizeInMemory programHeader - 1) / 0x1000 + 1 in
  let fileSize := segmentSizeInFile programHeader in
  let f' := fst (LoadProgramHeader f programHeader elfHeader l) in
  position f' - offsetInFile programHeader
  = fileSize / 0x1000 * 0x1000
    + (pages - fileSize / 0x1000) * (fileSize mod 0x1000) /\
  (0 < fileSize mod 0x1000 ->
   position f' - offsetInFile programHeader
   = fileSize + (pages - 1 - fileSize / 0x1000) * (fileSize mod 0x1000)).
Proof.
  cbv zeta. unfold LoadProgramHeader. cbv zeta.
  set (memsz := segmentSizeInMemory programHeader) in *.
  set (fileSize := segmentSizeInFile programHeader) in *.
  assert (H63 : 2 ^ 63 = 9223372036854775808) by reflexivity.
  assert (H64 : 2 ^ 64 = 18446744073709551616) by reflexivity.
  rewrite (wrap64_small (memsz - 1)) by lia.
  pose proof (Z.div_mod (memsz - 1) 0x1000 ltac:(lia)) as Hdm.
  pose proof (Z.mod_pos_bound (memsz - 1) 0x1000 ltac:(lia)) as Hm.
  assert (Hq : 0 <= (memsz - 1) / 0x1000) by (apply Z.div_pos; lia).
  rewrite (wrap64_small ((memsz - 1) / 0x1000 + 1)) by lia.
  set (pages := (memsz - 1) / 0x1000 + 1) in *.
  assert (E0 : readAfter fileSize 0 = 0).
  { unfold readAfter. destruct (Z.leb_spec 0 (fileSize / 0x1000)); [reflexivity|].
    assert (0 <= fileSize / 0x1000) by (apply Z.div_pos; lia). lia. }
  pose proof (LoadProgramHeader_loop_position (Z.to_nat pages) 0 0
                (if type elfHeader =? Shared
                 then wrap64 (virtAddr programHeader + RTDL_ADDR)
                 else virtAddr programHeader)
                programHeader
                (FileSeekSet f (offsetInFile programHeader)) l) as Hloop.
  fold fileSize in Hloop. rewrite E0 in Hloop.
  rewrite Hloop; cbn [FileSeekSet position data]; try lia.
  clear Hloop.
  rewrite Z2Nat.id by lia. rewrite Z.add_0_l.
  pose proof (Z.div_mod fileSize 0x1000 ltac:(lia)) as Hdf.
  pose proof (Z.mod_pos_bound fileSize 0x1000 ltac:(lia)) as Hmf.
  assert (Hfull : fileSize / 0x1000 <= pages).
  { unfold pages.
    assert (fileSize / 0x1000 <= memsz / 0x1000)
      by (apply Z.div_le_mono; lia).
    assert (memsz / 0x1000 <= (memsz - 1) / 0x1000 + 1).
    { pose proof (Z.div_mod memsz 0x1000 ltac:(lia)).
      pose proof (Z.mod_pos_bound memsz 0x1000 ltac:(lia)). lia. }
    lia. }
  assert (E : readAfter fileSize pages
              = fileSize / 0x1000 * 0x1000
                + (pages - fileSize / 0x1000) * (fileSize mod 0x1000)).
  { unfold readAfter. destruct (Z.leb_spec pages (fileSize / 0x1000)); [|reflexivity].
    assert (pages = fileSize / 0x1000) by lia. lia. }
  rewrite E. split; [lia|]. intros _. lia.
Qed.

(** A segment with 0x1800 bytes in the file and three pages in memory:
    0x2000 bytes are read, 0x800 more than the file part. *)
Lemma LoadProgramHeader_bytes_read_sample :
  position (fst (LoadProgramHeader Samples.segmentFile Samples.segment
                   Samples.executableHeader Samples.emptyLoader))
  - 0x100 = 0x2000.
Proof.
  destruct (LoadProgramHeader_bytes_read Samples.segmentFile Samples.segment
              Samples.executableHeader Samples.emptyLoader) as (H & _).
  - simpl. lia.
  - simpl. lia.
  - simpl. lia.
  - vm_compute. discriminate.
  - exact H.
Defined.

(** *** Words on the stack *)

Lemma byteValue_byteOf (v : Z) : byteValue (byteOf v) = v mod 256.
Proof.
  unfold byteValue, byteOf.
  pose proof (Z.mod_pos_bound v 256 ltac:(lia)) as Hm.
  destruct (Byte.of_N (Z.to_N (v mod 256))) as [b|] eqn:E.
  - apply Byte.to_of_N in E. rewrite E. apply Z2N.id. lia.
  - apply Byte.of_N_None_iff in E. lia.
Qed.

Lemma littleEndian_le_bytes (n : nat) :
  forall (v : Z) (k : nat),
    littleEndian (map (fun i => byteOf (v / 256 ^ Z.of_nat i)) (seq k n))
    = (v / 256 ^ Z.of_nat k) mod 256 ^ Z.of_nat n.
Proof.
  induction n as [|n IH]; intros v k.
  - cbn [seq map littleEndian fold_right]. change (256 ^ Z.of_nat 0) with 1.
    rewrite Z.mod_1_r. reflexivity.
  - cbn [seq map].
    change (littleEndian (?b :: ?bs)) with (byteValue b + 256 * littleEndian bs).
    rewrite byteValue_byteOf, IH.
    replace (Z.of_nat (S n)) with (1 + Z.of_nat n) by lia.
    rewrite Z.pow_add_r by lia. change (256 ^ 1) with 256.
    rewrite Z.rem_mul_r by (try lia; apply Z.pow_pos_nonneg; lia).
    replace (Z.of_nat (S k)) with (Z.of_nat k + 1) by lia.
    rewrite Z.pow_add_r by lia. change (256 ^ 1) with 256.
    rewrite Z.div_div by (try lia; apply Z.pow_pos_nonneg; lia).
    reflexivity.
Qed.

Lemma littleEndian_bound (bs : list byte) :
  0 <= littleEndian bs < 256 ^ Z.of_nat (length bs).
Proof.
  induction bs as [|b bs IH].
  - cbn. lia.
  - change (littleEndian (b :: bs)) with (byteValue b + 256 * littleEndian bs).
    cbn [length]. replace (Z.of_nat (S (length bs))) with (1 + Z.of_nat (length bs)) by lia.
    rewrite Z.pow_add_r by lia. change (256 ^ 1) with 256.
    pose proof (byteValue_range b). lia.
Qed.

Lemma field_bound (offset size : nat) (bs : list byte) :
  (size <= 8)%nat -> 0 <= field offset size bs < 2 ^ 64.
Proof.
  intros Hs. unfold field.
  pose proof (littleEndian_bound (firstn size (skipn offset bs))) as H.
  assert (Hl : (length (firstn size (skipn offset bs)) <= 8)%nat).
  { rewrite length_firstn. lia. }
  assert (Hp : 256 ^ Z.of_nat (length (firstn size (skipn offset bs))) <= 256 ^ 8).
  { apply Z.pow_le_mono_r; lia. }
  change (256 ^ 8) with (2 ^ 64) in Hp. lia.
Qed.

Lemma storeBytes_outside (bs : list byte) :
  forall (addr : Z) (m : Memory) (a : Z),
    a < addr \/ addr + Z.of_nat (length bs) <= a ->
    storeBytes addr bs m a = m a.
Proof.
  induction bs as [|b bs IH]; intros addr m a Ha; [reflexivity|].
  cbn [storeBytes]. cbn [length] in Ha. rewrite IH by lia.
  unfold store. assert (E : (a =? addr) = false) by (apply Z.eqb_neq; lia).
  rewrite E. reflexivity.
Qed.

Lemma storeBytes_read (bs : list byte) :
  forall (addr : Z) (m : Memory),
    map (fun i => storeBytes addr bs m (addr + Z.of_nat i)) (seq 0 (length bs))
    = bs.
Proof.
  induction bs as [|b bs IH]; intros addr m; [reflexivity|].
  cbn [length seq map storeBytes]. f_equal.
  - rewrite storeBytes_outside by lia. unfold store.
    change (Z.of_nat 0) with 0. rewrite Z.add_0_r, Z.eqb_refl. reflexivity.
  - rewrite <- seq_shift, map_map. rewrite <- (IH (addr + 1) (store m addr b)) at 2.
    apply map_ext. intros i. f_equal. lia.
Qed.

Lemma load64_ext (m1 m2 : Memory) (addr : Z) :
  (forall i, 0 <= i < 8 -> m1 (addr + i) = m2 (addr + i)) ->
  load64 m1 addr = load64 m2 addr.
Proof.
  intros H. unfold load64. f_equal. apply map_ext_in. intros i Hi.
  apply in_seq in Hi. apply H. lia.
Qed.

Lemma load64_store64 (addr v : Z) (m : Memory) :
  load64 (store64 addr v m) addr = wrap64 v.
Proof.
  unfold load64, store64.
  set (bs := map (fun i => byteOf (v / 256 ^ Z.of_nat i)) (seq 0 8)).
  change 8%nat with (length bs) at 1.
  rewrite storeBytes_read. unfold bs. rewrite littleEndian_le_bytes.
  change (256 ^ Z.of_nat 0) with 1. rewrite Z.div_1_r. reflexivity.
Qed.

Lemma store64_outside (addr v : Z) (m : Memory) (a : Z) :
  a < addr \/ addr + 8 <= a -> store64 addr v m a = m a.
Proof.
  intros Ha. unfold store64. apply storeBytes_outside.
  rewrite length_map, length_seq. lia.
Qed.

Lemma pushWords_spec (words : list Z) :
  forall (top : Z) (m : Memory),
    8 * Z.of_nat (length words) <= top < 2 ^ 64 ->
    let r := pushWords words top m in
    fst r = top - 8 * Z.of_nat (length words) /\
    (forall a, a < top - 8 * Z.of_nat (length words) \/ top <= a ->
       snd r a = m a) /\
    (forall k, (k < length words)%nat ->
       load64 (snd r) (top - 8 * (Z.of_nat k + 1)) = wrap64 (nth k words 0)).
Proof.
  induction words as [|v words IH]; intros top m Htop.
  - cbn [pushWords fst snd length]. split; [lia|]. split; [reflexivity|].
    intros k Hk. cbn [length] in Hk. lia.
  - cbn [length] in Htop. cbn [pushWords]. cbv zeta.
    rewrite (wrap64_small (top - 8)) by lia.
    destruct (IH (top - 8) (store64 (top - 8) v m)) as (Hfst & Hout & Hwords);
      [lia|].
    cbv zeta in Hfst, Hout, Hwords.
    split; [cbn [length]; lia|]. split.
    + intros a Ha. cbn [length] in Ha. rewrite Hout by lia.
      apply store64_outside. lia.
    + intros k Hk. destruct k as [|k].
      * cbn [nth]. change (Z.of_nat 0 + 1) with 1. rewrite Z.mul_1_r.
        rewrite <- (load64_store64 (top - 8) v m).
        apply load64_ext. intros i Hi. apply Hout. lia.
      * cbn [nth]. cbn [length] in Hk.
        rewrite <- (Hwords k) by lia. f_equal. lia.
Qed.

(** *** What the loop over the program headers leaves *)

Lemma bind_Done' {A B} (m : Run A) (k : A -> Run B) (b : B) :
  bind m k = Done b -> exists a, m = Done a /\ k a = Done b.
Proof.
  destruct m as [a| |]; simpl; intros H; try discriminate.
  exists a. split; [reflexivity | exact H].
Qed.

Lemma Done_inj {A} (a b : A) : Done a = Done b -> a = b.
Proof. intros H. injection H as H. exact H. Qed.

Lemma LoadELF_headers_progress
  (nested : string -> Loader -> Z -> Z -> Run (Loader * Z * Z))
  (elfHeader : ELFHeader) (headers : list ProgramHeader) :
  forall p p',
    LoadELF_headers nested elfHeader headers p = Done p' ->
    hasDynamicLinking p' = hasDynamicLinking p || hasInterpreter headers /\
    programHeaderTableAddr p'
    = fold_left
        (fun addr programHeader =>
           if ph_type programHeader =? ProgramHeaderTable
           then virtAddr programHeader else addr)
        headers (programHeaderTableAddr p).
Proof.
  induction headers as [|ph hs IH]; intros p p' H; cbn [LoadELF_headers] in H.
  - injection H as <-. unfold hasInterpreter. cbn [existsb fold_left].
    rewrite orb_false_r. split; reflexivity.
  - unfold hasInterpreter in *. cbn [existsb fold_left].
    destruct (ph_type ph =? Load) eqn:EL.
    { apply IH in H. cbn [hasDynamicLinking programHeaderTableAddr] in H.
      apply Z.eqb_eq in EL. rewrite EL.
      change (Load =? Interpreter) with false.
      change (Load =? ProgramHeaderTable) with false. exact H. }
    destruct (ph_type ph =? ProgramHeaderTable) eqn:EP.
    { apply IH in H. cbn [hasDynamicLinking programHeaderTableAddr] in H.
      apply Z.eqb_eq in EP. rewrite EP.
      change (ProgramHeaderTable =? Interpreter) with false. exact H. }
    destruct (ph_type ph =? Interpreter) eqn:EI.
    { apply bind_Done' in H. destruct H as (n & _ & H).
      apply IH in H. cbn [hasDynamicLinking programHeaderTableAddr] in H.
      cbn [orb] in *. rewrite orb_true_r. exact H. }
    apply IH in H. exact H.
Qed.

Lemma LoadELF_Executable_inv (fuel : nat) (files : Files) (path : string)
  (l : Loader) (entry0 stackPtr0 : Z) (r : Loader * Z * Z)
  (image : list byte) :
  LoadELF fuel files path l entry0 stackPtr0 = Done r ->
  files path = Some image ->
  type (readELFHeader (firstn 64 image)) = Executable ->
  let elfHeader := readELFHeader (firstn 64 image) in
  exists p,
    hasDynamicLinking p = hasInterpreter (programHeaderTableOf image) /\
    programHeaderTableAddr p
    = programHeaderTableAddrOf (programHeaderTableOf image) /\
    programHeaderTableEntrySize elfHeader = sizeof_ProgramHeader /\
    let stackLowestVirtAddr := USER_STACK_BASE - USER_STACK_SIZE in
    let rq := RequestPageFrames (USER_STACK_SIZE / 0x1000) (loader p) in
    let ms :=
      mapStack (Z.to_nat (USER_STACK_SIZE / 0x1000)) 0
        stackLowestVirtAddr (fst rq) 0 (snd rq) in
    let stackHigherHalfAddr := wrap64 (HigherHalf (fst ms) + 0x1000) in
    let l1 := snd ms in
    r = if hasDynamicLinking p then
          let pushed :=
            pushWords
              (initialStackWords elfHeader (programHeaderTableAddr p))
              stackHigherHalfAddr (memory l1) in
          (mkLoader (snd pushed) (mapped l1) (nextFrame l1),
           entryRef p,
           wrap64 (USER_STACK_BASE
                   - wrap64 (stackHigherHalfAddr - fst pushed)))
        else
          (l1, entry elfHeader,
           wrap64 (USER_STACK_BASE
                   - wrap64 (stackHigherHalfAddr - stackHigherHalfAddr))).
Proof.
  intros H Himage Hexec.
  destruct fuel as [|fuel]; [discriminate|].
  cbn [LoadELF] in H. rewrite Himage in H.
  apply bind_Done' in H. destruct H as (u1 & _ & H).
  apply bind_Done' in H. destruct H as (u2 & _ & H).
  apply bind_Done' in H. destruct H as (u3 & Hsize & H).
  apply bind_Done' in H. destruct H as (u4 & _ & H).
  apply bind_Done' in H. destruct H as (u5 & _ & H).
  apply bind_Done' in H. destruct H as (p & Hheaders & H).
  apply LoadELF_headers_progress in Hheaders.
  cbn [hasDynamicLinking programHeaderTableAddr orb] in Hheaders.
  destruct Hheaders as (Hdyn & Hphdr).
  cbv zeta. exists p.
  split; [exact Hdyn|]. split; [exact Hphdr|].
  split.
  { destruct (programHeaderTableEntrySize
                (readELFHeader (fst (FileRead (mkOpenFile image 0) sizeof_ELFHeader)))
              =? sizeof_ProgramHeader) eqn:E; [|discriminate].
    apply Z.eqb_eq in E. exact E. }
  change (fst (FileRead (mkOpenFile image 0) sizeof_ELFHeader))
    with (firstn 64 image) in H.
  rewrite Hexec in H.
  change (Executable =? Shared) with false in H.
  change (Executable =? Executable) with true in H.
  cbv iota in H.
  destruct (hasDynamicLinking p); apply Done_inj in H; symmetry; exact H.
Qed.

Lemma stack_pages (l0 : Loader) :
  let rq := RequestPageFrames (USER_STACK_SIZE / 0x1000) l0 in
  let ms :=
    mapStack (Z.to_nat (USER_STACK_SIZE / 0x1000)) 0
      (USER_STACK_BASE - USER_STACK_SIZE) (fst rq) 0 (snd rq) in
  mapped (snd ms)
  = mapped l0
    ++ [(0x7fffffffd000, wrap64 (nextFrame l0 + 0));
        (0x7fffffffe000, wrap64 (nextFrame l0 + 0x1000))] /\
  fst ms = wrap64 (nextFrame l0 + 0x1000) /\
  memory (snd ms) = memory l0.
Proof.
  cbv zeta. change (Z.to_nat (USER_STACK_SIZE / 0x1000)) with 2%nat.
  cbn [mapStack RequestPageFrames MapMemory fst snd mapped memory].
  rewrite <- app_assoc. cbn [app].
  change (wrap64 (USER_STACK_BASE - USER_STACK_SIZE + 0)) with 0x7fffffffd000.
  change (wrap64 (USER_STACK_BASE - USER_STACK_SIZE + (0 + 4096)))
    with 0x7fffffffe000.
  change (0 + 4096) with 4096.
  split; [reflexivity|]. split; reflexivity.
Qed.

Lemma pushWords_fst (words : list Z) :
  forall (top : Z) (m : Memory),
    wrap64 (fst (pushWords words top m))
    = wrap64 (top - 8 * Z.of_nat (length words)).
Proof.
  induction words as [|v words IH]; intros top m.
  - cbn [pushWords fst length]. f_equal. lia.
  - cbn [pushWords]. cbv zeta. rewrite IH. unfold wrap64.
    rewrite Zminus_mod_idemp_l. f_equal. cbn [length]. lia.
Qed.

Lemma pushed_distance (words : list Z) (top : Z) (m : Memory) :
  wrap64 (top - fst (pushWords words top m))
  = wrap64 (8 * Z.of_nat (length words)).
Proof.
  pose proof (pushWords_fst words top m) as H. unfold wrap64 in *.
  rewrite <- Zminus_mod_idemp_r, H, Zminus_mod_idemp_r. f_equal. lia.
Qed.

(** X26.  For an image of type Executable that [LoadELF] accepts: the
    last two pages it maps are the stack pages 0x7fffffffd000 and
    0x7fffffffe000, with two frames from one request, 0x1000 apart; when no
    program header names an interpreter it returns the stack pointer
    [USER_STACK_BASE] and the image's own entry, and otherwise the stack
    pointer [USER_STACK_BASE] less the thirteen words of the initial stack,
    which is 8 modulo 16. *)
Theorem LoadELF_executable_stack
  (fuel : nat) (files : Files) (path : string) (l l' : Loader)
  (entry0 stackPtr0 entry' stackPtr' : Z) (image : list byte)
  (Hdone : LoadELF fuel files path l entry0 stackPtr0
           = Done (l', entry', stackPtr'))
  (Himage : files path = Some image)
  (Hexec : type (readELFHeader (firstn 64 image)) = Executable) :
  (exists before frames,
     mapped l'
     = before ++ [(0x7fffffffd000, wrap64 (frames + 0));
                  (0x7fffffffe000, wrap64 (frames + 0x1000))]) /\
  USER_STACK_BASE = 0x7ffffffff000 /\
  if hasInterpreter (programHeaderTableOf image)
  then stackPtr' = USER_STACK_BASE - 13 * 8 /\ stackPtr' mod 16 = 8
  else stackPtr' = USER_STACK_BASE /\
       entry' = entry (readELFHeader (firstn 64 image)).
Proof.
  destruct (LoadELF_Executable_inv fuel files path l entry0 stackPtr0
              (l', entry', stackPtr') image Hdone Himage Hexec)
    as (p & Hdyn & _ & _ & Hr).
  clear Hdone. cbv zeta in Hr. rewrite Hdyn in Hr.
  destruct (stack_pages (loader p)) as (Hmapped & _ & _).
  cbv zeta in Hmapped.
  split.
  { exists (mapped (loader p)), (nextFrame (loader p)).
    rewrite <- Hmapped.
    destruct (hasInterpreter (programHeaderTableOf image)).
    - pose proof (f_equal (fun x => mapped (fst (fst x))) Hr) as H.
      cbv beta in H. cbn [fst mapped] in H. exact H.
    - pose proof (f_equal (fun x => mapped (fst (fst x))) Hr) as H.
      cbv beta in H. cbn [fst] in H. exact H. }
  split; [reflexivity|].
  destruct (hasInterpreter (programHeaderTableOf image)).
  - pose proof (f_equal (fun x => snd x) Hr) as H.
    cbv beta in H. cbn [snd] in H. clear Hr Hmapped.
    rewrite pushed_distance in H.
    assert (E : stackPtr' = USER_STACK_BASE - 13 * 8).
    { rewrite H. reflexivity. }
    split; [exact E|]. rewrite E. reflexivity.
  - pose proof (f_equal (fun x => snd x) Hr) as Hs.
    pose proof (f_equal (fun x => snd (fst x)) Hr) as He.
    cbv beta in Hs, He. cbn [fst snd] in Hs, He. clear Hr Hmapped.
    rewrite Z.sub_diag in Hs.
    split; [rewrite Hs; reflexivity | exact He].
Qed.

Lemma LoadELF_executable_stack_sample :
  (exists l',
     LoadELF 1 Samples.staticFiles "/bin/static" Samples.emptyLoader 0 0
     = Done (l', 0x401000, USER_STACK_BASE)) /\
  USER_STACK_BASE = 0x7ffffffff000.
Proof.
  split.
  - eexists. vm_compute. reflexivity.
  - destruct (LoadELF_executable_stack 1 Samples.staticFiles "/bin/static"
                Samples.emptyLoader
                (mkLoader (memory Samples.emptyLoader)
                   [(0x7fffffffd000, 0x200000); (0x7fffffffe000, 0x201000)]
                   0x202000)
                0 0 0x401000 USER_STACK_BASE Samples.static)
      as (_ & H & _).
    + vm_compute. reflexivity.
    + reflexivity.
    + reflexivity.
    + exact H.
Defined.

Lemma programHeaderTableAddr_range (headers : list ProgramHeader) :
  Forall (fun programHeader => 0 <= virtAddr programHeader < 2 ^ 64) headers ->
  forall addr,
    0 <= addr < 2 ^ 64 ->
    0 <= fold_left
           (fun addr programHeader =>
              if ph_type programHeader =? ProgramHeaderTable
              then virtAddr programHeader else addr)
           headers addr < 2 ^ 64.
Proof.
  induction 1 as [|ph hs Hph Hhs IH]; intros addr Haddr; [exact Haddr|].
  cbn [fold_left]. apply IH.
  destruct (ph_type ph =? ProgramHeaderTable); assumption.
Qed.

Lemma programHeaderTableOf_range (image : list byte) :
  0 <= programHeaderTableAddrOf (programHeaderTableOf image) < 2 ^ 64.
Proof.
  unfold programHeaderTableAddrOf. apply programHeaderTableAddr_range.
  - unfold programHeaderTableOf. cbv zeta. apply Forall_forall.
    intros ph Hin. apply in_map_iff in Hin. destruct Hin as (i & <- & _).
    unfold readProgramHeader. cbn [virtAddr]. apply field_bound. lia.
  - change (2 ^ 64) with 18446744073709551616. lia.
Qed.

(** X27.  For an accepted Executable with an interpreter, the thirteen
    words of the initial stack lie just below the end of the higher-half
    image of the frame that is mapped at the top stack page
    0x7fffffffe000 (when that address does not wrap).  Read upwards from
    the stack pointer they are: the argument count 0, the NULL that ends
    the argument vector, the NULL that ends the environment, and the
    auxiliary vector (9, the image's entry), (5, the number of program
    headers), (4, the size of a program header), (3, the address of the
    program header table, 0 without a [ProgramHeaderTable] header) and
    (0, 0). *)
Theorem LoadELF_initial_stack
  (fuel : nat) (files : Files) (path : string) (l l' : Loader)
  (entry0 stackPtr0 entry' stackPtr' : Z) (image : list byte)
  (Hdone : LoadELF fuel files path l entry0 stackPtr0
           = Done (l', entry', stackPtr'))
  (Himage : files path = Some image)
  (Hexec : type (readELFHeader (firstn 64 image)) = Executable)
  (Hinterpreter : hasInterpreter (programHeaderTableOf image) = true) :
  let elfHeader := readELFHeader (firstn 64 image) in
  exists before physAddr,
    mapped l' = before ++ [(0x7fffffffe000, physAddr)] /\
    let top := wrap64 (HigherHalf physAddr + 0x1000) in
    (13 * 8 <= top ->
     map (fun i => load64 (memory l') (top - 13 * 8 + 8 * Z.of_nat i))
       (seq 0 13)
     = [0; 0; 0;
        9; entry elfHeader;
        5; programHeaderTableEntryCount elfHeader;
        4; sizeof_ProgramHeader;
        3; programHeaderTableAddrOf (programHeaderTableOf image);
        0; 0]).
Proof.
  destruct (LoadELF_Executable_inv fuel files path l entry0 stackPtr0
              (l', entry', stackPtr') image Hdone Himage Hexec)
    as (p & Hdyn & Hphdr & Hsize & Hr).
  clear Hdone. cbv zeta in Hr, Hsize. rewrite Hdyn, Hinterpreter in Hr.
  destruct (stack_pages (loader p)) as (Hmapped & Hlast & Hmemory).
  cbv zeta in Hmapped, Hlast, Hmemory.
  pose proof (f_equal (fun x => mapped (fst (fst x))) Hr) as Hm.
  pose proof (f_equal (fun x => memory (fst (fst x))) Hr) as Hmem.
  cbv beta in Hm, Hmem. cbn [fst mapped memory] in Hm, Hmem. clear Hr.
  rewrite Hmapped in Hm. rewrite Hlast, Hmemory, Hphdr in Hmem.
  clear Hmapped Hlast Hmemory Hdyn Hphdr.
  cbv zeta.
  exists (mapped (loader p) ++ [(0x7fffffffd000, wrap64 (nextFrame (loader p) + 0))]),
    (wrap64 (nextFrame (loader p) + 0x1000)).
  split; [rewrite Hm, <- app_assoc; reflexivity|].
  intros Htop. rewrite Hmem. clear Hm Hmem.
  set (top := wrap64 (HigherHalf (wrap64 (nextFrame (loader p) + 0x1000)) + 0x1000))
    in *.
  set (elfHeader := readELFHeader (firstn 64 image)) in *.
  set (phdr := programHeaderTableAddrOf (programHeaderTableOf image)).
  set (words := initialStackWords elfHeader phdr).
  pose proof (wrap64_range (HigherHalf (wrap64 (nextFrame (loader p) + 0x1000)) + 0x1000))
    as Hrange. fold top in Hrange.
  destruct (pushWords_spec words top (memory (loader p))) as (_ & _ & Hwords).
  { change (Z.of_nat (length words)) with 13. lia. }
  cbv zeta in Hwords.
  assert (Hw : forall i, (i < 13)%nat ->
            load64 (snd (pushWords words top (memory (loader p))))
              (top - 13 * 8 + 8 * Z.of_nat i)
            = wrap64 (nth (12 - i) words 0)).
  { intros i Hi. rewrite <- (Hwords (12 - i)%nat) by (change (length words) with 13%nat; lia).
    f_equal. lia. }
  assert (Hentry : 0 <= entry elfHeader < 2 ^ 64)
    by (apply field_bound; lia).
  assert (Hcount : 0 <= programHeaderTableEntryCount elfHeader < 2 ^ 64)
    by (apply field_bound; lia).
  pose proof (programHeaderTableOf_range image) as Hphdr. fold phdr in Hphdr.
  cbn [seq map].
  rewrite !Hw by lia. unfold words, initialStackWords.
  cbn [Nat.sub nth]. rewrite Hsize.
  rewrite (wrap64_small (entry elfHeader)) by exact Hentry.
  rewrite (wrap64_small (programHeaderTableEntryCount elfHeader)) by exact Hcount.
  rewrite (wrap64_small phdr) by exact Hphdr.
  reflexivity.
Qed.

Lemma LoadELF_initial_stack_sample :
  LoadELF 2 Samples.files "/bin/init" Samples.emptyLoader 0 0
  = Done (Samples.initLoader, 0x40001000, USER_STACK_BASE - 13 * 8) /\
  map (fun i =>
         load64 (memory Samples.initLoader)
           (0xffff800000202000 - 13 * 8 + 8 * Z.of_nat i))
    (seq 0 13)
  = [0; 0; 0; 9; 0x401000; 5; 2; 4; 56; 3; 0x400040; 0; 0].
Proof.
  assert (E : LoadELF 2 Samples.files "/bin/init" Samples.emptyLoader 0 0
              = Done (Samples.initLoader, 0x40001000, USER_STACK_BASE - 13 * 8))
    by (vm_compute; reflexivity).
  split; [exact E|].
  destruct (LoadELF_initial_stack 2 Samples.files "/bin/init"
              Samples.emptyLoader Samples.initLoader 0 0 0x40001000
              (USER_STACK_BASE - 13 * 8) Samples.init)
    as (before & physAddr & Hm & Hwords).
  - vm_compute. reflexivity.
  - reflexivity.
  - reflexivity.
  - reflexivity.
  - assert (Hp : physAddr = 0x201000).
    { change (mapped Samples.initLoader)
        with [(0x7fffffffd000, 0x200000); (0x7fffffffe000, 0x201000)] in Hm.
      destruct before as [|x [|y before]].
      + discriminate.
      + injection Hm as _ H. symmetry. exact H.
      + destruct before; discriminate. }
    subst physAddr. cbv zeta in Hwords.
    apply Hwords. vm_compute. discriminate.
Defined.

End LoaderFacts.

(** ** The vnodes of a directory listing *)

Module ListingFacts.
Import Machine Bytes Ext2 MachineFacts BytesFacts.

Lemma beforeNul_length (bs : list byte) :
  (length (beforeNul bs) <= length bs)%nat.
Proof.
  induction bs as [|b bs IH]; cbn [beforeNul length]; [lia|].
  destruct (Byte.eqb b Byte.x00); cbn [length]; lia.
Qed.

Lemma beforeNul_no_NUL (bs : list byte) : ~ In Byte.x00 (beforeNul bs).
Proof.
  induction bs as [|b bs IH]; cbn [beforeNul]; [intros []|].
  destruct (Byte.eqb b Byte.x00) eqn:E; [intros []|].
  intros [H|H]; [|exact (IH H)]. subst b. discriminate E.
Qed.

Section Listing.
Variable stackByte : Z -> byte.
Variable heapBytes : Z -> Z -> byte.

(** What holds of every vnode of a listing. *)
Local Abbreviation wellFormed :=
  (fun v : VFS.VNode =>
     1 <= VFS.inodeNum v < 2 ^ 32 /\
     (length (list_byte_of_string (VFS.name v)) <= 255)%nat /\
     ~ In Byte.x00 (list_byte_of_string (VFS.name v))).

Lemma ConstructVNode_entryAt (ino : VFS.Ext2Inode) (p : Z) :
  inodeNum (entryAt stackByte heapBytes ino p) <> 0 ->
  wellFormed (ConstructVNode (entryAt stackByte heapBytes ino p)).
Proof.
  intros Hin. unfold ConstructVNode. cbn [VFS.inodeNum VFS.name].
  rewrite list_byte_of_string_of_list_byte.
  split; [|split].
  - revert Hin. unfold entryAt. cbn [inodeNum]. intros Hin.
    match goal with
    | |- 1 <= littleEndian ?bs < _ =>
        pose proof (littleEndian_nonneg bs) as Hnn;
        assert (Hb : littleEndian bs < 2 ^ 32)
    end.
    { cbn [seq map]. unfold littleEndian. cbn [fold_right].
      repeat match goal with
             | |- context [byteValue ?a] =>
                 lazymatch goal with
                 | _ : 0 <= byteValue a <= 255 |- _ => fail
                 | _ => pose proof (byteValue_range a)
                 end
             end.
      change (2 ^ 32) with 4294967296. lia. }
    lia.
  - apply Nat.le_trans with (1 := beforeNul_length _).
    unfold entryAt. cbn [name]. rewrite length_map, length_seq.
    match goal with
    | |- (Z.to_nat (byteValue ?a) <= _)%nat => pose proof (byteValue_range a)
    end.
    lia.
  - apply beforeNul_no_NUL.
Qed.

Lemma GetDirectoryListing_loop_wellFormed (fuel : nat) (ino : VFS.Ext2Inode) :
  forall (p : Z) (vNodes result : list VFS.VNode),
    Forall wellFormed vNodes ->
    GetDirectoryListing_loop stackByte heapBytes fuel ino p vNodes
    = Some result ->
    Forall wellFormed result.
Proof.
  induction fuel as [|fuel IH]; intros p vNodes result Hall H; [discriminate|].
  cbn [GetDirectoryListing_loop] in H.
  destruct (p <? VFS.size0 ino); [|injection H as <-; exact Hall].
  apply IH in H; [exact H|].
  destruct (inodeNum (entryAt stackByte heapBytes ino p) =? 0) eqn:E;
    cbn [negb]; [exact Hall|].
  unfold Vector.Push. apply Forall_app. split; [exact Hall|].
  constructor; [|constructor].
  apply ConstructVNode_entryAt. apply Z.eqb_neq. exact E.
Qed.

End Listing.

(** X28.  Whatever bytes the directory holds, every vnode of a listing
    that [GetDirectoryListing] returns has an inode number from 1 to
    2^32 - 1 and a name of at most 255 bytes without a NUL: entries with the
    inode number 0 are left out, and the name ends at the length byte or at
    the first NUL before it. *)
Theorem GetDirectoryListing_vnodes (stackByte : Z -> byte)
  (heapBytes : Z -> Z -> byte) (fuel : nat) (directoryInode : VFS.Ext2Inode)
  (vNodes : list VFS.VNode)
  (Hreturns : GetDirectoryListing stackByte heapBytes fuel directoryInode
              = Some vNodes) :
  Forall (fun v =>
            1 <= VFS.inodeNum v < 2 ^ 32 /\
            (length (list_byte_of_string (VFS.name v)) <= 255)%nat /\
            ~ In Byte.x00 (list_byte_of_string (VFS.name v)))
    vNodes.
Proof.
  apply (GetDirectoryListing_loop_wellFormed stackByte heapBytes fuel
           directoryInode 0 [] vNodes); [constructor | exact Hreturns].
Qed.

Lemma GetDirectoryListing_vnodes_sample :
  Forall (fun v =>
            1 <= VFS.inodeNum v < 2 ^ 32 /\
            (length (list_byte_of_string (VFS.name v)) <= 255)%nat /\
            ~ In Byte.x00 (list_byte_of_string (VFS.name v)))
    [VFS.mkVNode "." 2; VFS.mkVNode "a.txt" 12].
Proof.
  apply (GetDirectoryListing_vnodes Samples.noStack Samples.noHeap 4
           Samples.directory).
  vm_compute. reflexivity.
Defined.

End ListingFacts.

(** ** Leaving the queue *)

Module ExitFacts.
Import Machine Halting Sched SchedSpec MachineFacts VectorFacts SchedFacts
  SelectFacts SwitchFacts SleepFacts.

Lemma Put_pids (q : list Task) :
  forall (i : nat) (t : Task),
    pid t = pid (Vector.Get zeroTask q i) -> (i < length q)%nat ->
    map pid (Vector.Put i t q) = map pid q.
Proof.
  induction q as [|u q IH]; intros [|i] t Hp Hi; cbn [length] in Hi; try lia.
  - cbn [Vector.Put map]. unfold Vector.Get in Hp. cbn [nth] in Hp.
    rewrite Hp. reflexivity.
  - cbn [Vector.Put map]. f_equal. apply IH; [exact Hp | lia].
Qed.

Lemma Unblock_pids (p : Z) (q q' : list Task) :
  Unblock p q = Some q' -> map pid q' = map pid q.
Proof.
  unfold Unblock. intros H.
  apply bind_Some in H. destruct H as (i & Hg & H).
  apply bind_Some in H. destruct H as (u & _ & H).
  injection H as <-. apply Put_pids.
  - reflexivity.
  - apply (GetTask_bound p). exact Hg.
Qed.

Lemma UpdateTimerEntries_loop_pids (i : nat) (d : Z) :
  forall (timers : list TimerEntry.t) (q : list Task) r,
    UpdateTimerEntries_loop i d timers q = Some r ->
    map pid (snd r) = map pid q.
Proof.
  induction i as [|i IH]; intros timers q r H.
  - injection H as <-. reflexivity.
  - cbn [UpdateTimerEntries_loop] in H. cbv zeta in H.
    destruct (TimerEntry.milliseconds (Vector.Get TimerEntry.zero timers i) <=? d).
    + apply bind_Some in H. destruct H as (q' & Hq & H).
      apply IH in H. rewrite H.
      destruct (TimerEntry.unblockOnExpire (Vector.Get TimerEntry.zero timers i)).
      * apply bind_Some in Hq. destruct Hq as (u & _ & Hq).
        apply (Unblock_pids _ _ _ Hq).
      * injection Hq as <-. reflexivity.
    + apply IH in H. exact H.
Qed.

Lemma UpdateTimerEntries_keeps (remainingTime : Z) (s s1 : Scheduler) :
  UpdateTimerEntries remainingTime s = Some s1 ->
  restoreFrame s1 = restoreFrame s /\ idleTask s1 = idleTask s /\
  currentTask s1 = currentTask s /\
  map pid (taskQueue s1) = map pid (taskQueue s).
Proof.
  unfold UpdateTimerEntries. intros H.
  apply bind_Some in H. destruct H as (u & _ & H). cbv zeta in H.
  apply bind_Some in H. destruct H as (r & Hloop & H).
  injection H as <-. cbn. repeat split.
  apply (UpdateTimerEntries_loop_pids _ _ _ _ _ Hloop).
Qed.

(** X29.  After an [ExitCurrentTask] that returned, the task that exited
    is not put back: the current task is the idle task or has the PID of a
    task that was queued, every queued task has the PID of a task that was
    queued, and the queue is no longer than before.  So when the PID of the
    exiting task was not in the queue and is not that of the idle task, no
    task has it afterwards. *)
Theorem ExitCurrentTask_drops_caller (remainingTime : Z)
  (interruptFrame frame' : InterruptFrame) (s s' : Scheduler)
  (Hreturns : ExitCurrentTask remainingTime interruptFrame s
              = Some (s', frame')) :
  (currentTask s' = idleTask s \/
   In (pid (currentTask s')) (map pid (taskQueue s))) /\
  (forall t, In t (taskQueue s') -> In (pid t) (map pid (taskQueue s))) /\
  (length (taskQueue s') <= length (taskQueue s))%nat /\
  (~ In (pid (currentTask s)) (map pid (taskQueue s)) ->
   pid (currentTask s) <> pid (idleTask s) ->
   ~ In (pid (currentTask s)) (map pid (currentTask s' :: taskQueue s'))).
Proof.
  unfold ExitCurrentTask in Hreturns.
  set (s0 := mkScheduler (taskQueue s) (currentTask s) (idleTask s) false
               (timerEntries s) (currentTimerTime s)
               (lapicTimeBetweenTimerFires s) (tssSystemCallStack s) (cr3 s))
    in *.
  destruct (UpdateTimerEntries remainingTime s0) as [s1|] eqn:Hupd.
  2:{ unfold SwitchToNextTask in Hreturns. rewrite Hupd in Hreturns.
      discriminate. }
  destruct (UpdateTimerEntries_keeps _ _ _ Hupd) as (Hrf & Hidle & _ & Hpids).
  cbn [s0 restoreFrame idleTask taskQueue] in Hrf, Hidle, Hpids.
  destruct (SwitchToNextTask_pieces remainingTime interruptFrame s0 s1 Hupd)
    as (s2 & Hs & Hq & Hc & _).
  rewrite Hreturns in Hs. injection Hs as Hs' _. subst s2.
  unfold queueBeforeSelection in Hq, Hc. rewrite Hrf in Hq, Hc.
  set (r := selectFrom (taskQueue s1) (currentTask s1) false) in *.
  assert (Hcore :
    (currentTask s' = idleTask s \/ In (currentTask s') (taskQueue s1)) /\
    (forall t, In t (taskQueue s') -> In t (taskQueue s1)) /\
    (length (taskQueue s') <= length (taskQueue s1))%nat).
  { destruct (existsb isNormal (taskQueue s1)) eqn:Hex.
    - destruct (selectFrom_some (taskQueue s1) (currentTask s1) false Hex)
        as (A & _ & C).
      destruct (selectFrom_accounts (taskQueue s1) (currentTask s1) false Hex)
        as (dropped & Hp & _).
      fold r in A, C, Hp. rewrite A in Hc. rewrite <- Hc in C, Hp.
      rewrite <- Hq in Hp.
      split; [right; exact C|]. split.
      + intros t Ht. apply (Permutation.Permutation_in t (Permutation.Permutation_sym Hp)).
        right. apply in_or_app. right. exact Ht.
      + apply Permutation.Permutation_length in Hp. cbn [length] in Hp.
        rewrite length_app in Hp. lia.
    - pose proof (selectFrom_none (taskQueue s1) (currentTask s1) false Hex) as E.
      fold r in E. rewrite E in Hq, Hc. cbn [fst snd] in Hq, Hc.
      split; [left; rewrite Hc; exact Hidle|]. rewrite Hq.
      split; [auto | lia]. }
  destruct Hcore as (Hcur & Hqueue & Hlen).
  assert (Hin : forall t, In t (taskQueue s1) ->
                  In (pid t) (map pid (taskQueue s))).
  { intros t Ht. rewrite <- Hpids. apply in_map. exact Ht. }
  assert (Hl : length (taskQueue s1) = length (taskQueue s)).
  { rewrite <- (length_map pid (taskQueue s1)), Hpids. apply length_map. }
  split; [destruct Hcur as [H|H]; [left; exact H | right; apply Hin; exact H]|].
  split; [intros t Ht; apply Hin, Hqueue, Ht|].
  split; [lia|].
  intros Hnot Hnidle Hhas. cbn [map] in Hhas. destruct Hhas as [E|Hhas].
  - destruct Hcur as [H|H].
    + rewrite H in E. apply Hnidle. symmetry. exact E.
    + apply Hnot. rewrite <- E. apply Hin. exact H.
  - apply in_map_iff in Hhas. destruct Hhas as (t & Ep & Ht).
    apply Hnot. rewrite <- Ep. apply Hin, Hqueue, Ht.
Qed.

Lemma ExitCurrentTask_drops_caller_sample :
  exists s' frame',
    ExitCurrentTask 5 zeroFrame
      (mkScheduler [Samples.task2; Samples.task3] Samples.task1 Samples.idle
         true [] 100 100 0 0)
    = Some (s', frame') /\
    ~ In 1 (map pid (currentTask s' :: taskQueue s')).
Proof.
  assert (H : exists s' frame',
            ExitCurrentTask 5 zeroFrame
              (mkScheduler [Samples.task2; Samples.task3] Samples.task1
                 Samples.idle true [] 100 100 0 0)
            = Some (s', frame'))
    by (eexists; eexists; vm_compute; reflexivity).
  destruct H as (s' & f' & H). exists s', f'. split; [exact H|].
  destruct (ExitCurrentTask_drops_caller 5 zeroFrame f' _ s' H)
    as (_ & _ & _ & Hgone).
  apply Hgone.
  - cbn. intros [E|[E|[]]]; discriminate.
  - cbn. discriminate.
Defined.

End ExitFacts.
